(** * Verification of core/storage.py

    A shallow embedding of the storage abstraction (PostgreSQL backend):
    the lazily created connection pool with its schema bootstrap, the
    key-value document store, and the account table operations, with the
    theorems that settle the properties claimed for them. *)

From Stdlib Require Import ZArith String Ascii List Bool Lia.
From Stdlib Require Import DecimalString Decimal.
From stdpp Require Import base option list gmap strings sorting.

Local Open Scope string_scope.
Local Open Scope Z_scope.

#[local] Set Warnings "-clear-no-such-hyp".

(** ** Python values held by account dictionaries

    The values the account dictionaries carry: [None], booleans, integers
    and strings (the column types of the accounts table, plus integers). *)

Inductive pyval : Type :=
  | PNone
  | PBool (b : bool)
  | PInt (n : Z)
  | PStr (s : string).

#[global] Instance pyval_eq_dec : EqDecision pyval.
Proof. solve_decision. Defined.

#[global] Instance pyval_countable : Countable pyval.
Proof.
  refine (inj_countable'
    (λ v, match v with
          | PNone => inl (inl tt)
          | PBool b => inl (inr b)
          | PInt n => inr (inl n)
          | PStr s => inr (inr s)
          end)
    (λ x, match x with
          | inl (inl _) => PNone
          | inl (inr b) => PBool b
          | inr (inl n) => PInt n
          | inr (inr s) => PStr s
          end) _).
  by intros [].
Defined.

(** [bool(v)]: Python truthiness. *)
Definition truthy (v : pyval) : bool :=
  match v with
  | PNone => false
  | PBool b => b
  | PInt n => negb (n =? 0)
  | PStr s => negb (String.eqb s EmptyString)
  end.

(** A Python [dict] with string keys; [d.get(k)] is [None] on a missing key. *)
Abbreviation pydict := (gmap string pyval).

Definition dict_get (d : pydict) (k : string) : pyval :=
  default PNone (d !! k).

(** ** [str.strip()] *)

(** A character of a [string] stands for the code point of that number,
    so the strings of this development are the Python strings whose code
    points are below U+0100.  Whitespace as [str.strip()] sees it there
    ([str.isspace]): TAB, LF, VT, FF, CR, the separators U+001C-U+001F, the
    space, NEXT LINE (U+0085) and the no-break space (U+00A0).  The Unicode
    spaces from U+1680 on are outside the alphabet. *)
Definition py_isspace (c : ascii) : bool :=
  let n := N_of_ascii c in
  ((9 <=? n) && (n <=? 13) || (28 <=? n) && (n <=? 32)
   || (n =? 133) || (n =? 160))%N.

Fixpoint lstrip (s : string) : string :=
  match s with
  | String c s' => if py_isspace c then lstrip s' else s
  | EmptyString => EmptyString
  end.

Fixpoint rstrip (s : string) : string :=
  match s with
  | String c s' =>
      match rstrip s' with
      | EmptyString => if py_isspace c then EmptyString else String c EmptyString
      | r => String c r
      end
  | EmptyString => EmptyString
  end.

Definition strip (s : string) : string := rstrip (lstrip s).

(** ** JSON documents and the text codec

    A model of the [json] module on the integer fragment of JSON:
    [dumps] follows [json.dumps(v, ensure_ascii=False)] (separators
    [", "] and [": "]), [loads] follows [json.loads]. *)

Module Json.

#[local] Set Warnings "-register-all".

Inductive json : Type :=
  | JNull
  | JBool (b : bool)
  | JNum (n : Z)
  | JStr (s : string)
  | JArr (items : list json)
  | JObj (members : list (string * json)).

Definition quote : ascii := ascii_of_N 34.
Definition backslash : ascii := ascii_of_N 92.

Definition hex_digit (n : N) : ascii :=
  ascii_of_N (if (n <? 10)%N then 48 + n else 87 + n)%N.

(** One character of a string literal, escaped as [json.dumps] does with
    [ensure_ascii=False]: the quote, the backslash and the control
    characters below 0x20 are escaped, everything else is emitted raw. *)
Definition escape_char (c : ascii) : string :=
  let n := N_of_ascii c in
  if (n =? 34)%N then String backslash (String quote EmptyString)
  else if (n =? 92)%N then String backslash (String backslash EmptyString)
  else if (n =? 10)%N then String backslash "n"
  else if (n =? 13)%N then String backslash "r"
  else if (n =? 9)%N then String backslash "t"
  else if (n =? 8)%N then String backslash "b"
  else if (n =? 12)%N then String backslash "f"
  else if (n <? 32)%N then
    String backslash
      ("u00" +:+ String (hex_digit (n / 16)) (String (hex_digit (n mod 16)) EmptyString))
  else String c EmptyString.

Fixpoint escape_string (s : string) : string :=
  match s with
  | EmptyString => EmptyString
  | String c r => escape_char c +:+ escape_string r
  end.

Definition dumps_string (s : string) : string :=
  String quote (escape_string s +:+ String quote EmptyString).

Definition dumps_int (n : Z) : string := NilZero.string_of_int (Z.to_int n).

(** [", ".join(parts)] *)
Fixpoint join_comma (parts : list string) : string :=
  match parts with
  | [] => EmptyString
  | [p] => p
  | p :: ps => p +:+ ", " +:+ join_comma ps
  end.

Fixpoint dumps (v : json) : string :=
  match v with
  | JNull => "null"
  | JBool true => "true"
  | JBool false => "false"
  | JNum n => dumps_int n
  | JStr s => dumps_string s
  | JArr items => "[" +:+ join_comma (map dumps items) +:+ "]"
  | JObj members =>
      "{" +:+ join_comma (map (fun kv => dumps_string (fst kv) +:+ ": " +:+ dumps (snd kv)) members)
          +:+ "}"
  end.

(** *** Decoding *)

Definition is_json_ws (c : ascii) : bool :=
  let n := N_of_ascii c in
  ((n =? 32) || (n =? 9) || (n =? 10) || (n =? 13))%N.

Fixpoint skip_ws (s : string) : string :=
  match s with
  | String c r => if is_json_ws c then skip_ws r else s
  | EmptyString => EmptyString
  end.

Fixpoint strip_prefix (p s : string) : option string :=
  match p, s with
  | EmptyString, _ => Some s
  | String a p', String b s' => if Ascii.eqb a b then strip_prefix p' s' else None
  | String _ _, EmptyString => None
  end.

Definition hex_value (c : ascii) : option N :=
  let n := N_of_ascii c in
  if ((48 <=? n) && (n <=? 57))%N then Some (n - 48)%N
  else if ((97 <=? n) && (n <=? 102))%N then Some (n - 87)%N
  else if ((65 <=? n) && (n <=? 70))%N then Some (n - 55)%N
  else None.

(** The character a one-letter escape stands for. *)
Definition unescape (e : ascii) : option ascii :=
  let n := N_of_ascii e in
  if (n =? 34)%N then Some quote
  else if (n =? 92)%N then Some backslash
  else if (n =? 47)%N then Some (ascii_of_N 47)
  else if (n =? 110)%N then Some (ascii_of_N 10)
  else if (n =? 114)%N then Some (ascii_of_N 13)
  else if (n =? 116)%N then Some (ascii_of_N 9)
  else if (n =? 98)%N then Some (ascii_of_N 8)
  else if (n =? 102)%N then Some (ascii_of_N 12)
  else None.

(** The body of a string literal, after its opening quote; raw control
    characters are refused (strict mode), and a [\uXXXX] escape is decoded
    when it names an ASCII character. *)
Fixpoint parse_string_body (s : string) : option (string * string) :=
  match s with
  | EmptyString => None
  | String c r =>
      if Ascii.eqb c quote then Some (EmptyString, r)
      else if Ascii.eqb c backslash then
        match r with
        | String e r1 =>
            if Ascii.eqb e "u" then
              match r1 with
              | String h1 (String h2 (String h3 (String h4 r2))) =>
                  match hex_value h1, hex_value h2, hex_value h3, hex_value h4 with
                  | Some a, Some b, Some c', Some d =>
                      let code := (((a * 16 + b) * 16 + c') * 16 + d)%N in
                      if (code <? 128)%N then
                        match parse_string_body r2 with
                        | Some (body, rest) => Some (String (ascii_of_N code) body, rest)
                        | None => None
                        end
                      else None
                  | _, _, _, _ => None
                  end
              | _ => None
              end
            else
              match unescape e, parse_string_body r1 with
              | Some ch, Some (body, rest) => Some (String ch body, rest)
              | _, _ => None
              end
        | EmptyString => None
        end
      else if (N_of_ascii c <? 32)%N then None
      else
        match parse_string_body r with
        | Some (body, rest) => Some (String c body, rest)
        | None => None
        end
  end.

Definition is_digit (c : ascii) : bool :=
  let n := N_of_ascii c in ((48 <=? n) && (n <=? 57))%N.

(** Leading decimal digits of [s], accumulated into [acc]. *)
Fixpoint take_digits (acc : Z) (count : nat) (s : string) : Z * nat * string :=
  match s with
  | String c r =>
      if is_digit c
      then take_digits (acc * 10 + Z.of_N (N_of_ascii c - 48)) (S count) r
      else (acc, count, s)
  | EmptyString => (acc, count, s)
  end.

(** An integer literal: an optional minus sign, then [0] or a digit string
    without leading zero; a fraction or an exponent is outside the
    fragment. *)
Definition parse_int (s : string) : option (Z * string) :=
  let '(neg, body) :=
    match s with
    | String "-" r => (true, r)
    | _ => (false, s)
    end in
  match body with
  | String c r =>
      if is_digit c then
        let '(n, count, rest) := take_digits 0 0 body in
        if Ascii.eqb c "0" && negb (Nat.eqb count 1) then None
        else
          match rest with
          | String "." _ | String "e" _ | String "E" _ => None
          | _ => Some (if neg then - n else n, rest)
          end
      else None
  | EmptyString => None
  end.

Fixpoint parse_value (fuel : nat) (s : string) : option (json * string) :=
  match fuel with
  | O => None
  | S fuel =>
      match skip_ws s with
      | String c r =>
          if Ascii.eqb c quote then
            match parse_string_body r with
            | Some (str, rest) => Some (JStr str, rest)
            | None => None
            end
          else if Ascii.eqb c "[" then
            match skip_ws r with
            | String "]" rest => Some (JArr [], rest)
            | _ =>
                match parse_items fuel r with
                | Some (items, rest) => Some (JArr items, rest)
                | None => None
                end
            end
          else if Ascii.eqb c "{" then
            match skip_ws r with
            | String "}" rest => Some (JObj [], rest)
            | _ =>
                match parse_members fuel r with
                | Some (members, rest) => Some (JObj members, rest)
                | None => None
                end
            end
          else if Ascii.eqb c "n" then
            match strip_prefix "ull" r with
            | Some rest => Some (JNull, rest)
            | None => None
            end
          else if Ascii.eqb c "t" then
            match strip_prefix "rue" r with
            | Some rest => Some (JBool true, rest)
            | None => None
            end
          else if Ascii.eqb c "f" then
            match strip_prefix "alse" r with
            | Some rest => Some (JBool false, rest)
            | None => None
            end
          else
            match parse_int (String c r) with
            | Some (n, rest) => Some (JNum n, rest)
            | None => None
            end
      | EmptyString => None
      end
  end
with parse_items (fuel : nat) (s : string) : option (list json * string) :=
  match fuel with
  | O => None
  | S fuel =>
      match parse_value fuel s with
      | Some (v, rest) =>
          match skip_ws rest with
          | String "," rest' =>
              match parse_items fuel rest' with
              | Some (vs, rest'') => Some (v :: vs, rest'')
              | None => None
              end
          | String "]" rest' => Some ([v], rest')
          | _ => None
          end
      | None => None
      end
  end
with parse_members (fuel : nat) (s : string) : option (list (string * json) * string) :=
  match fuel with
  | O => None
  | S fuel =>
      match skip_ws s with
      | String c r =>
          if Ascii.eqb c quote then
            match parse_string_body r with
            | Some (key, rest) =>
                match skip_ws rest with
                | String ":" rest1 =>
                    match parse_value fuel rest1 with
                    | Some (v, rest2) =>
                        match skip_ws rest2 with
                        | String "," rest3 =>
                            match parse_members fuel rest3 with
                            | Some (ms, rest4) => Some ((key, v) :: ms, rest4)
                            | None => None
                            end
                        | String "}" rest3 => Some ([(key, v)], rest3)
                        | _ => None
                        end
                    | None => None
                    end
                | _ => None
                end
            | None => None
            end
          else None
      | EmptyString => None
      end
  end.

(** [json.loads(text)]: one value, then only whitespace; [None] stands for
    [JSONDecodeError]. *)
Definition loads (text : string) : option json :=
  match parse_value (2 * String.length text + 2) text with
  | Some (v, rest) =>
      match skip_ws rest with
      | EmptyString => Some v
      | String _ _ => None
      end
  | None => None
  end.

(** A document in the sense of the key-value store: a mapping. *)
Definition is_mapping (v : json) : bool :=
  match v with
  | JObj _ => true
  | _ => false
  end.

(** No U+0000 in a string, and in no string or key of a document. *)
Definition nul_free_string (s : string) : bool :=
  forallb (λ c, negb (N_of_ascii c =? 0)%N) (list_ascii_of_string s).

Fixpoint nul_free (v : json) : bool :=
  match v with
  | JStr s => nul_free_string s
  | JArr items => forallb nul_free items
  | JObj members =>
      forallb (λ kv, nul_free_string (fst kv) && nul_free (snd kv)) members
  | JNull | JBool _ | JNum _ => true
  end.

End Json.

(** ** The database server

    The two tables of [_init_tables], as PostgreSQL holds them.  A table
    that was never created is [None]; a statement on it raises. *)

Inductive coltype : Type := TText | TBoolean.

Record column : Type := Column {
  col_name : string;
  col_type : coltype;
  col_not_null : bool }.

(** The columns of [CREATE TABLE accounts] that the code writes, in the
    order of the statement ([created_at] and [updated_at] are
    server-assigned and kept apart in [account_row]). *)
Definition accounts_columns : list column :=
  [ Column "id" TText true;
    Column "secure_c_ses" TText true;
    Column "host_c_oses" TText false;
    Column "csesidx" TText true;
    Column "config_id" TText true;
    Column "expires_at" TText false;
    Column "disabled" TBoolean false;
    Column "mail_provider" TText false;
    Column "mail_address" TText false;
    Column "mail_password" TText false;
    Column "mail_client_id" TText false;
    Column "mail_refresh_token" TText false;
    Column "mail_tenant" TText false;
    Column "mail_base_url" TText false;
    Column "mail_jwt_token" TText false;
    Column "mail_verify_ssl" TBoolean false;
    Column "mail_domain" TText false;
    Column "mail_api_key" TText false ].

Definition ACCOUNT_FIELDS : list string :=
  [ "id"; "secure_c_ses"; "host_c_oses"; "csesidx"; "config_id";
    "expires_at"; "disabled"; "mail_provider"; "mail_address"; "mail_password";
    "mail_client_id"; "mail_refresh_token"; "mail_tenant"; "mail_base_url";
    "mail_jwt_token"; "mail_verify_ssl"; "mail_domain"; "mail_api_key" ].

(** A row of [accounts]: the values of [ACCOUNT_FIELDS] in order, and the
    two timestamps (server clock readings). *)
Record account_row : Type := AccountRow {
  row_values : list pyval;
  created_at : nat;
  updated_at : nat }.

Record kv_row : Type := KvRow {
  kv_value : Json.json;
  kv_updated_at : nat }.

Record database : Type := Database {
  kv_store : option (gmap string kv_row);
  accounts : option (gmap string account_row);
  idx_accounts_disabled : bool;
  idx_accounts_expires_at : bool }.

(** The rows of [accounts]; a table that does not exist has none. *)
Definition account_rows (d : database) : gmap string account_row :=
  default ∅ (accounts d).

(** Exceptions; every one is an [Exception] in Python's hierarchy. *)
Inductive exn : Type :=
  | ValueError
  | ImportError
  | AttributeError
  | JSONDecodeError
  | ConnectError            (* create_pool: unreachable host, auth failure *)
  | PostgresError           (* a round trip failed: timeout, lost connection, server error *)
  | UndefinedTableError
  | NotNullViolationError
  | DataError.              (* an argument does not fit its column type *)

Inductive outcome (A : Type) : Type :=
  | Ret (a : A)
  | Raise (e : exn).
Arguments Ret {A} a.
Arguments Raise {A} e.

(** Does the driver accept [v] for a column of this type?  [None] is SQL
    [NULL]; [text] takes a [str], [boolean] takes a [bool]. *)
Definition fits (t : coltype) (v : pyval) : bool :=
  match v, t with
  | PNone, _ => true
  | PStr _, TText => true
  | PBool _, TBoolean => true
  | _, _ => false
  end.

Fixpoint args_fit (cols : list column) (vals : list pyval) : bool :=
  match cols, vals with
  | [], [] => true
  | c :: cols', v :: vals' => fits (col_type c) v && args_fit cols' vals'
  | _, _ => false
  end.

(** No [NULL] in a [NOT NULL] (or primary key) column. *)
Fixpoint nulls_allowed (cols : list column) (vals : list pyval) : bool :=
  match cols, vals with
  | c :: cols', v :: vals' =>
      (negb (col_not_null c) || bool_decide (v ≠ PNone)) && nulls_allowed cols' vals'
  | _, _ => true
  end.

(** The statements the module sends. *)
Inductive stmt : Type :=
  | CreateKvStore
  | CreateAccounts
  | CreateIdxAccountsDisabled
  | CreateIdxAccountsExpiresAt
  | SelectKvValue (key : string)
  | UpsertKv (key : string) (text : string)
  | SelectAccounts
  | SelectAccountIds
  | DeleteAccountsAny (ids : list pyval)
  | DeleteAccount (id : pyval)
  | UpsertAccount (vals : list pyval)
  | Begin
  | Commit
  | Rollback.

(** [INSERT INTO accounts (...) VALUES (...) ON CONFLICT (id) DO UPDATE SET
    ..., updated_at = CURRENT_TIMESTAMP]: a new row takes both timestamps
    from [now]; an existing row keeps [created_at]. *)
Definition sql_upsert_account (now : nat) (vals : list pyval) (d : database)
  : outcome database :=
  match accounts d with
  | None => Raise UndefinedTableError
  | Some tbl =>
      if negb (args_fit accounts_columns vals) then Raise DataError
      else if negb (nulls_allowed accounts_columns vals) then Raise NotNullViolationError
      else
        match vals with
        | PStr id :: _ =>
            let created := match tbl !! id with
                           | Some old => created_at old
                           | None => now
                           end in
            Ret (Database (kv_store d)
                   (Some (<[id := AccountRow vals created now]> tbl))
                   (idx_accounts_disabled d) (idx_accounts_expires_at d))
        | _ => Raise NotNullViolationError
        end
  end.

(** [DELETE FROM accounts WHERE id = ANY($1)], and [WHERE id = $1] with a
    one-element list: the arguments are [text]; a [NULL] matches no row. *)
Definition delete_key (v : pyval) (tbl : gmap string account_row)
  : gmap string account_row :=
  match v with
  | PStr id => delete id tbl
  | _ => tbl
  end.

Definition sql_delete_accounts (ids : list pyval) (d : database) : outcome database :=
  match accounts d with
  | None => Raise UndefinedTableError
  | Some tbl =>
      if negb (forallb (fits TText) ids) then Raise DataError
      else
        Ret (Database (kv_store d)
               (Some (foldr delete_key tbl ids))
               (idx_accounts_disabled d) (idx_accounts_expires_at d))
  end.

(** What the server makes of a JSONB argument: it parses the text, and
    refuses a document with U+0000 in a string or a key, which PostgreSQL
    cannot hold as text ([\u0000 cannot be converted to text]).  On the
    integer fragment the numbers are kept as given; the members of a
    mapping are kept in the order given (the server has an order of its
    own, and a Python [dict] compares equal whatever the order). *)
Definition jsonb_in (text : string) : option Json.json :=
  match Json.loads text with
  | Some doc => if Json.nul_free doc then Some doc else None
  | None => None
  end.

(** [INSERT INTO kv_store ... ON CONFLICT (key) DO UPDATE SET value =
    EXCLUDED.value, updated_at = CURRENT_TIMESTAMP]: the key is [text],
    which takes no U+0000 either; the JSONB column holds the document
    that [jsonb_in] makes of the text. *)
Definition sql_upsert_kv (now : nat) (key text : string) (d : database)
  : outcome database :=
  match kv_store d with
  | None => Raise UndefinedTableError
  | Some tbl =>
      if negb (Json.nul_free_string key) then Raise DataError
      else
        match jsonb_in text with
        | None => Raise DataError
        | Some doc =>
            Ret (Database (Some (<[key := KvRow doc now]> tbl)) (accounts d)
                   (idx_accounts_disabled d) (idx_accounts_expires_at d))
        end
  end.

(** What a statement does to the tables. *)
Definition sql_exec (now : nat) (s : stmt) (d : database) : outcome database :=
  match s with
  | CreateKvStore =>
      Ret (Database (Some (default ∅ (kv_store d))) (accounts d)
             (idx_accounts_disabled d) (idx_accounts_expires_at d))
  | CreateAccounts =>
      Ret (Database (kv_store d) (Some (default ∅ (accounts d)))
             (idx_accounts_disabled d) (idx_accounts_expires_at d))
  | CreateIdxAccountsDisabled =>
      match accounts d with
      | None => Raise UndefinedTableError
      | Some _ => Ret (Database (kv_store d) (accounts d) true (idx_accounts_expires_at d))
      end
  | CreateIdxAccountsExpiresAt =>
      match accounts d with
      | None => Raise UndefinedTableError
      | Some _ => Ret (Database (kv_store d) (accounts d) (idx_accounts_disabled d) true)
      end
  | SelectKvValue _ =>
      match kv_store d with
      | None => Raise UndefinedTableError
      | Some _ => Ret d
      end
  | UpsertKv key text => sql_upsert_kv now key text d
  | SelectAccounts | SelectAccountIds =>
      match accounts d with
      | None => Raise UndefinedTableError
      | Some _ => Ret d
      end
  | DeleteAccountsAny ids => sql_delete_accounts ids d
  | DeleteAccount id => sql_delete_accounts [id] d
  | UpsertAccount vals => sql_upsert_account now vals d
  | Begin | Commit | Rollback => Ret d
  end.

(** ** The process: globals, environment and effects *)

Inductive level : Type := Info | Error.

(** What the process does to the outside, newest first in [trace]. *)
Inductive event : Type :=
  | EvImportDriver (ok : bool)
  | EvCreatePool (ok : bool)
  | EvAcquire (ok : bool)
  | EvRelease (ok : bool)
  | EvSql (s : stmt) (ok : bool)
  | EvLog (lvl : level) (msg : string).

(** [faults] is the failure oracle of the network and the server: each
    round trip takes its head ([true]: this round trip raises); once it
    is empty nothing fails any more.  [jsonb_codec] tells whether the
    driver decodes JSONB values itself; the module registers no codec, so
    the driver hands JSONB back as text. *)
Record world : Type := World {
  environ : gmap string string;
  driver_installed : bool;
  jsonb_codec : bool;
  faults : list bool;
  clock : nat;
  db : database;
  txn_start : option nat;
  _db_pool : option nat;
  _db_pool_lock : bool;
  pools_created : nat;
  trace : list event }.

Definition set_faults (x : list bool) (w : world) : world :=
  World (environ w) (driver_installed w) (jsonb_codec w) x (clock w) (db w)
    (txn_start w) (_db_pool w) (_db_pool_lock w) (pools_created w) (trace w).
Definition set_clock (x : nat) (w : world) : world :=
  World (environ w) (driver_installed w) (jsonb_codec w) (faults w) x (db w)
    (txn_start w) (_db_pool w) (_db_pool_lock w) (pools_created w) (trace w).
Definition set_db (x : database) (w : world) : world :=
  World (environ w) (driver_installed w) (jsonb_codec w) (faults w) (clock w) x
    (txn_start w) (_db_pool w) (_db_pool_lock w) (pools_created w) (trace w).
Definition set_txn_start (x : option nat) (w : world) : world :=
  World (environ w) (driver_installed w) (jsonb_codec w) (faults w) (clock w) (db w)
    x (_db_pool w) (_db_pool_lock w) (pools_created w) (trace w).
Definition set_db_pool (x : option nat) (w : world) : world :=
  World (environ w) (driver_installed w) (jsonb_codec w) (faults w) (clock w) (db w)
    (txn_start w) x (_db_pool_lock w) (pools_created w) (trace w).
Definition set_db_pool_lock (x : bool) (w : world) : world :=
  World (environ w) (driver_installed w) (jsonb_codec w) (faults w) (clock w) (db w)
    (txn_start w) (_db_pool w) x (pools_created w) (trace w).
Definition set_pools_created (x : nat) (w : world) : world :=
  World (environ w) (driver_installed w) (jsonb_codec w) (faults w) (clock w) (db w)
    (txn_start w) (_db_pool w) (_db_pool_lock w) x (trace w).
Definition set_trace (x : list event) (w : world) : world :=
  World (environ w) (driver_installed w) (jsonb_codec w) (faults w) (clock w) (db w)
    (txn_start w) (_db_pool w) (_db_pool_lock w) (pools_created w) x.

(** Nested updates, flattened into one record. *)
Ltac world_norm :=
  cbv beta iota delta
    [set_faults set_clock set_db set_txn_start set_db_pool set_db_pool_lock
     set_pools_created set_trace environ driver_installed jsonb_codec faults
     clock db txn_start _db_pool _db_pool_lock pools_created trace].

Ltac world_norm_in H :=
  cbv beta iota delta
    [set_faults set_clock set_db set_txn_start set_db_pool set_db_pool_lock
     set_pools_created set_trace environ driver_installed jsonb_codec faults
     clock db txn_start _db_pool _db_pool_lock pools_created trace] in H.

(** Computations that read and write the world and may raise. *)
Definition M (A : Type) : Type := world → outcome A * world.

#[global] Instance M_ret : MRet M := λ A a w, (Ret a, w).
#[global] Instance M_bind : MBind M := λ A B f m w,
  match m w with
  | (Ret a, w') => f a w'
  | (Raise e, w') => (Raise e, w')
  end.

Definition raise {A} (e : exn) : M A := λ w, (Raise e, w).
Definition get_world : M world := λ w, (Ret w, w).
Definition modify (f : world → world) : M unit := λ w, (Ret tt, f w).

(** [try: m except Exception as e: h e] *)
Definition try_except {A} (m : M A) (h : exn → M A) : M A := λ w,
  match m w with
  | (Ret a, w') => (Ret a, w')
  | (Raise e, w') => h e w'
  end.

Definition emit (e : event) : M unit := modify (λ w, set_trace (e :: trace w) w).
Definition log_info (msg : string) : M unit := emit (EvLog Info msg).
Definition log_error (msg : string) : M unit := emit (EvLog Error msg).

(** One round trip to the server: time passes, and the oracle says
    whether it fails. *)
Definition pop_fault (w : world) : bool * world :=
  let w1 := set_clock (S (clock w)) w in
  match faults w with
  | [] => (false, w1)
  | b :: rest => (b, set_faults rest w1)
  end.

Definition next_fault : M bool := λ w,
  let '(failed, w1) := pop_fault w in (Ret failed, w1).

(** [CURRENT_TIMESTAMP]: the start of the open transaction, else now. *)
Definition current_timestamp (w : world) : nat :=
  default (clock w) (txn_start w).

(** A statement sent on the connection; [result] reads the answer off the
    tables. *)
Definition conn_run {A} (s : stmt) (result : database → A) : M A :=
  failed ← next_fault;
  if (failed : bool) then emit (EvSql s false);; raise PostgresError
  else
    w ← get_world;
    match sql_exec (current_timestamp w) s (db w) with
    | Raise e => emit (EvSql s false);; raise e
    | Ret d' => modify (set_db d');; emit (EvSql s true);; mret (result (db w))
    end.

(** [await conn.execute(sql, *args)] *)
Definition conn_execute (s : stmt) : M unit := conn_run s (λ _, tt).

(** [async with conn.transaction(): body]: BEGIN, the body, then COMMIT;
    when the body or the commit raises, the tables are what they were at
    BEGIN and the exception goes on. *)
Definition conn_transaction {A} (body : M A) : M A := λ w,
  match conn_execute Begin w with
  | (Raise e, w1) => (Raise e, w1)
  | (Ret _, w1) =>
      let snapshot := db w1 in
      match body (set_txn_start (Some (clock w1)) w1) with
      | (Ret a, w2) =>
          match conn_execute Commit w2 with
          | (Ret _, w3) => (Ret a, set_txn_start None w3)
          | (Raise e, w3) => (Raise e, set_txn_start None (set_db snapshot w3))
          end
      | (Raise e, w2) =>
          (Raise e,
           set_txn_start None
             (set_db snapshot (set_trace (EvSql Rollback true :: trace w2) w2)))
      end
  end.

(** The exit of [async with pool.acquire()], entered with the outcome [r]
    of the block (a [return] inside the block comes here too): the pool
    takes the connection back and resets it, one more round trip.  When
    that fails the exit raises, whatever the block returned or raised. *)
Definition release {A} (r : outcome A) : M A := λ w,
  let '(failed, w1) := pop_fault w in
  if (failed : bool)
  then (Raise PostgresError, set_trace (EvRelease false :: trace w1) w1)
  else (r, set_trace (EvRelease true :: trace w1) w1).

Definition releasing {A} (body : M A) : M A := λ w,
  let '(r, w') := body w in release r w'.

(** [async with pool.acquire() as conn: body] *)
Definition with_connection {A} (p : option nat) (body : M A) : M A :=
  match p with
  | None => raise AttributeError
  | Some _ =>
      failed ← next_fault;
      if (failed : bool) then emit (EvAcquire false);; raise PostgresError
      else
        emit (EvAcquire true);; releasing body
  end.

(** ** The module's functions *)

(** [os.environ.get("DATABASE_URL", "").strip()] *)
Definition _get_database_url (os_environ : gmap string string) : string :=
  strip (default EmptyString (os_environ !! "DATABASE_URL")).

Definition is_database_enabled (os_environ : gmap string string) : bool :=
  negb (String.eqb (_get_database_url os_environ) EmptyString).

#[global] Arguments _get_database_url : simpl never.
#[global] Arguments String.eqb : simpl never.
#[global] Arguments is_database_enabled : simpl never.

Definition _init_tables (pool : option nat) : M unit :=
  with_connection pool
    (conn_execute CreateKvStore;;
     conn_execute CreateAccounts;;
     conn_execute CreateIdxAccountsDisabled;;
     conn_execute CreateIdxAccountsExpiresAt;;
     log_info "[STORAGE] Database tables initialized").

(** [import asyncpg] *)
Definition import_asyncpg : M unit :=
  w ← get_world;
  if driver_installed w then emit (EvImportDriver true)
  else emit (EvImportDriver false);; raise ImportError.

(** [await asyncpg.create_pool(db_url, min_size=1, max_size=10,
    command_timeout=30)]: the handle of a new pool. *)
Definition create_pool (db_url : string) : M nat :=
  failed ← next_fault;
  if (failed : bool) then emit (EvCreatePool false);; raise ConnectError
  else
    w ← get_world;
    modify (set_pools_created (S (pools_created w)));;
    emit (EvCreatePool true);;
    mret (pools_created w).

(** The [try] statement of [_get_pool]: the pool is stored in the global
    as soon as [create_pool] returns, and the tables are created next. *)
Definition _get_pool_create (db_url : string) : M unit :=
  try_except
    (import_asyncpg;;
     p ← create_pool db_url;
     modify (set_db_pool (Some p));;
     w ← get_world;
     _init_tables (_db_pool w);;
     log_info "[STORAGE] PostgreSQL pool initialized")
    (λ e,
       match e with
       | ImportError =>
           log_error "[STORAGE] asyncpg is required for database storage";;
           raise e
       | _ =>
           log_error "[STORAGE] Database connection failed";;
           raise e
       end).

#[global] Arguments _get_pool_create : simpl never.

(** [_get_pool], run from start to end with no other coroutine in between
    (the lock is then free whenever it is asked for). *)
Definition _get_pool : M (option nat) :=
  w ← get_world;
  match _db_pool w with
  | Some p => mret (Some p)
  | None =>
      (if _db_pool_lock w then mret tt else modify (set_db_pool_lock true));;
      w ← get_world;
      match _db_pool w with
      | Some p => mret (Some p)
      | None =>
          let db_url := _get_database_url (environ w) in
          if String.eqb db_url EmptyString then raise ValueError
          else
            _get_pool_create db_url;;
            w ← get_world;
            mret (_db_pool w)
      end
  end.

(** *** Key-value store *)

(** The value of a JSONB column as the driver hands it back. *)
Inductive fetched : Type :=
  | FText (s : string)
  | FDoc (j : Json.json).

(** [SELECT value FROM kv_store WHERE key = $1] *)
Definition select_kv_value (codec : bool) (key : string) (d : database) : option fetched :=
  match default ∅ (kv_store d) !! key with
  | None => None
  | Some row =>
      Some (if codec then FDoc (kv_value row) else FText (Json.dumps (kv_value row)))
  end.

(** [db_get]; Python's [None] is [JNull]. *)
Definition db_get (key : string) : M Json.json :=
  pool ← _get_pool;
  with_connection pool
    (w ← get_world;
     row ← conn_run (SelectKvValue key) (select_kv_value (jsonb_codec w) key);
     match row with
     | None => mret Json.JNull
     | Some value =>
         match value with
         | FText s | FDoc (Json.JStr s) =>
             match Json.loads s with
             | Some v => mret v
             | None => raise JSONDecodeError
             end
         | FDoc v => mret v
         end
     end).

Definition db_set (key : string) (value : Json.json) : M unit :=
  pool ← _get_pool;
  with_connection pool (conn_execute (UpsertKv key (Json.dumps value))).

(** *** Accounts *)

(** The dictionary comprehension over [ACCOUNT_FIELDS]. *)
Definition _account_row_to_dict (row : pydict) : pydict :=
  foldl (λ d field, match row !! field with
                    | Some v => <[field := v]> d
                    | None => d
                    end) ∅ ACCOUNT_FIELDS.

Definition _account_dict_to_values (account : pydict) : list pyval :=
  map (dict_get account) ACCOUNT_FIELDS.

(** [SELECT id FROM accounts] *)
Definition select_account_ids (d : database) : list pydict :=
  map (λ id, {[ "id" := PStr id ]}) (elements (dom (account_rows d))).

Definition created_le (a b : string * account_row) : Prop :=
  (created_at a.2 ≤ created_at b.2)%nat.

#[global] Instance created_le_dec a b : Decision (created_le a b).
Proof. unfold created_le. apply _. Defined.

(** [SELECT <ACCOUNT_FIELDS> FROM accounts ORDER BY created_at] *)
Definition select_accounts (d : database) : list pydict :=
  map (λ kv, list_to_map (zip ACCOUNT_FIELDS (row_values kv.2)))
      (merge_sort created_le (map_to_list (account_rows d))).

Definition load_accounts : M (option (list pydict)) :=
  w ← get_world;
  if negb (is_database_enabled (environ w)) then mret None
  else
    try_except
      (pool ← _get_pool;
       with_connection pool
         (rows ← conn_run SelectAccounts select_accounts;
          let accounts := map _account_row_to_dict rows in
          log_info "[STORAGE] Loaded accounts from database";;
          mret (Some accounts)))
      (λ e, log_error "[STORAGE] Database read failed";; mret None).

(** [for x in l: body x] *)
Fixpoint for_each {A} (l : list A) (body : A → M unit) : M unit :=
  match l with
  | [] => mret tt
  | x :: l' => body x;; for_each l' body
  end.

(** [{acc.get("id") for acc in accounts if acc.get("id")}] *)
Definition new_ids (accounts : list pydict) : gset pyval :=
  list_to_set (filter (λ v, truthy v) (map (λ acc, dict_get acc "id") accounts)).

(** The body of the transaction in [save_accounts]. *)
Definition reconcile (accounts : list pydict) : M unit :=
  existing_rows ← conn_run SelectAccountIds select_account_ids;
  let existing_ids : gset pyval :=
    list_to_set (map (λ row, dict_get row "id") existing_rows) in
  let ids_to_delete := existing_ids ∖ new_ids accounts in
  (if bool_decide (ids_to_delete ≠ ∅)
   then conn_execute (DeleteAccountsAny (elements ids_to_delete))
   else mret tt);;
  for_each accounts
    (λ account,
       if negb (truthy (dict_get account "id")) then mret tt
       else conn_execute (UpsertAccount (_account_dict_to_values account))).

Definition save_accounts (accounts : list pydict) : M bool :=
  w ← get_world;
  if negb (is_database_enabled (environ w)) then mret false
  else
    try_except
      (pool ← _get_pool;
       with_connection pool
         (conn_transaction (reconcile accounts);;
          log_info "[STORAGE] Saved accounts to database";;
          mret true))
      (λ e, log_error "[STORAGE] Database write failed";; mret false).

Definition save_account (account : pydict) : M bool :=
  w ← get_world;
  if negb (is_database_enabled (environ w)) then mret false
  else if negb (truthy (dict_get account "id")) then mret false
  else
    try_except
      (pool ← _get_pool;
       with_connection pool
         (conn_execute (UpsertAccount (_account_dict_to_values account));;
          log_info "[STORAGE] Saved account to database";;
          mret true))
      (λ e, log_error "[STORAGE] Database write failed";; mret false).

Definition delete_account (account_id : pyval) : M bool :=
  w ← get_world;
  if negb (is_database_enabled (environ w)) then mret false
  else
    try_except
      (pool ← _get_pool;
       with_connection pool
         (conn_execute (DeleteAccount account_id);;
          log_info "[STORAGE] Deleted account from database";;
          mret true))
      (λ e, log_error "[STORAGE] Database delete failed";; mret false).

Definition delete_accounts (account_ids : list pyval) : M bool :=
  w ← get_world;
  if negb (is_database_enabled (environ w)) then mret false
  else
    match account_ids with
    | [] => mret true
    | _ :: _ =>
        try_except
          (pool ← _get_pool;
           with_connection pool
             (conn_execute (DeleteAccountsAny account_ids);;
              log_info "[STORAGE] Deleted accounts from database";;
              mret true))
          (λ e, log_error "[STORAGE] Database delete failed";; mret false)
    end.

(** * Reasoning about runs *)

Lemma bind_inv {A B} (m : M A) (k : A → M B) w r w' :
  (m ≫= k) w = (r, w') →
  (∃ a w1, m w = (Ret a, w1) ∧ k a w1 = (r, w')) ∨
  (∃ e, m w = (Raise e, w') ∧ r = Raise e).
Proof.
  unfold mbind, M_bind. destruct (m w) as [[a|e] w1]; intros H.
  - left. eauto.
  - right. injection H as <- <-. eauto.
Qed.

Lemma bind_ret_inv {A B} (m : M A) (k : A → M B) w b w' :
  (m ≫= k) w = (Ret b, w') →
  ∃ a w1, m w = (Ret a, w1) ∧ k a w1 = (Ret b, w').
Proof.
  intros H. apply bind_inv in H as [H|(e & _ & H)]; [done|discriminate].
Qed.

Lemma bind_run {A B} (m : M A) (k : A → M B) w a w1 :
  m w = (Ret a, w1) → (m ≫= k) w = k a w1.
Proof. unfold mbind, M_bind. by intros ->. Qed.

Lemma bind_run_raise {A B} (m : M A) (k : A → M B) w e w1 :
  m w = (Raise e, w1) → (m ≫= k) w = (Raise e, w1).
Proof. unfold mbind, M_bind. by intros ->. Qed.

(** The steps of [conn_run] and [with_connection], written out. *)
Lemma conn_run_eq {A} s (result : database → A) w :
  conn_run s result w =
  let '(failed, w1) := pop_fault w in
  if (failed : bool) then (Raise PostgresError, set_trace (EvSql s false :: trace w1) w1)
  else
    match sql_exec (current_timestamp w1) s (db w1) with
    | Raise e => (Raise e, set_trace (EvSql s false :: trace w1) w1)
    | Ret d' =>
        (Ret (result (db w1)), set_trace (EvSql s true :: trace w1) (set_db d' w1))
    end.
Proof.
  unfold conn_run, next_fault, mbind, M_bind.
  destruct (pop_fault w) as [[|] w1]; [done|]. simpl.
  by destruct (sql_exec _ s (db w1)).
Qed.

Lemma with_connection_eq {A} p (body : M A) w :
  with_connection (Some p) body w =
  let '(failed, w1) := pop_fault w in
  if (failed : bool) then (Raise PostgresError, set_trace (EvAcquire false :: trace w1) w1)
  else
    let '(r, w2) := body (set_trace (EvAcquire true :: trace w1) w1) in
    release r w2.
Proof.
  unfold with_connection, next_fault, releasing, mbind, M_bind.
  by destruct (pop_fault w) as [[|] w1].
Qed.

Lemma release_eq {A} (r : outcome A) w :
  release r w =
  let '(failed, w1) := pop_fault w in
  if (failed : bool)
  then (Raise PostgresError, set_trace (EvRelease false :: trace w1) w1)
  else (r, set_trace (EvRelease true :: trace w1) w1).
Proof. reflexivity. Qed.

(** The exit either fails, or hands on the outcome of the block. *)
Lemma release_inv {A} (r r' : outcome A) w w' :
  release r w = (r', w') →
  ∃ failed w1, pop_fault w = (failed, w1) ∧
    w' = set_trace (EvRelease (negb failed) :: trace w1) w1 ∧
    r' = (if failed then Raise PostgresError else r).
Proof.
  unfold release. destruct (pop_fault w) as [[|] w1]; intros [= <- <-];
    by eexists _, _.
Qed.

#[global] Arguments release : simpl never.

Lemma pop_fault_db w b w1 : pop_fault w = (b, w1) → db w1 = db w.
Proof. unfold pop_fault. by destruct (faults w); intros [= <- <-]. Qed.

Lemma pop_fault_txn_start w b w1 : pop_fault w = (b, w1) → txn_start w1 = txn_start w.
Proof. unfold pop_fault. by destruct (faults w); intros [= <- <-]. Qed.

Lemma pop_fault_trace w b w1 : pop_fault w = (b, w1) → trace w1 = trace w.
Proof. unfold pop_fault. by destruct (faults w); intros [= <- <-]. Qed.

Lemma release_db {A} (r r' : outcome A) w w' : release r w = (r', w') → db w' = db w.
Proof.
  intros H. apply release_inv in H as (failed & w1 & Ef & -> & _).
  exact (pop_fault_db _ _ _ Ef).
Qed.

(** A connection scope that returned: the connection was had, the block
    returned and the exit did not fail. *)
Lemma with_connection_ret {A} p (body : M A) w a w' :
  with_connection p body w = (Ret a, w') →
  ∃ w1 w2, db w1 = db w ∧ txn_start w1 = txn_start w ∧
           body w1 = (Ret a, w2) ∧ db w' = db w2.
Proof.
  destruct p as [p|]; [|done]. rewrite with_connection_eq.
  destruct (pop_fault w) as [[|] w1] eqn:Ef; [done|].
  destruct (body _) as [r w2] eqn:E. intros H.
  pose proof (release_db _ _ _ _ H) as Hdb.
  apply release_inv in H as ([|] & w3 & _ & _ & Hr); [done|]. subst r.
  eexists _, w2. split_and!; [| |exact E|exact Hdb].
  - exact (pop_fault_db _ _ _ Ef).
  - exact (pop_fault_txn_start _ _ _ Ef).
Qed.

(** A connection scope that raised: the connection could not be had, or
    the block raised, or the block came to its end (with a value or an
    exception) and the exit failed. *)
Lemma with_connection_raise {A} p (body : M A) w e w' :
  with_connection p body w = (Raise e, w') →
  db w' = db w ∨
  ∃ w1 r w2, db w1 = db w ∧ body w1 = (r, w2) ∧ db w' = db w2 ∧
    (r = Raise e ∨ (e = PostgresError ∧ trace w' = EvRelease false :: trace w2)).
Proof.
  destruct p as [p|]; [|intros [= _ <-]; by left]. rewrite with_connection_eq.
  destruct (pop_fault w) as [[|] w1] eqn:Ef; apply pop_fault_db in Ef.
  { intros [= _ <-]. by left. }
  destruct (body _) as [r w2] eqn:E. intros H.
  pose proof (release_db _ _ _ _ H) as Hdb.
  apply release_inv in H as (failed & w3 & Ef3 & -> & Hr).
  right. exists (set_trace (EvAcquire true :: trace w1) w1), r, w2.
  split_and!; [exact Ef|exact E|exact Hdb|].
  destruct failed; [right|left; done].
  injection Hr as ->. split; [done|]. simpl. by rewrite (pop_fault_trace _ _ _ Ef3).
Qed.

(** Events that report a failure. *)
Definition ev_ok (e : event) : bool :=
  match e with
  | EvImportDriver ok | EvCreatePool ok | EvAcquire ok | EvSql _ ok => ok
  | EvRelease ok => ok
  | EvLog _ _ => true
  end.

Definition returned {A} (r : outcome A) : bool :=
  match r with
  | Ret _ => true
  | Raise _ => false
  end.

(** The [CREATE ... IF NOT EXISTS] statements leave the rows alone. *)
Definition is_ddl (s : stmt) : bool :=
  match s with
  | CreateKvStore | CreateAccounts
  | CreateIdxAccountsDisabled | CreateIdxAccountsExpiresAt => true
  | _ => false
  end.

(** The documents of [kv_store]; a table that does not exist has none. *)
Definition kv_rows (d : database) : gmap string kv_row :=
  default ∅ (kv_store d).

Definition same_rows (d d' : database) : Prop :=
  account_rows d' = account_rows d ∧ kv_rows d' = kv_rows d.

Lemma sql_exec_ddl_rows now s d d' :
  is_ddl s = true → sql_exec now s d = Ret d' → same_rows d d'.
Proof.
  unfold same_rows, account_rows, kv_rows.
  destruct s; try done; simpl; intros _.
  - intros [= <-]. simpl. by destruct (kv_store d).
  - intros [= <-]. simpl. by destruct (accounts d).
  - destruct (accounts d); [|done]. by intros [= <-].
  - destruct (accounts d); [|done]. by intros [= <-].
Qed.

(** Statements that write nothing. *)
Definition is_read (s : stmt) : bool :=
  match s with
  | SelectKvValue _ | SelectAccounts | SelectAccountIds | Begin | Commit | Rollback => true
  | _ => false
  end.

Lemma sql_exec_read now s d d' :
  is_read s = true → sql_exec now s d = Ret d' → d' = d.
Proof.
  destruct s; try done; simpl; intros _;
    try (destruct (kv_store d); [|done]);
    try (destruct (accounts d); [|done]); by intros [= <-].
Qed.

Lemma try_except_inv {A} (m : M A) h w r w' :
  try_except m h w = (r, w') →
  (∃ a, m w = (Ret a, w') ∧ r = Ret a) ∨
  (∃ e w1, m w = (Raise e, w1) ∧ h e w1 = (r, w')).
Proof.
  unfold try_except. destruct (m w) as [[a|e] w1]; intros H.
  - injection H as <- <-. left. eauto.
  - right. eauto.
Qed.

(** ** Relations kept by every step

    [R true] relates the world before a run that returns to the world
    after it, [R false] does so for a run that raises.  [Rdb] says which
    table changes [R] tolerates. *)
Class Frame (R : bool → world → world → Prop)
    (Rdb : database → database → Prop) : Prop := {
  R_refl : ∀ w, R true w w;
  R_weaken : ∀ w w', R true w w' → R false w w';
  R_trans : ∀ b w1 w2 w3, R true w1 w2 → R b w2 w3 → R b w1 w3;
  R_trans_raise : ∀ w1 w2 w3, R false w1 w2 → R false w2 w3 → R false w1 w3;
  R_faults : ∀ w x, R true w (set_faults x w);
  R_clock : ∀ w x, R true w (set_clock x w);
  R_db_pool : ∀ w x, R true w (set_db_pool x w);
  R_db_pool_lock : ∀ w x, R true w (set_db_pool_lock x w);
  R_pools_created : ∀ w x, R true w (set_pools_created x w);
  R_trace : ∀ w e, ev_ok e = true → R true w (set_trace (e :: trace w) w);
  R_trace_raise : ∀ w e, R false w (set_trace (e :: trace w) w);
  R_db : ∀ w d, Rdb (db w) d → R true w (set_db d w);
  Rdb_refl : ∀ d, Rdb d d;
  Rdb_ddl : ∀ now s d d',
    is_ddl s = true → sql_exec now s d = Ret d' → Rdb d d' }.

Section Relational.
Context (R : bool → world → world → Prop) (Rdb : database → database → Prop).
Context {frame : Frame R Rdb}.

Definition keeps {A} (m : M A) : Prop :=
  ∀ w r w', m w = (r, w') → R (returned r) w w'.

Lemma keeps_ret {A} (a : A) : keeps (mret a).
Proof. intros w r w' [= <- <-]. apply R_refl. Qed.

Lemma keeps_raise {A} e : keeps (raise e : M A).
Proof. intros w r w' [= <- <-]. apply R_weaken, R_refl. Qed.

Lemma keeps_get_world : keeps get_world.
Proof. intros w r w' [= <- <-]. apply R_refl. Qed.

Lemma keeps_modify f : (∀ w, R true w (f w)) → keeps (modify f).
Proof. intros Hf w r w' [= <- <-]. apply Hf. Qed.

Lemma keeps_bind {A B} (m : M A) (k : A → M B) :
  keeps m → (∀ a, keeps (k a)) → keeps (m ≫= k).
Proof.
  intros Hm Hk w r w' H.
  apply bind_inv in H as [(a & w1 & H1 & H2)|(e & H1 & ->)].
  - eapply R_trans; [apply (Hm _ _ _ H1)|apply (Hk _ _ _ _ H2)].
  - apply (Hm _ _ _ H1).
Qed.

(** A [try] whose handler raises again. *)
Lemma keeps_try_except {A} (m : M A) h :
  keeps m → (∀ e, keeps (h e)) →
  (∀ e w r w', h e w = (r, w') → returned r = false) →
  keeps (try_except m h).
Proof.
  intros Hm Hh Hre w r w'. unfold try_except.
  destruct (m w) as [[a|e] w1] eqn:E; intros H.
  - injection H as <- <-. apply (Hm _ _ _ E).
  - pose proof (Hre _ _ _ _ H) as Hr. pose proof (Hh _ _ _ _ H) as H2.
    rewrite Hr in *. eapply R_trans_raise; [apply (Hm _ _ _ E)|done].
Qed.

Lemma keeps_emit e : ev_ok e = true → keeps (emit e).
Proof. intros He. apply keeps_modify. intros w. by apply R_trace. Qed.

Lemma keeps_emit_raise {A} ev e : keeps (emit ev;; raise e : M A).
Proof. intros w r w' [= <- <-]. apply R_trace_raise. Qed.

Lemma R_pop_fault w b w1 : pop_fault w = (b, w1) → R true w w1.
Proof.
  unfold pop_fault. destruct (faults w); intros [= <- <-]; [apply R_clock|].
  eapply R_trans; [apply R_clock|apply R_faults].
Qed.

Lemma keeps_next_fault : keeps next_fault.
Proof.
  intros w r w'. unfold next_fault.
  destruct (pop_fault w) as [b w1] eqn:E. intros [= <- <-].
  eapply R_pop_fault; eauto.
Qed.

Lemma keeps_conn_run {A} s (result : database → A) :
  (∀ now d d', sql_exec now s d = Ret d' → Rdb d d') →
  keeps (conn_run s result).
Proof.
  intros Hs w r w'. rewrite conn_run_eq.
  destruct (pop_fault w) as [[|] w1] eqn:E.
  { intros [= <- <-]. eapply R_trans; [by eapply R_pop_fault|apply R_trace_raise]. }
  destruct (sql_exec _ s (db w1)) as [d'|e] eqn:E'; intros [= <- <-].
  - eapply R_trans; [eapply R_pop_fault; eauto|].
    eapply R_trans; [apply (R_db w1 d'), (Hs _ _ _ E')|].
    by apply (R_trace (set_db d' w1)).
  - eapply R_trans; [by eapply R_pop_fault|apply R_trace_raise].
Qed.

Lemma keeps_with_connection {A} p (body : M A) :
  keeps body → keeps (with_connection p body).
Proof.
  intros Hb w r w'. destruct p as [p|]; [|apply keeps_raise].
  rewrite with_connection_eq.
  destruct (pop_fault w) as [[|] w1] eqn:E.
  { intros [= <- <-]. eapply R_trans; [by eapply R_pop_fault|apply R_trace_raise]. }
  destruct (body _) as [r2 w2] eqn:E'. intros Hrel.
  eapply R_trans; [eapply R_pop_fault; eauto|].
  eapply R_trans; [by apply (R_trace _ (EvAcquire true))|].
  apply Hb in E'.
  apply release_inv in Hrel as (failed & w3 & Ef & -> & ->).
  apply R_pop_fault in Ef.
  destruct failed; simpl.
  - assert (R false w3 (set_trace (EvRelease false :: trace w3) w3)) as Hexit
      by apply R_trace_raise.
    destruct (returned r2).
    + eapply R_trans; [done|]. eapply R_trans; [exact Ef|exact Hexit].
    + eapply R_trans_raise; [done|]. eapply R_trans; [exact Ef|exact Hexit].
  - assert (R true w3 (set_trace (EvRelease true :: trace w3) w3)) as Hexit
      by (by apply R_trace).
    destruct (returned r2).
    + eapply R_trans; [done|]. eapply R_trans; [exact Ef|exact Hexit].
    + eapply R_trans_raise; [done|]. apply R_weaken.
      eapply R_trans; [exact Ef|exact Hexit].
Qed.

Lemma keeps_for_each {A} (l : list A) body :
  (∀ x, keeps (body x)) → keeps (for_each l body).
Proof.
  intros Hb. induction l as [|x l IH]; simpl.
  - apply keeps_ret.
  - apply keeps_bind; auto.
Qed.

Lemma keeps_ddl s : is_ddl s = true → keeps (conn_execute s).
Proof.
  intros Hs. apply keeps_conn_run. intros now d d' H.
  eapply Rdb_ddl; eauto.
Qed.

Lemma keeps_read {A} s (result : database → A) :
  is_read s = true → keeps (conn_run s result).
Proof.
  intros Hs. apply keeps_conn_run. intros now d d' H.
  apply (sql_exec_read _ _ _ _ Hs) in H as ->. apply Rdb_refl.
Qed.

Lemma keeps_init_tables p : keeps (_init_tables p).
Proof.
  apply keeps_with_connection.
  repeat (apply keeps_bind; [by apply keeps_ddl|intros _]).
  by apply keeps_emit.
Qed.

Lemma keeps_import_asyncpg : keeps import_asyncpg.
Proof.
  apply keeps_bind; [apply keeps_get_world|]. intros w.
  destruct (driver_installed w); [by apply keeps_emit|apply keeps_emit_raise].
Qed.

Lemma keeps_create_pool url : keeps (create_pool url).
Proof.
  apply keeps_bind; [apply keeps_next_fault|]. intros [|].
  { apply keeps_emit_raise. }
  apply keeps_bind; [apply keeps_get_world|]. intros w.
  apply keeps_bind; [apply keeps_modify; intros; apply R_pools_created|]. intros _.
  apply keeps_bind; [by apply keeps_emit|]. intros _. apply keeps_ret.
Qed.

Lemma keeps_get_pool_create url : keeps (_get_pool_create url).
Proof.
  apply keeps_try_except.
  - apply keeps_bind; [apply keeps_import_asyncpg|]. intros _.
    apply keeps_bind; [apply keeps_create_pool|]. intros p.
    apply keeps_bind; [apply keeps_modify; intros; apply R_db_pool|]. intros _.
    apply keeps_bind; [apply keeps_get_world|]. intros w2.
    apply keeps_bind; [apply keeps_init_tables|]. intros _.
    by apply keeps_emit.
  - intros []; apply keeps_emit_raise.
  - by intros [] ??? [= <- _].
Qed.

Lemma keeps_get_pool : keeps _get_pool.
Proof.
  apply keeps_bind; [apply keeps_get_world|]. intros w.
  destruct (_db_pool w); [apply keeps_ret|].
  apply keeps_bind.
  { destruct (_db_pool_lock w); [apply keeps_ret|].
    apply keeps_modify; intros; apply R_db_pool_lock. }
  intros _. apply keeps_bind; [apply keeps_get_world|]. intros w1.
  destruct (_db_pool w1); [apply keeps_ret|].
  cbv zeta. destruct (String.eqb (_get_database_url (environ w1)) EmptyString);
    [apply keeps_raise|].
  apply keeps_bind; [apply keeps_get_pool_create|].
  intros _. apply keeps_bind; [apply keeps_get_world|]. intros w2.
  apply keeps_ret.
Qed.

End Relational.

(** ** What no run of [_get_pool] changes *)

(** The rows of both tables, the configuration and the transaction state. *)
Definition stable (w w' : world) : Prop :=
  same_rows (db w) (db w') ∧
  environ w' = environ w ∧
  driver_installed w' = driver_installed w ∧
  jsonb_codec w' = jsonb_codec w ∧
  txn_start w' = txn_start w.

Lemma stable_refl w : stable w w.
Proof. by repeat split. Qed.

Lemma stable_trans w1 w2 w3 : stable w1 w2 → stable w2 w3 → stable w1 w3.
Proof.
  unfold stable, same_rows.
  intros ([??] & ? & ? & ? & ?) ([??] & ? & ? & ? & ?).
  repeat split; congruence.
Qed.

#[global] Instance stable_frame : Frame (λ _, stable) same_rows.
Proof.
  split; try done.
  - intros _. apply stable_trans.
  - apply stable_trans.
  - apply sql_exec_ddl_rows.
Qed.

Lemma get_pool_stable w r w' : _get_pool w = (r, w') → stable w w'.
Proof. apply (keeps_get_pool (λ _, stable) same_rows). Qed.

(** ** Runs that report no failure *)

(** The events of a run that returned are all successes; a run that
    raised only added events. *)
Definition clean (ok : bool) (w w' : world) : Prop :=
  ∃ evs, trace w' = (evs ++ trace w)%list ∧ (ok = true → forallb ev_ok evs = true).

Lemma clean_refl w : clean true w w.
Proof. by exists []. Qed.

Lemma clean_trans b w1 w2 w3 : clean true w1 w2 → clean b w2 w3 → clean b w1 w3.
Proof.
  intros (e1 & E1 & H1) (e2 & E2 & H2). exists (e2 ++ e1)%list.
  split; [by rewrite E2, E1, app_assoc|]. intros Hb.
  rewrite forallb_app, H1, H2; done.
Qed.

Lemma clean_trans_raise w1 w2 w3 : clean false w1 w2 → clean false w2 w3 → clean false w1 w3.
Proof.
  intros (e1 & E1 & H1) (e2 & E2 & H2). exists (e2 ++ e1)%list.
  split; [by rewrite E2, E1, app_assoc|done].
Qed.

Lemma clean_same_trace b w w' : trace w' = trace w → clean b w w'.
Proof. intros H. by exists []. Qed.

Lemma clean_emit b w e :
  (b = true → ev_ok e = true) → clean b w (set_trace (e :: trace w) w).
Proof. intros H. exists [e]. split; [done|]. intros Hb. simpl. by rewrite H. Qed.

#[global] Instance clean_frame : Frame clean (λ _ _, True).
Proof.
  split; try done.
  - apply clean_refl.
  - intros w1 w2 (evs & ? & _). by exists evs.
  - apply clean_trans.
  - apply clean_trans_raise.
  - intros; by apply clean_same_trace.
  - intros; by apply clean_same_trace.
  - intros; by apply clean_same_trace.
  - intros; by apply clean_same_trace.
  - intros; by apply clean_same_trace.
  - intros; by apply clean_emit.
  - intros; by apply clean_emit.
  - intros; by apply clean_same_trace.
Qed.

Abbreviation in_clean lem := (lem clean (λ _ _ : database, True)) (only parsing).

Lemma get_pool_clean w r w' : _get_pool w = (r, w') → clean (returned r) w w'.
Proof. apply (keeps_get_pool clean (λ _ _, True)). Qed.

(** The ways a connection scope raises: the connection could not be had;
    the block raised; or the block returned, after steps that all
    succeeded, and the exit failed. *)
Lemma with_connection_raise_cases {A} p (body : M A) w e w' :
  keeps clean body →
  with_connection p body w = (Raise e, w') →
  db w' = db w ∨
  (∃ w1 e' w2, db w1 = db w ∧ body w1 = (Raise e', w2) ∧ db w' = db w2) ∨
  (∃ w1 a w2 evs,
     db w1 = db w ∧ body w1 = (Ret a, w2) ∧ db w' = db w2 ∧
     trace w' = (EvRelease false :: evs ++ trace w)%list ∧ forallb ev_ok evs = true).
Proof.
  intros Hb. destruct p as [p|]; [|intros [= _ <-]; by left].
  rewrite with_connection_eq.
  destruct (pop_fault w) as [[|] w1] eqn:Ef.
  { intros [= _ <-]. left. exact (pop_fault_db _ _ _ Ef). }
  destruct (body _) as [r w2] eqn:E. intros H.
  pose proof (release_db _ _ _ _ H) as Hdb.
  apply release_inv in H as (failed & w3 & Ef3 & -> & Hr).
  right. destruct r as [a|e'].
  - right. destruct failed; [|done].
    destruct (Hb _ _ _ E) as (evs & Hevs & Hok).
    exists (set_trace (EvAcquire true :: trace w1) w1), a, w2, (evs ++ [EvAcquire true])%list.
    split_and!; [exact (pop_fault_db _ _ _ Ef)|exact E|exact Hdb| |].
    + cbn [trace set_trace negb]. rewrite (pop_fault_trace _ _ _ Ef3), Hevs.
      cbn [trace set_trace]. rewrite (pop_fault_trace _ _ _ Ef).
      by rewrite <- app_assoc.
    + rewrite forallb_app, Hok; done.
  - left. exists (set_trace (EvAcquire true :: trace w1) w1), e', w2.
    split_and!; [exact (pop_fault_db _ _ _ Ef)|exact E|exact Hdb].
Qed.

(** Of the steps a run attempted, the exit of an
    [async with pool.acquire()] failed and nothing else did. *)
Definition is_release (e : event) : bool :=
  match e with
  | EvRelease _ => true
  | _ => false
  end.

Definition only_release_failed (evs : list event) : bool :=
  negb (forallb ev_ok evs) && forallb (λ e, ev_ok e || is_release e) evs.

Lemma forallb_ok_or_release evs :
  forallb ev_ok evs = true → forallb (λ e, ev_ok e || is_release e) evs = true.
Proof.
  induction evs as [|e evs IH]; [done|]. simpl.
  intros [-> H]%andb_true_iff. by rewrite IH.
Qed.

Lemma only_release_failed_intro pre evs :
  forallb ev_ok pre = true → forallb ev_ok evs = true →
  only_release_failed (pre ++ EvRelease false :: evs) = true.
Proof.
  intros Hpre Hevs. unfold only_release_failed.
  rewrite !forallb_app. cbn [forallb ev_ok is_release].
  rewrite !(forallb_ok_or_release _ Hpre), !(forallb_ok_or_release _ Hevs), Hpre.
  done.
Qed.

(** ** Worlds in which nothing fails *)

Definition schema_ready (d : database) : Prop :=
  is_Some (kv_store d) ∧ is_Some (accounts d).

(** The store is configured, the driver is installed, the oracle injects
    no failure, no transaction is open, and a pool that was published came
    with its tables. *)
Definition healthy (w : world) : Prop :=
  faults w = [] ∧ driver_installed w = true ∧
  is_database_enabled (environ w) = true ∧ txn_start w = None ∧
  (is_Some (_db_pool w) → schema_ready (db w)).

(** A creation in which nothing fails: the pool is published and both
    tables exist afterwards. *)
Lemma get_pool_create_quiet url env codec clk d lock n tr :
  ∃ w',
    _get_pool_create url (World env true codec [] clk d None None lock n tr) = (Ret tt, w') ∧
    w' = World env true codec [] (7 + clk)%nat
           (Database (Some (kv_rows d)) (Some (account_rows d)) true true)
           None (Some n) lock (S n) (trace w').
Proof.
  eexists. split; [vm_compute; reflexivity|]. vm_compute. reflexivity.
Qed.

(** [_get_pool] when a pool is already published, and when none is. *)
Lemma get_pool_published w p : _db_pool w = Some p → _get_pool w = (Ret (Some p), w).
Proof. intros H. unfold _get_pool, mbind, M_bind, get_world. by rewrite H. Qed.

Lemma get_pool_unpublished w :
  _db_pool w = None →
  _get_pool w =
  let w1 := if _db_pool_lock w then w else set_db_pool_lock true w in
  let db_url := _get_database_url (environ w) in
  if String.eqb db_url EmptyString then (Raise ValueError, w1)
  else
    match _get_pool_create db_url w1 with
    | (Ret _, w2) => (Ret (_db_pool w2), w2)
    | (Raise e, w2) => (Raise e, w2)
    end.
Proof.
  intros H. unfold _get_pool, mbind, M_bind, get_world. rewrite H.
  destruct (_db_pool_lock w); cbn [modify mret M_ret]; cbv zeta.
  - rewrite H. destruct (String.eqb _ _); [done|].
    by destruct (_get_pool_create _ w) as [[[]|] ?].
  - change (_db_pool (set_db_pool_lock true w)) with (_db_pool w).
    change (environ (set_db_pool_lock true w)) with (environ w).
    rewrite H. destruct (String.eqb _ _); [done|].
    by destruct (_get_pool_create _ _) as [[[]|] ?].
Qed.

Lemma get_pool_healthy w :
  healthy w →
  ∃ p w', _get_pool w = (Ret (Some p), w') ∧ healthy w' ∧
          _db_pool w' = Some p ∧ schema_ready (db w') ∧ stable w w'.
Proof.
  intros (Hf & Hd & He & Ht & Hs).
  destruct (_get_pool w) as [r w'] eqn:E.
  pose proof (get_pool_stable _ _ _ E) as Hst.
  revert E.
  destruct (_db_pool w) as [p|] eqn:Ep.
  { rewrite (get_pool_published _ _ Ep). intros [= <- <-].
    exists p, w. repeat split; eauto; apply Hs; eauto. }
  rewrite (get_pool_unpublished _ Ep). cbv zeta.
  assert (He' := He).
  unfold is_database_enabled in He'. apply negb_true_iff in He'. rewrite He'.
  destruct w as [env drv codec fl clk d txn pool lock n tr]. simpl in *. subst.
  destruct (get_pool_create_quiet (_get_database_url env) env codec clk d true n tr)
    as (w1 & E1 & Hw1).
  destruct (get_pool_create_quiet (_get_database_url env) env codec clk d false n tr)
    as (w2 & E2 & Hw2).
  destruct lock.
  - rewrite E1, Hw1. intros [= <- <-]. eexists _, _; split; [reflexivity|].
    unfold healthy, schema_ready; simpl; repeat split; try exact He; by eexists.
  - change (set_db_pool_lock true _)
      with (World env true codec [] clk d None None true n tr).
    rewrite E1, Hw1. intros [= <- <-]. eexists _, _; split; [reflexivity|].
    unfold healthy, schema_ready; simpl; repeat split; try exact He; by eexists.
Qed.

(** ** Concrete worlds *)

Definition empty_database : database := Database None None false false.

(** A process that has not touched the store yet, with the given
    [DATABASE_URL] and failure oracle. *)
Definition fresh_world (url : option string) (oracle : list bool) : world :=
  World (match url with
         | Some u => {[ "DATABASE_URL" := u ]}
         | None => ∅
         end)
        true false oracle 0 empty_database None None false 0 [].

(** An account record with the four required fields. *)
Definition account_of (id secure_c_ses : string) : pydict :=
  list_to_map [("id", PStr id); ("secure_c_ses", PStr secure_c_ses);
               ("csesidx", PStr "1"); ("config_id", PStr "cfg")].

(** * The disabled store *)

Lemma absent_url_disabled (env : gmap string string) :
  env !! "DATABASE_URL" = None → is_database_enabled env = false.
Proof. unfold is_database_enabled, _get_database_url. by intros ->. Qed.

Lemma load_accounts_disabled w :
  is_database_enabled (environ w) = false → load_accounts w = (Ret None, w).
Proof. intros H. unfold load_accounts, mbind, M_bind, get_world. by rewrite H. Qed.

Lemma save_account_disabled account w :
  is_database_enabled (environ w) = false → save_account account w = (Ret false, w).
Proof. intros H. unfold save_account, mbind, M_bind, get_world. by rewrite H. Qed.

Lemma save_accounts_disabled accounts w :
  is_database_enabled (environ w) = false → save_accounts accounts w = (Ret false, w).
Proof. intros H. unfold save_accounts, mbind, M_bind, get_world. by rewrite H. Qed.

(** C7. With [DATABASE_URL] absent, [load_accounts] returns [None] and
    [save_account] returns [False], and neither touches the world: no pool
    is created, no connection is asked for, no event is emitted. *)
Theorem disabled_store_noop (w : world) (account : pydict) :
  environ w !! "DATABASE_URL" = None →
  load_accounts w = (Ret None, w) ∧ save_account account w = (Ret false, w).
Proof.
  intros H. apply absent_url_disabled in H.
  split; [by apply load_accounts_disabled|by apply save_account_disabled].
Qed.

Lemma disabled_store_noop_witness :
  load_accounts (fresh_world None [true]) = (Ret None, fresh_world None [true]) ∧
  save_account (account_of "a1" "s") (fresh_world None [true])
    = (Ret false, fresh_world None [true]).
Proof. apply (disabled_store_noop (fresh_world None [true])). reflexivity. Defined.

(** * Failures of [load_accounts] *)

(** The events a run added to the trace. *)
Definition events_between (w w' : world) (evs : list event) : Prop :=
  trace w' = (evs ++ trace w)%list.

Lemma clean_no_failure w w' evs :
  clean true w w' → events_between w w' evs → forallb ev_ok evs = true.
Proof.
  intros (evs' & E & H) E'. unfold events_between in E'. rewrite E in E'.
  apply app_inv_tail in E'. subst. by apply H.
Qed.

Lemma load_accounts_enabled w :
  is_database_enabled (environ w) = true →
  ∃ body handler,
    load_accounts w = try_except body handler w ∧
    keeps clean body ∧
    (∀ a w1 w2, body w1 = (Ret a, w2) → is_Some a) ∧
    (∀ e w1, ∃ w2, handler e w1 = (Ret None, w2)).
Proof.
  intros He. eexists _, _. split.
  { unfold load_accounts. rewrite (bind_run get_world _ w w w eq_refl), He.
    reflexivity. }
  split; [|split].
  - apply (in_clean keeps_bind); [apply (in_clean keeps_get_pool)|]. intros p.
    apply (in_clean keeps_with_connection).
    apply (in_clean keeps_bind); [by apply (in_clean keeps_read)|]. intros rows.
    apply (in_clean keeps_bind); [by apply (in_clean keeps_emit)|]. intros _.
    apply (in_clean keeps_ret).
  - intros a w1 w2 H.
    apply bind_ret_inv in H as (p & w3 & _ & H).
    apply with_connection_ret in H as (w4 & w5 & _ & _ & E & _).
    apply bind_ret_inv in E as (rows & w6 & _ & E).
    apply bind_ret_inv in E as (? & w7 & _ & [= <- _]). done.
  - intros e w1. eexists. reflexivity.
Qed.

(** C10. [load_accounts] never raises; whenever anything it attempted
    failed (importing the driver, creating the pool, a bootstrap
    statement, acquiring a connection or the query itself), it returns
    [None], the value it returns when the store is disabled; so a list is
    returned only by a run in which nothing failed. *)
Theorem load_accounts_failure_is_none (w : world) :
  ∃ r w',
    load_accounts w = (Ret r, w') ∧
    (is_database_enabled (environ w) = false → r = None ∧ w' = w) ∧
    (∀ evs, events_between w w' evs → forallb ev_ok evs = false → r = None).
Proof.
  destruct (is_database_enabled (environ w)) eqn:He.
  - destruct (load_accounts_enabled w He) as (body & handler & -> & Hc & Hs & Hh).
    unfold try_except. destruct (body w) as [[a|e] w1] eqn:E.
    + exists a, w1. split; [done|]. split; [done|]. intros evs Hevs Hfail.
      apply Hc in E. pose proof (clean_no_failure _ _ _ E Hevs). congruence.
    + destruct (Hh e w1) as (w2 & ->). exists None, w2. done.
  - rewrite (load_accounts_disabled w He). exists None, w. done.
Qed.

(** The pool cannot be created: the run logs the failure and returns
    [None]. *)
Lemma load_accounts_failure_is_none_witness :
  fst (load_accounts (fresh_world (Some "postgres://db") [true])) = Ret None.
Proof.
  destruct (load_accounts_failure_is_none (fresh_world (Some "postgres://db") [true]))
    as (r & w' & E & _ & H).
  rewrite E. simpl. f_equal.
  assert (w' = snd (load_accounts (fresh_world (Some "postgres://db") [true]))) as ->
    by (by rewrite E).
  apply (H [EvLog Error "[STORAGE] Database read failed";
            EvLog Error "[STORAGE] Database connection failed";
            EvCreatePool false; EvImportDriver true]).
  - vm_compute. reflexivity.
  - reflexivity.
Defined.

(** * Transactions *)

(** A read that returns leaves the tables as they are. *)
Lemma conn_run_read_db {A} s (result : database → A) w r w' :
  is_read s = true → conn_run s result w = (r, w') → db w' = db w.
Proof.
  intros Hs. rewrite conn_run_eq.
  destruct (pop_fault w) as [[|] w1] eqn:E;
    [intros [= <- <-]; exact (pop_fault_db _ _ _ E)|].
  destruct (sql_exec _ s (db w1)) as [d'|e] eqn:E'; intros [= <- <-]; simpl.
  - apply (sql_exec_read _ _ _ _ Hs) in E' as ->. exact (pop_fault_db _ _ _ E).
  - exact (pop_fault_db _ _ _ E).
Qed.

(** A transaction that raises leaves the tables as they were. *)
Lemma conn_transaction_raise {A} (body : M A) w e w' :
  conn_transaction body w = (Raise e, w') → db w' = db w.
Proof.
  unfold conn_transaction.
  destruct (conn_execute Begin w) as [[[]|e1] w1] eqn:E1.
  2: { intros [= <- <-]. by eapply (conn_run_read_db Begin). }
  apply (conn_run_read_db Begin) in E1 as Hb; [|done].
  destruct (body _) as [[a|e2] w2] eqn:E2.
  - destruct (conn_execute Commit w2) as [[[]|e3] w3] eqn:E3; [done|].
    intros [= <- <-]. done.
  - intros [= <- <-]. done.
Qed.

(** A transaction that returns ran its body to the end, from the tables
    as they were, and committed what the body left. *)
Lemma conn_transaction_ret {A} (body : M A) w a w' :
  conn_transaction body w = (Ret a, w') →
  ∃ w1 w2, db w1 = db w ∧ is_Some (txn_start w1) ∧
           body w1 = (Ret a, w2) ∧ db w' = db w2.
Proof.
  unfold conn_transaction.
  destruct (conn_execute Begin w) as [[[]|e1] w1] eqn:E1; [|done].
  apply (conn_run_read_db Begin) in E1 as Hb; [|done].
  destruct (body _) as [[a'|e2] w2] eqn:E2; [|done].
  destruct (conn_execute Commit w2) as [[[]|e3] w3] eqn:E3; [|done].
  intros [= <- <-]. exists (set_txn_start (Some (clock w1)) w1), w2.
  split_and!; [exact Hb|by eexists|exact E2|].
  simpl. by eapply (conn_run_read_db Commit).
Qed.

Lemma clean_conn_transaction {A} (body : M A) :
  keeps clean body → keeps clean (conn_transaction body).
Proof.
  intros Hb w r w'. unfold conn_transaction.
  destruct (conn_execute Begin w) as [[[]|e1] w1] eqn:E1.
  2: { intros [= <- <-]. by apply (in_clean keeps_read) in E1. }
  apply (in_clean keeps_read) in E1; [|done].
  assert (clean true w1 (set_txn_start (Some (clock w1)) w1)) as Ht
    by (by apply clean_same_trace).
  pose proof (clean_trans _ _ _ _ E1 Ht) as E0.
  destruct (body _) as [[a|e2] w2] eqn:E2; apply Hb in E2; simpl in E2.
  - pose proof (clean_trans _ _ _ _ E0 E2) as E02.
    destruct (conn_execute Commit w2) as [[[]|e3] w3] eqn:E3;
      (apply (in_clean keeps_read) in E3; [|done]); intros [= <- <-]; simpl in *.
    + eapply clean_trans; [exact E02|]. eapply clean_trans; [exact E3|].
      by apply clean_same_trace.
    + eapply clean_trans; [exact E02|]. eapply clean_trans_raise; [exact E3|].
      by apply clean_same_trace.
  - intros [= <- <-]. simpl.
    eapply clean_trans; [exact E0|].
    eapply clean_trans_raise; [exact E2|].
    eapply clean_trans_raise; [by apply (clean_emit false w2 (EvSql Rollback true))|].
    by apply clean_same_trace.
Qed.

(** * [save_accounts]: the shape of a run *)

Lemma clean_reconcile accounts : keeps clean (reconcile accounts).
Proof.
  apply (in_clean keeps_bind); [by apply (in_clean keeps_read)|]. intros rows.
  apply (in_clean keeps_bind).
  { case_bool_decide; [|apply (in_clean keeps_ret)].
    by apply (in_clean keeps_conn_run). }
  intros _. apply (in_clean keeps_for_each). intros account.
  destruct (negb _); [apply (in_clean keeps_ret)|by apply (in_clean keeps_conn_run)].
Qed.

(** With the store enabled, [save_accounts] is a [try] around a body that
    either returns [True] after a committed [reconcile], or raises; when
    it raises, the account rows are as they were, unless every step
    succeeded and only the exit of the connection scope failed.  The
    handler turns a raise into [False]. *)
Lemma save_accounts_enabled accounts w :
  is_database_enabled (environ w) = true →
  ∃ body handler,
    save_accounts accounts w = try_except body handler w ∧
    keeps clean body ∧
    (∀ w1 r w2, body w1 = (r, w2) →
       (r = Ret true ∧
        ∃ w3 w4, reconcile accounts w3 = (Ret tt, w4) ∧ db w2 = db w4) ∨
       (∃ e, r = Raise e ∧
          (account_rows (db w2) = account_rows (db w1) ∨
           ∃ evs, trace w2 = (EvRelease false :: evs ++ trace w1)%list ∧
                  forallb ev_ok evs = true))) ∧
    (∀ e w1, ∃ w2, handler e w1 = (Ret false, w2) ∧ db w2 = db w1 ∧
       trace w2 = EvLog Error "[STORAGE] Database write failed" :: trace w1).
Proof.
  intros He. eexists _, _. split.
  { unfold save_accounts. rewrite (bind_run get_world _ w w w eq_refl), He.
    reflexivity. }
  assert (keeps clean (conn_transaction (reconcile accounts);;
                       log_info "[STORAGE] Saved accounts to database";;
                       mret true)) as Hinner.
  { apply (in_clean keeps_bind); [apply clean_conn_transaction, clean_reconcile|].
    intros _.
    apply (in_clean keeps_bind); [by apply (in_clean keeps_emit)|]. intros _.
    apply (in_clean keeps_ret). }
  split; [|split].
  - apply (in_clean keeps_bind); [apply (in_clean keeps_get_pool)|]. intros p.
    by apply (in_clean keeps_with_connection).
  - intros w1 r w2 H.
    apply bind_inv in H as [(p & w3 & Hp & H)|(e & Hp & ->)].
    2: { right. exists e. split; [done|]. left.
         by apply get_pool_stable in Hp as [[? _] _]. }
    pose proof (get_pool_clean _ _ _ Hp) as (evs1 & Hevs1 & Hok1).
    apply get_pool_stable in Hp as [[Hrows _] _].
    destruct r as [b|e].
    + left. apply with_connection_ret in H as (w4 & w5 & _ & _ & H & Hdb).
      apply bind_ret_inv in H as ([] & w6 & Ht & H).
      injection H as <- <-. split; [done|].
      apply conn_transaction_ret in Ht as (w7 & w8 & _ & _ & Hr & Hdb').
      exists w7, w8. split; [done|]. simpl in Hdb. congruence.
    + right. exists e. split; [done|].
      apply (with_connection_raise_cases _ _ _ _ _ Hinner) in H
        as [Hdb|[(w4 & e' & w5 & Hdb4 & H & Hdb)|(w4 & a & w5 & evs & _ & _ & _ & Htr & Hok)]].
      * left. congruence.
      * left. apply bind_inv in H as [([] & w6 & _ & [=])|(e'' & Ht & _)].
        apply conn_transaction_raise in Ht. congruence.
      * right. exists (evs ++ evs1)%list. split.
        -- rewrite Htr, Hevs1. by rewrite app_assoc.
        -- rewrite forallb_app, Hok, Hok1; done.
  - intros e w1. eexists. split_and!; reflexivity.
Qed.

(** C2. [save_accounts] never raises.  When anything it attempted failed
    (the deletion, an upsert, the commit, or any step before or after
    them) it returns [False]; and whenever it returns [False] the rows of
    the accounts table are exactly what they were before the call, the
    one exception being a run in which every statement and the commit
    succeeded and only the exit of the connection scope failed. *)
Theorem save_accounts_atomic (accounts : list pydict) (w : world) :
  ∃ b w',
    save_accounts accounts w = (Ret b, w') ∧
    (∀ evs, events_between w w' evs → forallb ev_ok evs = false → b = false) ∧
    (b = false →
     ∀ evs, events_between w w' evs → only_release_failed evs = false →
            account_rows (db w') = account_rows (db w)).
Proof.
  destruct (is_database_enabled (environ w)) eqn:He.
  2: { rewrite (save_accounts_disabled _ w He). exists false, w. done. }
  destruct (save_accounts_enabled accounts w He) as (body & handler & -> & Hc & Hb & Hh).
  unfold try_except. destruct (body w) as [r w1] eqn:E.
  destruct (Hb _ _ _ E) as [[-> _]|(e & -> & Hrows)].
  - exists true, w1. split; [done|]. split; [|done].
    intros evs Hevs Hfail. apply Hc in E.
    pose proof (clean_no_failure _ _ _ E Hevs). congruence.
  - destruct (Hh e w1) as (w2 & -> & Hdb & Htr). exists false, w2.
    split; [done|]. split; [done|]. intros _ evs Hevs Hscope.
    destruct Hrows as [Hrows|(evs0 & Htr1 & Hok)]; [by rewrite Hdb|].
    exfalso. unfold events_between in Hevs. rewrite Htr, Htr1 in Hevs.
    change (EvLog Error "[STORAGE] Database write failed"
              :: EvRelease false :: evs0 ++ trace w)%list
      with (([EvLog Error "[STORAGE] Database write failed"]
               ++ EvRelease false :: evs0) ++ trace w)%list in Hevs.
    apply app_inv_tail in Hevs. subst evs.
    by rewrite only_release_failed_intro in Hscope.
Qed.

(** A failure in the middle of the upserts: the deletion and the first
    upsert are undone. *)
Definition two_accounts_world : world :=
  Eval vm_compute in
  set_faults [false; false; false; false; false; true]
    (snd (save_accounts [account_of "a" "s1"; account_of "b" "s2"]
            (fresh_world (Some "postgres://db") []))).

Lemma save_accounts_atomic_witness :
  fst (save_accounts [account_of "c" "s3"; account_of "d" "s4"] two_accounts_world)
    = Ret false ∧
  account_rows
    (db (snd (save_accounts [account_of "c" "s3"; account_of "d" "s4"] two_accounts_world)))
    = account_rows (db two_accounts_world).
Proof.
  destruct (save_accounts_atomic [account_of "c" "s3"; account_of "d" "s4"]
              two_accounts_world) as (b & w' & E & Hf & Hr).
  rewrite E. cbn [fst snd].
  assert (b = false) as ->.
  { apply (Hf (firstn 9 (trace w'))).
    - replace w' with (snd (save_accounts [account_of "c" "s3"; account_of "d" "s4"]
                      two_accounts_world)) by (by rewrite E).
      vm_compute. reflexivity.
    - replace w' with (snd (save_accounts [account_of "c" "s3"; account_of "d" "s4"]
                      two_accounts_world)) by (by rewrite E).
      vm_compute. reflexivity. }
  split; [reflexivity|].
  apply (Hr eq_refl (firstn 9 (trace w'))).
  - replace w' with (snd (save_accounts [account_of "c" "s3"; account_of "d" "s4"]
                    two_accounts_world)) by (by rewrite E).
    vm_compute. reflexivity.
  - replace w' with (snd (save_accounts [account_of "c" "s3"; account_of "d" "s4"]
                    two_accounts_world)) by (by rewrite E).
    vm_compute. reflexivity.
Defined.

(** * [reconcile]: what a run that returns has done *)

(** One round of the upsert loop. *)
Definition upsert_one (account : pydict) : M unit :=
  if negb (truthy (dict_get account "id")) then mret tt
  else conn_execute (UpsertAccount (_account_dict_to_values account)).

Lemma truthy_str k : truthy (PStr k) = true → k ≠ EmptyString.
Proof. simpl. intros H ->. done. Qed.

Lemma upsert_one_ret account w w' :
  upsert_one account w = (Ret tt, w') →
  (truthy (dict_get account "id") = false ∧ db w' = db w) ∨
  (∃ k row,
     dict_get account "id" = PStr k ∧ k ≠ EmptyString ∧
     is_Some (accounts (db w)) ∧
     accounts (db w') = Some (<[k := row]> (account_rows (db w))) ∧
     row_values row = _account_dict_to_values account).
Proof.
  unfold upsert_one. destruct (truthy (dict_get account "id")) eqn:Ht; simpl.
  2: { intros [= <-]. by left. }
  unfold conn_execute. rewrite conn_run_eq.
  destruct (pop_fault w) as [[|] w1] eqn:Ef; [done|]. apply pop_fault_db in Ef.
  destruct (sql_exec _ _ (db w1)) as [d'|e] eqn:E; [|done].
  intros [= <-]. right. rewrite Ef in E. clear Ef. revert E.
  cbn [sql_exec]. unfold sql_upsert_account, account_rows.
  destruct (accounts (db w)) as [tbl|]; [|done].
  destruct (negb (args_fit _ _)); [done|].
  destruct (negb (nulls_allowed _ _)); [done|].
  change (_account_dict_to_values account)
    with (dict_get account "id" :: map (dict_get account) (tail ACCOUNT_FIELDS)).
  destruct (dict_get account "id") as [| | |k] eqn:Hid; try done.
  intros [= <-]. eexists k, _. split_and!; try done.
  by apply truthy_str.
Qed.

Lemma new_ids_cons_skip account accounts :
  truthy (dict_get account "id") = false →
  new_ids (account :: accounts) = new_ids accounts.
Proof.
  intros H. unfold new_ids. cbn [map]. rewrite filter_cons.
  destruct (decide _) as [Hd|_]; [|done]. rewrite H in Hd. done.
Qed.

Lemma new_ids_cons_keep account accounts :
  truthy (dict_get account "id") = true →
  new_ids (account :: accounts) = {[ dict_get account "id" ]} ∪ new_ids accounts.
Proof.
  intros H. unfold new_ids. cbn [map]. rewrite filter_cons.
  destruct (decide _) as [_|Hd]; [|by rewrite H in Hd]. by rewrite list_to_set_cons.
Qed.

(** The persisted ids, as the Python values the code compares them with. *)
Definition persisted_ids (d : database) : gset pyval :=
  set_map PStr (dom (account_rows d)).

Lemma elem_of_persisted_ids d v :
  v ∈ persisted_ids d ↔ ∃ k, v = PStr k ∧ is_Some (account_rows d !! k).
Proof.
  unfold persisted_ids. rewrite elem_of_map.
  split; intros (k & -> & H); exists k; split; try done; by apply elem_of_dom.
Qed.

(** The loop adds exactly the ids of the records it was given. *)
Lemma upsert_loop_ids accounts w w' :
  for_each accounts upsert_one w = (Ret tt, w') →
  persisted_ids (db w') = persisted_ids (db w) ∪ new_ids accounts.
Proof.
  revert w. induction accounts as [|a accounts IH]; intros w; simpl.
  { intros [= <-]. unfold new_ids. simpl. set_solver. }
  intros H. apply bind_ret_inv in H as ([] & w1 & H1 & H).
  apply IH in H. rewrite H.
  apply upsert_one_ret in H1 as [[Ht Hdb]|(k & row & Hid & Hk & _ & Hacc & _)].
  - rewrite (new_ids_cons_skip _ _ Ht), Hdb. done.
  - rewrite new_ids_cons_keep by (by rewrite Hid; simpl; destruct k).
    unfold persisted_ids, account_rows at 1. rewrite Hacc. simpl.
    rewrite dom_insert_L, set_map_union_L, set_map_singleton_L, Hid.
    set_solver.
Qed.

(** A key that no record of the list carries is left alone by the loop. *)
Lemma upsert_loop_other accounts k w w' :
  for_each accounts upsert_one w = (Ret tt, w') →
  Forall (λ a, dict_get a "id" ≠ PStr k) accounts →
  account_rows (db w') !! k = account_rows (db w) !! k.
Proof.
  revert w. induction accounts as [|a accounts IH]; intros w; simpl.
  { by intros [= <-]. }
  intros H Hall. apply Forall_cons in Hall as [Ha Hall].
  apply bind_ret_inv in H as ([] & w1 & H1 & H).
  rewrite (IH _ H Hall).
  apply upsert_one_ret in H1 as [[Ht Hdb]|(k' & row & Hid & Hk & _ & Hacc & _)].
  - by rewrite Hdb.
  - unfold account_rows at 1. rewrite Hacc. simpl.
    apply lookup_insert_ne. congruence.
Qed.

(** Last wins: the row of an id holds the values of the last record that
    carries it. *)
Lemma upsert_loop_last before r after k w w' :
  for_each (before ++ r :: after) upsert_one w = (Ret tt, w') →
  dict_get r "id" = PStr k → k ≠ EmptyString →
  Forall (λ a, dict_get a "id" ≠ PStr k) after →
  ∃ row, account_rows (db w') !! k = Some row ∧
         row_values row = _account_dict_to_values r.
Proof.
  intros H Hid Hk Hafter. revert w H.
  induction before as [|a before IH]; intros w; simpl; intros H;
    apply bind_ret_inv in H as ([] & w1 & H1 & H).
  - rewrite (upsert_loop_other _ _ _ _ H Hafter).
    apply upsert_one_ret in H1 as [[Ht _]|(k' & row & Hid' & _ & _ & Hacc & Hrow)].
    { rewrite Hid in Ht. simpl in Ht. by destruct k. }
    assert (k' = k) as -> by congruence.
    exists row. split; [|done].
    unfold account_rows at 1. rewrite Hacc. simpl. apply lookup_insert_eq.
  - by apply (IH w1).
Qed.

Lemma lookup_delete_keys (ids : list pyval) (tbl : gmap string account_row) k :
  foldr delete_key tbl ids !! k =
  if decide (PStr k ∈ ids) then None else tbl !! k.
Proof.
  induction ids as [|v ids IH]; cbn [foldr].
  { destruct (decide _) as [Hin|_]; [by apply elem_of_nil in Hin|done]. }
  assert (delete_key v (foldr delete_key tbl ids) !! k =
          if decide (v = PStr k) then None else foldr delete_key tbl ids !! k) as ->.
  { destruct v as [|b|n|k']; simpl.
    - by destruct (decide (PNone = PStr k)).
    - by destruct (decide (PBool b = PStr k)).
    - by destruct (decide (PInt n = PStr k)).
    - destruct (decide (PStr k' = PStr k)) as [[= ->]|Hne]; [apply lookup_delete_eq|].
      apply lookup_delete_ne. congruence. }
  rewrite IH.
  destruct (decide (v = PStr k)) as [->|Hne], (decide (PStr k ∈ ids)) as [Hin|Hnin],
    (decide (PStr k ∈ _ :: ids)) as [Hin'|Hnin']; try done.
  - exfalso. apply Hnin'. by right.
  - exfalso. apply Hnin'. by left.
  - exfalso. apply Hnin'. by right.
  - apply elem_of_cons in Hin' as [?|?]; congruence.
Qed.

Lemma select_account_ids_set d :
  list_to_set (map (λ row : pydict, dict_get row "id") (select_account_ids d))
  = persisted_ids d.
Proof.
  unfold select_account_ids, persisted_ids. rewrite map_map.
  apply set_eq. intros v.
  rewrite elem_of_list_to_set, elem_of_map, list_elem_of_In, in_map_iff.
  split.
  - intros (k & <- & Hk). exists k. split.
    + unfold dict_get. by rewrite lookup_singleton_eq.
    + by apply elem_of_elements, list_elem_of_In.
  - intros (k & -> & Hk). exists k. split.
    + unfold dict_get. by rewrite lookup_singleton_eq.
    + by apply list_elem_of_In, elem_of_elements.
Qed.

Lemma sql_delete_accounts_rows ids d d' :
  sql_delete_accounts ids d = Ret d' →
  account_rows d' = foldr delete_key (account_rows d) ids ∧ kv_rows d' = kv_rows d.
Proof.
  unfold sql_delete_accounts, account_rows, kv_rows.
  destruct (accounts d) as [tbl|]; [|done].
  destruct (negb _); [done|]. by intros [= <-].
Qed.

Lemma delete_any_ret ids w w' :
  conn_execute (DeleteAccountsAny ids) w = (Ret tt, w') →
  account_rows (db w') = foldr delete_key (account_rows (db w)) ids.
Proof.
  unfold conn_execute. rewrite conn_run_eq.
  destruct (pop_fault w) as [[|] w1] eqn:Ef; [done|]. apply pop_fault_db in Ef.
  destruct (sql_exec _ _ (db w1)) as [d'|e] eqn:E; [|done].
  intros [= <-]. simpl. rewrite Ef in E.
  by apply sql_delete_accounts_rows in E as [-> _].
Qed.

Lemma persisted_ids_delete_keys (dels : gset pyval) d d' :
  account_rows d' = foldr delete_key (account_rows d) (elements dels) →
  persisted_ids d' = persisted_ids d ∖ dels.
Proof.
  intros H. apply set_eq. intros v.
  rewrite elem_of_difference, !elem_of_persisted_ids. setoid_rewrite H.
  setoid_rewrite lookup_delete_keys. split.
  - intros (k & -> & Hk). destruct (decide _) as [|Hn]; [by destruct Hk|].
    split; [eauto|]. intros ?. by apply Hn, elem_of_elements.
  - intros [(k & -> & Hk) Hn]. exists k. split; [done|].
    destruct (decide _) as [Hin|]; [|done]. by apply elem_of_elements in Hin.
Qed.

(** [reconcile] reads the persisted ids, deletes those that are not among
    the new ones, and runs the upsert loop on what is left. *)
Lemma reconcile_ret accounts w w' :
  reconcile accounts w = (Ret tt, w') →
  ∃ w2,
    persisted_ids (db w2) = persisted_ids (db w) ∩ new_ids accounts ∧
    for_each accounts upsert_one w2 = (Ret tt, w').
Proof.
  unfold reconcile. intros H.
  apply bind_ret_inv in H as (rows & w1 & H1 & H).
  assert (db w1 = db w ∧ rows = select_account_ids (db w)) as [Hdb ->].
  { split; [by eapply (conn_run_read_db SelectAccountIds)|].
    rewrite conn_run_eq in H1.
    destruct (pop_fault w) as [[|] w0] eqn:Ef; [done|]. apply pop_fault_db in Ef.
    destruct (sql_exec _ _ _); [|done]. injection H1 as <- _. by rewrite Ef. }
  rewrite select_account_ids_set in H.
  apply bind_ret_inv in H as ([] & w2 & H2 & H).
  exists w2. split; [|exact H]. clear H. rewrite <- Hdb.
  case_bool_decide as Hdels.
  - pose proof (persisted_ids_delete_keys _ _ _ (delete_any_ret _ _ _ H2)) as H3.
    rewrite H3, Hdb. clear. apply set_eq. intros v.
    rewrite elem_of_intersection, !elem_of_difference.
    destruct (decide (v ∈ new_ids accounts)); naive_solver.
  - injection H2 as <-. rewrite Hdb. clear -Hdels.
    apply set_eq. intros v. rewrite elem_of_intersection.
    destruct (decide (v ∈ new_ids accounts)); [naive_solver|].
    split; [|naive_solver]. intros Hv. exfalso.
    assert (v ∈ persisted_ids (db w) ∖ new_ids accounts) as Hin
      by (by apply elem_of_difference).
    rewrite Hdels in Hin. by apply elem_of_empty in Hin.
Qed.

(** A [save_accounts] that returned [True] has run [reconcile] to the end
    and committed it. *)
Lemma save_accounts_true accounts w w' :
  save_accounts accounts w = (Ret true, w') →
  ∃ w1 w2, reconcile accounts w1 = (Ret tt, w2) ∧ db w' = db w2.
Proof.
  intros H. destruct (is_database_enabled (environ w)) eqn:He.
  2: { by rewrite (save_accounts_disabled _ w He) in H. }
  destruct (save_accounts_enabled accounts w He) as (body & handler & E & _ & Hb & Hh).
  rewrite E in H. apply try_except_inv in H as [(a & Hbody & [= <-])|(e & w1 & _ & H)].
  - by destruct (Hb _ _ _ Hbody) as [[_ ?]|(e & [=] & _)].
  - destruct (Hh e w1) as (w2 & H2 & _). congruence.
Qed.

(** * Full-set reconciliation *)

(** C1. After a [save_accounts] that returned [True], the persisted ids
    are exactly the ids of the target records that have a truthy id, no
    more and no fewer; with an empty target list no row is left. *)
Theorem save_accounts_reconciles (accounts : list pydict) (w w' : world) :
  save_accounts accounts w = (Ret true, w') →
  persisted_ids (db w') = new_ids accounts ∧
  (accounts = [] → account_rows (db w') = ∅).
Proof.
  intros H. apply save_accounts_true in H as (w1 & w2 & Hr & ->).
  apply reconcile_ret in Hr as (w3 & Hdel & Hloop).
  apply upsert_loop_ids in Hloop. rewrite Hdel in Hloop.
  assert (persisted_ids (db w2) = new_ids accounts) as Hids by set_solver.
  split; [done|]. intros ->.
  apply dom_empty_iff_L. apply set_eq. intros k. split; [|set_solver].
  intros Hk. assert (PStr k ∈ persisted_ids (db w2)) as Hin.
  { apply elem_of_persisted_ids. exists k. split; [done|]. by apply elem_of_dom. }
  rewrite Hids in Hin. set_solver.
Qed.

(** * Runs in which nothing fails *)

Lemma pop_fault_quiet w :
  faults w = [] → pop_fault w = (false, set_clock (S (clock w)) w).
Proof. unfold pop_fault. by intros ->. Qed.

Lemma conn_run_quiet {A} s (result : database → A) w d' :
  faults w = [] →
  sql_exec (default (S (clock w)) (txn_start w)) s (db w) = Ret d' →
  conn_run s result w =
  (Ret (result (db w)),
   set_trace (EvSql s true :: trace w) (set_db d' (set_clock (S (clock w)) w))).
Proof.
  intros Hf Hs. rewrite conn_run_eq, (pop_fault_quiet _ Hf).
  unfold current_timestamp. simpl. by rewrite Hs.
Qed.

Lemma with_connection_quiet {A} p (body : M A) w :
  faults w = [] →
  with_connection (Some p) body w =
  let '(r, w2) := body (set_trace (EvAcquire true :: trace w) (set_clock (S (clock w)) w)) in
  release r w2.
Proof. intros Hf. by rewrite with_connection_eq, (pop_fault_quiet _ Hf). Qed.

Lemma release_quiet {A} (r : outcome A) w :
  faults w = [] →
  release r w = (r, set_trace (EvRelease true :: trace w) (set_clock (S (clock w)) w)).
Proof. intros Hf. by rewrite release_eq, (pop_fault_quiet _ Hf). Qed.

(** A transaction in which neither BEGIN, nor the body, nor COMMIT
    fails. *)
Lemma conn_transaction_quiet {A} (body : M A) w (Q : world → Prop) a :
  faults w = [] →
  (∀ w1, faults w1 = [] → db w1 = db w → is_Some (txn_start w1) →
         ∃ w2, body w1 = (Ret a, w2) ∧ faults w2 = [] ∧ Q w2) →
  ∃ w2 w', conn_transaction body w = (Ret a, w') ∧
           faults w' = [] ∧ db w' = db w2 ∧ Q w2.
Proof.
  intros Hf Hbody. unfold conn_transaction, conn_execute.
  rewrite (conn_run_quiet Begin _ w (db w) Hf eq_refl).
  cbn [db set_trace set_db set_clock clock].
  edestruct Hbody as (w2 & -> & Hf2 & HQ); [| |by eexists|]; [done|done|].
  rewrite (conn_run_quiet Commit _ w2 (db w2) Hf2 eq_refl).
  exists w2. eexists. split; [reflexivity|]. done.
Qed.

(** A record the accounts table accepts. *)
Definition storable (account : pydict) : Prop :=
  truthy (dict_get account "id") = true →
  args_fit accounts_columns (_account_dict_to_values account) = true ∧
  nulls_allowed accounts_columns (_account_dict_to_values account) = true.

Lemma upsert_one_quiet account w :
  faults w = [] → is_Some (accounts (db w)) → storable account →
  ∃ w', upsert_one account w = (Ret tt, w') ∧
        faults w' = [] ∧ is_Some (accounts (db w')).
Proof.
  intros Hf [tbl Htbl] Hst. unfold upsert_one.
  destruct (truthy (dict_get account "id")) eqn:Ht; simpl.
  2: { exists w. by eauto. }
  destruct (Hst Ht) as [Hfit Hnull].
  assert (∃ d', sql_exec (default (S (clock w)) (txn_start w))
                  (UpsertAccount (_account_dict_to_values account)) (db w) = Ret d' ∧
                is_Some (accounts d')) as (d' & Hd' & Hacc).
  { cbn [sql_exec]. unfold sql_upsert_account. rewrite Htbl, Hfit, Hnull. simpl.
    change (_account_dict_to_values account)
      with (dict_get account "id" :: map (dict_get account) (tail ACCOUNT_FIELDS)) in *.
    destruct (dict_get account "id") as [| | |k] eqn:Hid.
    - done.
    - cbn in Hfit. done.
    - cbn in Hfit. done.
    - eexists. split; [reflexivity|]. by eexists. }
  unfold conn_execute. rewrite (conn_run_quiet _ _ w d' Hf Hd').
  eexists. split; [reflexivity|]. done.
Qed.

Lemma upsert_loop_quiet (targets : list pydict) w :
  faults w = [] → is_Some (accounts (db w)) → Forall storable targets →
  ∃ w', for_each targets upsert_one w = (Ret tt, w') ∧ faults w' = [].
Proof.
  revert w. induction targets as [|a targets IH]; intros w Hf Hacc Hall; simpl.
  { by exists w. }
  apply Forall_cons in Hall as [Ha Hall].
  destruct (upsert_one_quiet a w Hf Hacc Ha) as (w1 & E1 & Hf1 & Hacc1).
  rewrite (bind_run _ _ _ _ _ E1). by apply IH.
Qed.

Lemma persisted_ids_fit (dels : gset pyval) d :
  dels ⊆ persisted_ids d → forallb (fits TText) (elements dels) = true.
Proof.
  intros Hsub. apply forallb_forall. intros v Hv.
  apply list_elem_of_In, elem_of_elements, Hsub, elem_of_persisted_ids in Hv
    as (k & -> & _). done.
Qed.

Lemma reconcile_quiet (targets : list pydict) w :
  faults w = [] → is_Some (accounts (db w)) → Forall storable targets →
  ∃ w', reconcile targets w = (Ret tt, w') ∧ faults w' = [].
Proof.
  intros Hf [tbl Htbl] Hall. unfold reconcile.
  erewrite (bind_run _ _ w); cycle 1.
  { apply (conn_run_quiet SelectAccountIds _ w (db w) Hf).
    cbn [sql_exec]. by rewrite Htbl. }
  rewrite select_account_ids_set.
  set (w1 := set_trace _ _).
  assert (faults w1 = [] ∧ db w1 = db w) as [Hf1 Hdb1] by done.
  clearbody w1.
  assert (∃ w2, (if bool_decide (persisted_ids (db w) ∖ new_ids targets ≠ ∅)
                 then conn_execute
                        (DeleteAccountsAny
                           (elements (persisted_ids (db w) ∖ new_ids targets)))
                 else mret ()) w1 = (Ret tt, w2) ∧
                faults w2 = [] ∧ is_Some (accounts (db w2))) as (w2 & E2 & Hf2 & Hacc2).
  { case_bool_decide.
    - unfold conn_execute. erewrite conn_run_quiet; [|done|]; cycle 1.
      { cbn [sql_exec]. unfold sql_delete_accounts. rewrite Hdb1, Htbl.
        rewrite (persisted_ids_fit _ (db w)) by set_solver. reflexivity. }
      eexists. split; [reflexivity|]. split; [done|]. simpl. by eexists.
    - exists w1. split; [done|]. split; [done|]. rewrite Hdb1, Htbl. by eexists. }
  rewrite (bind_run _ _ _ _ _ E2). by apply upsert_loop_quiet.
Qed.

(** In a world where nothing fails, records the table accepts are saved. *)
Lemma save_accounts_healthy (targets : list pydict) w :
  healthy w → Forall storable targets →
  ∃ w', save_accounts targets w = (Ret true, w').
Proof.
  intros Hw Hall. pose proof Hw as (_ & _ & He & _).
  destruct (get_pool_healthy w Hw) as (p & w1 & Ep & (Hf1 & _) & _ & [_ Hacc1] & _).
  unfold save_accounts. rewrite (bind_run get_world _ w w w eq_refl), He.
  cbn [negb]. unfold try_except.
  rewrite (bind_run _ _ _ _ _ Ep), (with_connection_quiet _ _ _ Hf1).
  edestruct (conn_transaction_quiet (reconcile targets)
               (set_trace (EvAcquire true :: trace w1) (set_clock (S (clock w1)) w1))
               (λ _, True) tt) as (w2 & w3 & E3 & Hf3 & _); [done| |].
  { intros w4 Hf4 Hdb4 _.
    destruct (reconcile_quiet targets w4 Hf4) as (w5 & E5 & Hf5); [|done|by eauto].
    by rewrite Hdb4. }
  rewrite (bind_run _ _ _ _ _ E3).
  change ((log_info "[STORAGE] Saved accounts to database" ≫= λ _, mret true) w3)
    with (Ret true,
          set_trace (EvLog Info "[STORAGE] Saved accounts to database" :: trace w3) w3).
  cbv beta iota. rewrite release_quiet by exact Hf3. eexists. reflexivity.
Qed.

(** * Duplicate ids *)

(** C8. A target list in which several records carry the same non-empty
    id raises no error: where nothing fails and the table accepts every
    record, [save_accounts] returns [True]; and after any run that
    returned [True] the row of that id holds the values of the last record
    of the list that carries it. *)
Theorem save_accounts_last_wins
    (before after : list pydict) (r : pydict) (k : string) (w : world) :
  dict_get r "id" = PStr k → k ≠ EmptyString →
  Forall (λ a, dict_get a "id" ≠ PStr k) after →
  (healthy w → Forall storable (before ++ r :: after) →
   ∃ w', save_accounts (before ++ r :: after) w = (Ret true, w')) ∧
  (∀ w', save_accounts (before ++ r :: after) w = (Ret true, w') →
         ∃ row, account_rows (db w') !! k = Some row ∧
                row_values row = _account_dict_to_values r).
Proof.
  intros Hid Hk Hafter. split; [apply save_accounts_healthy|].
  intros w' H. apply save_accounts_true in H as (w1 & w2 & Hr & ->).
  apply reconcile_ret in Hr as (w3 & _ & Hloop).
  by eapply upsert_loop_last.
Qed.

Lemma fresh_world_healthy url :
  is_database_enabled {[ "DATABASE_URL" := url ]} = true →
  healthy (fresh_world (Some url) []).
Proof.
  intros He. unfold healthy. split_and!; try done. by intros [? [=]].
Defined.

Lemma account_of_storable id ses : storable (account_of id ses).
Proof. intros _. split; reflexivity. Defined.

(** Two records share the id ["a"]: the run returns [True] and the row of
    ["a"] holds the values of the later one. *)
Lemma save_accounts_last_wins_witness :
  (∃ w', save_accounts
           [account_of "a" "s1"; account_of "b" "s2"; account_of "a" "s3";
            account_of "b" "s4"]
           (fresh_world (Some "postgres://db") []) = (Ret true, w')) ∧
  row_values <$>
    account_rows
      (db (snd (save_accounts
                  [account_of "a" "s1"; account_of "b" "s2"; account_of "a" "s3";
                   account_of "b" "s4"]
                  (fresh_world (Some "postgres://db") [])))) !! "a"
  = Some (_account_dict_to_values (account_of "a" "s3")).
Proof.
  destruct (save_accounts_last_wins
              [account_of "a" "s1"; account_of "b" "s2"] [account_of "b" "s4"]
              (account_of "a" "s3") "a" (fresh_world (Some "postgres://db") []))
    as [Hret Hlast].
  - reflexivity.
  - discriminate.
  - repeat constructor. vm_compute. discriminate.
  - split.
    + apply Hret; [by apply fresh_world_healthy|].
      repeat constructor; apply account_of_storable.
    + destruct (Hlast (snd (save_accounts
                  [account_of "a" "s1"; account_of "b" "s2"; account_of "a" "s3";
                   account_of "b" "s4"]
                  (fresh_world (Some "postgres://db") []))))
        as (row & Hrow & Hvalues).
      * vm_compute. reflexivity.
      * simpl in Hrow. rewrite Hrow. simpl. by rewrite Hvalues.
Defined.

(** A store that already holds the accounts ["a"] and ["b"]. *)
Definition seeded_world : world :=
  Eval vm_compute in
  snd (save_accounts [account_of "a" "s1"; account_of "b" "s2"]
         (fresh_world (Some "postgres://db") [])).

Example seeded_world_ids : dom (account_rows (db seeded_world)) = {[ "a"; "b" ]}.
Proof. by vm_compute. Qed.

(** From the rows ["a"] and ["b"]: a target list with ["b"], a record
    without id and ["c"] leaves exactly ["b"] and ["c"]; the empty target
    list leaves nothing. *)
Lemma save_accounts_reconciles_witness :
  persisted_ids
    (db (snd (save_accounts
                [account_of "b" "s9"; {[ "secure_c_ses" := PStr "x" ]};
                 account_of "c" "s3"] seeded_world)))
  = new_ids [account_of "b" "s9"; {[ "secure_c_ses" := PStr "x" ]}; account_of "c" "s3"] ∧
  account_rows (db (snd (save_accounts [] seeded_world))) = ∅.
Proof.
  split.
  - apply (save_accounts_reconciles _ seeded_world). vm_compute. reflexivity.
  - apply (save_accounts_reconciles [] seeded_world); [|reflexivity].
    vm_compute. reflexivity.
Defined.

Example save_accounts_reconciles_ids :
  dom (account_rows
         (db (snd (save_accounts
                     [account_of "b" "s9"; {[ "secure_c_ses" := PStr "x" ]};
                      account_of "c" "s3"] seeded_world))))
  = {[ "b"; "c" ]}.
Proof. by vm_compute. Qed.

(** * Single statements in a world where nothing fails *)

(** What a statement or a connection scope leaves alone: everything but
    the clock, the trace and the tables. *)
Definition same_process (w w' : world) : Prop :=
  faults w' = faults w ∧ txn_start w' = txn_start w ∧ _db_pool w' = _db_pool w ∧
  environ w' = environ w ∧ driver_installed w' = driver_installed w ∧
  jsonb_codec w' = jsonb_codec w.

Lemma same_process_trans w1 w2 w3 :
  same_process w1 w2 → same_process w2 w3 → same_process w1 w3.
Proof.
  unfold same_process. intros (?&?&?&?&?&?) (?&?&?&?&?&?).
  split_and!; congruence.
Qed.

Lemma same_process_healthy w w' :
  healthy w → same_process w w' → schema_ready (db w') → healthy w'.
Proof.
  unfold healthy, same_process. intros (?&?&?&?&?) (?&?&?&?&?&?) ?.
  split_and!; try congruence; done.
Qed.

Lemma conn_run_ok {A} s (result : database → A) w d' :
  faults w = [] →
  sql_exec (default (S (clock w)) (txn_start w)) s (db w) = Ret d' →
  ∃ w', conn_run s result w = (Ret (result (db w)), w') ∧
        db w' = d' ∧ same_process w w'.
Proof.
  intros Hf Hs. rewrite (conn_run_quiet s result w d' Hf Hs).
  eexists. split; [reflexivity|]. by split.
Qed.

Lemma with_connection_ok {A} p (body : M A) w (Q : A → world → Prop) :
  faults w = [] →
  (∀ w1, same_process w w1 → db w1 = db w →
         ∃ a w2, body w1 = (Ret a, w2) ∧ faults w2 = [] ∧ Q a w2) →
  ∃ a w2 w', with_connection (Some p) body w = (Ret a, w') ∧ Q a w2 ∧
             db w' = db w2 ∧ same_process w2 w'.
Proof.
  intros Hf Hbody. rewrite (with_connection_quiet p body w Hf).
  edestruct Hbody as (a & w2 & -> & Hf2 & HQ); [| |]; cycle 2.
  { exists a, w2. eexists. rewrite (release_quiet _ _ Hf2).
    split; [reflexivity|]. by repeat split. }
  - by repeat split.
  - done.
Qed.

(** * Deleting what is not there *)




(** * Key-value round trip *)

Lemma jsonb_in_dumps value :
  Json.loads (Json.dumps value) = Some value → Json.nul_free value = true →
  jsonb_in (Json.dumps value) = Some value.
Proof. unfold jsonb_in. by intros -> ->. Qed.

Lemma db_set_healthy key value w :
  healthy w → Json.loads (Json.dumps value) = Some value →
  Json.nul_free_string key = true → Json.nul_free value = true →
  ∃ w', db_set key value w = (Ret tt, w') ∧ healthy w' ∧
        jsonb_codec w' = jsonb_codec w ∧
        ∃ now, kv_rows (db w') !! key = Some (KvRow value now).
Proof.
  intros Hw Hcodec Hkey Hnul. apply jsonb_in_dumps in Hcodec; [|exact Hnul].
  destruct (get_pool_healthy w Hw)
    as (p & w1 & Ep & Hw1 & Hp1 & [[tbl Htbl] Hacc] & (_ & _ & _ & Hc1 & _)).
  pose proof Hw1 as (Hf1 & _).
  unfold db_set. rewrite (bind_run _ _ _ _ _ Ep).
  edestruct (with_connection_ok p (conn_execute (UpsertKv key (Json.dumps value))) w1
               (λ _ w2, same_process w1 w2 ∧ schema_ready (db w2) ∧
                        ∃ now, kv_rows (db w2) !! key = Some (KvRow value now)))
    as ([] & w2 & w3 & -> & (Hsp2 & Hsr2 & now & Hrow) & Hdb3 & Hsp3); [done| |].
  - intros w4 Hsp4 Hdb4. pose proof Hsp4 as (Hf4 & _). rewrite Hf1 in Hf4.
    edestruct (conn_run_ok (UpsertKv key (Json.dumps value)) (λ _, tt) w4)
      as (w5 & E5 & Hdb5 & Hsp5); [done| |].
    { cbn [sql_exec]. unfold sql_upsert_kv. rewrite Hdb4, Htbl, Hkey, Hcodec.
      reflexivity. }
    unfold conn_execute. rewrite E5. eexists _, _. split; [reflexivity|].
    split; [by destruct Hsp5 as [-> _]|].
    split; [by eapply same_process_trans|]. rewrite Hdb5.
    split; [split; [by eexists|exact Hacc]|].
    eexists. unfold kv_rows. simpl. apply lookup_insert_eq.
  - eexists. split; [reflexivity|].
    assert (same_process w1 w3) as Hsp by (by eapply same_process_trans).
    split; [eapply same_process_healthy; [exact Hw1|exact Hsp|by rewrite Hdb3]|].
    split; [destruct Hsp as (_ & _ & _ & _ & _ & ->); done|].
    exists now. by rewrite Hdb3.
Qed.



(** A settings document with nested mappings, a list and an empty
    mapping. *)
Definition sample_document : Json.json :=
  Json.JObj
    [("basic", Json.JObj [("api_key", Json.JStr "k-1"); ("retries", Json.JNum 3)]);
     ("retry", Json.JObj []);
     ("tags", Json.JArr [Json.JStr "a b"; Json.JNull; Json.JBool true; Json.JNum (-7)])].




Example kv_round_trip_empty_document :
  fst ((db_set "stats" (Json.JObj []);; db_get "stats")
         (fresh_world (Some "postgres://db") [])) = Ret (Json.JObj []).
Proof. vm_compute. reflexivity. Qed.

(** * Pool creation and the schema bootstrap *)

(** The states a process can be in between calls of [_get_pool]: it
    starts with no pool and no lock, against any database, environment
    and oracle. *)
Definition initial (w : world) : Prop :=
  _db_pool w = None ∧ _db_pool_lock w = false ∧ txn_start w = None ∧
  pools_created w = 0%nat ∧ trace w = [].

Inductive reachable : world → Prop :=
  | reachable_initial w : initial w → reachable w
  | reachable_get_pool w r w' :
      reachable w → _get_pool w = (r, w') → reachable w'.

(** The database answers while the pool is created and the first table
    is made, and fails on [CREATE TABLE accounts]. *)
Definition bootstrap_failure_world : world :=
  fresh_world (Some "postgres://db") [false; false; false; true].

Definition after_bootstrap_failure : world :=
  Eval vm_compute in snd (_get_pool bootstrap_failure_world).

(** C3. The invariant fails on the code: [_get_pool] stores the pool in
    [_db_pool] before [_init_tables] runs, so when the bootstrap raises
    the process is left, between calls, with a non-null pool and no
    accounts table (and the line that reports the tables as initialized
    was never logged). *)
Theorem pool_published_before_bootstrap :
  fst (_get_pool bootstrap_failure_world) = Raise PostgresError ∧
  reachable after_bootstrap_failure ∧
  _db_pool after_bootstrap_failure = Some 0%nat ∧
  accounts (db after_bootstrap_failure) = None ∧
  (EvLog Info "[STORAGE] Database tables initialized" ∉ trace after_bootstrap_failure) ∧
  ¬ (∀ w, reachable w → is_Some (_db_pool w) → schema_ready (db w)).
Proof.
  assert (reachable after_bootstrap_failure) as Hreach.
  { apply (reachable_get_pool bootstrap_failure_world (Raise PostgresError)).
    - by apply reachable_initial.
    - vm_compute. reflexivity. }
  split_and!; try done.
  - vm_compute. intros H. repeat (apply elem_of_cons in H as [[=]|H]).
    by apply elem_of_nil in H.
  - intros Hinv. by destruct (Hinv _ Hreach) as [_ [? [=]]].
Qed.

(** C4. A bootstrap failure is cached: the next call of [_get_pool], with
    nothing failing any more, returns the pool of the failed creation
    without creating anything or running the bootstrap again, and the
    accounts cannot be loaded. *)
Theorem bootstrap_failure_is_cached :
  fst (_get_pool bootstrap_failure_world) = Raise PostgresError ∧
  faults after_bootstrap_failure = [] ∧
  _get_pool after_bootstrap_failure = (Ret (Some 0%nat), after_bootstrap_failure) ∧
  accounts (db after_bootstrap_failure) = None ∧
  fst (load_accounts after_bootstrap_failure) = Ret None.
Proof.
  split_and!.
  - vm_compute. reflexivity.
  - reflexivity.
  - vm_compute. reflexivity.
  - reflexivity.
  - vm_compute. reflexivity.
Qed.

(** Which exceptions the steps of a creation raise, and what they do to
    [_db_pool]. *)
Lemma import_asyncpg_run w r w' :
  import_asyncpg w = (r, w') →
  _db_pool w' = _db_pool w ∧ (r = Ret tt ∨ r = Raise ImportError).
Proof.
  unfold import_asyncpg. rewrite (bind_run get_world _ w w w eq_refl).
  destruct (driver_installed w); intros [= <- <-]; split; auto.
Qed.

Lemma create_pool_run url w r w' :
  create_pool url w = (r, w') →
  _db_pool w' = _db_pool w ∧ ((∃ p, r = Ret p) ∨ r = Raise ConnectError).
Proof.
  unfold create_pool, next_fault, mbind, M_bind.
  destruct (pop_fault w) as [b w1] eqn:Ef.
  assert (_db_pool w1 = _db_pool w) as Hp.
  { revert Ef. unfold pop_fault. by destruct (faults w); intros [= _ <-]. }
  destruct b; intros [= <- <-]; split; eauto.
Qed.

Definition statement_error (e : exn) : Prop :=
  e = PostgresError ∨ e = UndefinedTableError ∨ e = DataError ∨
  e = NotNullViolationError ∨ e = AttributeError.

Lemma sql_exec_raise now s d e : sql_exec now s d = Raise e → statement_error e.
Proof.
  unfold statement_error.
  destruct s; simpl; unfold sql_upsert_kv, sql_delete_accounts, sql_upsert_account;
    repeat case_match; intros [= <-]; auto.
Qed.

Lemma conn_run_raise {A} s (result : database → A) w e w' :
  conn_run s result w = (Raise e, w') → statement_error e.
Proof.
  rewrite conn_run_eq. destruct (pop_fault w) as [[|] w1].
  { intros [= <- _]. by left. }
  destruct (sql_exec _ s (db w1)) eqn:E; [done|].
  intros [= <- _]. by eapply sql_exec_raise.
Qed.

Lemma init_tables_raise p w e w' :
  _init_tables p w = (Raise e, w') → statement_error e.
Proof.
  unfold _init_tables. destruct p as [p|].
  2: { intros [= <- _]. unfold statement_error. auto. }
  rewrite with_connection_eq. destruct (pop_fault w) as [[|] w1].
  { intros [= <- _]. by left. }
  match goal with
  | |- context [let '(_, _) := ?b in _] => destruct b as [r2 w2] eqn:E
  end.
  intros H. apply release_inv in H as (failed & w3 & _ & _ & Hr).
  destruct failed; [injection Hr as ->; by left|]. subst r2.
  repeat (apply bind_inv in E as [([] & ? & _ & E)|(? & E0 & [= <-])];
          [|by eapply (conn_run_raise _ (λ _, tt))]).
  done.
Qed.

(** The failures that come before the pool exists are not cached: the
    pool stays unset, so the next call goes through the creation again. *)
Lemma creation_failure_not_cached w e w' :
  _db_pool w = None → _get_pool w = (Raise e, w') →
  e = ValueError ∨ e = ImportError ∨ e = ConnectError →
  _db_pool w' = None.
Proof.
  intros Hp H He. rewrite (get_pool_unpublished w Hp) in H. cbv zeta in H.
  set (w1 := if _db_pool_lock w then w else set_db_pool_lock true w) in *.
  assert (_db_pool w1 = None) as Hp1 by (subst w1; by destruct (_db_pool_lock w)).
  clearbody w1.
  destruct (String.eqb _ _); [by injection H as _ <-|].
  destruct (_get_pool_create _ w1) as [[[]|e1] w2] eqn:E; [done|].
  injection H as -> ->. revert E. unfold _get_pool_create.
  intros E. apply try_except_inv in E as [(? & _ & [=])|(e0 & w3 & Hbody & Hh)].
  assert (e0 = e ∧ _db_pool w' = _db_pool w3) as [-> ->].
  { by destruct e0; injection Hh as <- <-. }
  clear Hh.
  apply bind_inv in Hbody as [([] & w4 & Hi & Hbody)|(? & Hi & _)].
  2: { apply import_asyncpg_run in Hi as [-> _]. done. }
  apply import_asyncpg_run in Hi as [Hp4 _]. rewrite Hp1 in Hp4.
  apply bind_inv in Hbody as [(p & w5 & Hc & Hbody)|(? & Hc & _)].
  2: { apply create_pool_run in Hc as [-> _]. done. }
  exfalso.
  apply bind_inv in Hbody as [([] & w6 & _ & Hbody)|(? & [=] & _)].
  apply bind_inv in Hbody as [(w7 & w8 & _ & Hbody)|(? & [=] & _)].
  apply bind_inv in Hbody as [([] & w9 & _ & [=])|(e' & Hinit & [= <-])].
  apply init_tables_raise in Hinit. unfold statement_error in Hinit.
  naive_solver.
Qed.

(** * Concurrent first use

    The sequential definitions above run each function from start to
    end.  The two modules below interleave the callers: threads inside
    [_ensure_db_loop], one global read or write per step, and coroutines
    inside [_get_pool] on the worker's loop, one step per stretch of code
    between two [await]s. *)

Module WorkerLoop.

(** Where a thread is inside [_ensure_db_loop]. *)
Inductive pc : Type :=
  | Idle                          (* has not called yet *)
  | Check1                        (* line 38: reads _db_loop *)
  | Check2                        (* line 38: reads _db_thread *)
  | Check3                        (* line 38: reads _db_thread, calls is_alive *)
  | FastReturn                    (* line 39: reads _db_loop and returns it *)
  | Acquire                       (* line 40: waits for _db_loop_lock *)
  | Recheck1                      (* line 41, under the lock *)
  | Recheck2
  | Recheck3
  | LockedReturn                  (* line 42 *)
  | NewLoop                       (* line 43: asyncio.new_event_loop() *)
  | StartThread (loop : nat)      (* lines 49-50: Thread(...), thread.start() *)
  | SetLoop (loop thread : nat)   (* line 51: _db_loop = loop *)
  | SetThread (loop thread : nat) (* line 52: _db_thread = thread *)
  | FinalReturn                   (* line 53 *)
  | Returned (loop : option nat)
  | Raised.

#[global] Instance pc_eq_dec : EqDecision pc.
Proof. solve_decision. Defined.

(** The globals, the lock with its holder, and how many loops and worker
    threads were constructed so far; loops and threads are named by
    their rank of construction. *)
Record state : Type := State {
  db_loop : option nat;
  db_thread : option nat;
  lock : option nat;
  loops_created : nat;
  threads_started : nat;
  pcs : nat → pc }.

Definition initial : state := State None None None 0 0 (λ _, Idle).

Definition goto (tid : nat) (p : pc) (s : state) : state :=
  State (db_loop s) (db_thread s) (lock s) (loops_created s) (threads_started s)
        (λ t, if decide (t = tid) then p else pcs s t).

Definition set_lock (v : option nat) (s : state) : state :=
  State (db_loop s) (db_thread s) v (loops_created s) (threads_started s) (pcs s).

(** [thread.is_alive()]: the worker runs [loop.run_forever()] and nothing
    stops the loop, so a thread that was started is alive. *)
Definition is_alive (thread : nat) (s : state) : bool :=
  bool_decide (thread < threads_started s)%nat.

(** One step of thread [tid]; [None] when it cannot move (it has returned,
    or it waits for a lock that is held). *)
Definition step (tid : nat) (s : state) : option state :=
  match pcs s tid with
  | Idle => Some (goto tid Check1 s)
  | Check1 =>
      Some (goto tid (if db_loop s is Some _ then Check2 else Acquire) s)
  | Check2 =>
      Some (goto tid (if db_thread s is Some _ then Check3 else Acquire) s)
  | Check3 =>
      match db_thread s with
      | Some t => Some (goto tid (if is_alive t s then FastReturn else Acquire) s)
      | None => Some (goto tid Raised s)
      end
  | FastReturn => Some (goto tid (Returned (db_loop s)) s)
  | Acquire =>
      match lock s with
      | None => Some (goto tid Recheck1 (set_lock (Some tid) s))
      | Some _ => None
      end
  | Recheck1 =>
      Some (goto tid (if db_loop s is Some _ then Recheck2 else NewLoop) s)
  | Recheck2 =>
      Some (goto tid (if db_thread s is Some _ then Recheck3 else NewLoop) s)
  | Recheck3 =>
      match db_thread s with
      | Some t => Some (goto tid (if is_alive t s then LockedReturn else NewLoop) s)
      | None => Some (goto tid Raised (set_lock None s))
      end
  | LockedReturn => Some (goto tid (Returned (db_loop s)) (set_lock None s))
  | NewLoop =>
      Some (goto tid (StartThread (loops_created s))
              (State (db_loop s) (db_thread s) (lock s) (S (loops_created s))
                     (threads_started s) (pcs s)))
  | StartThread l =>
      Some (goto tid (SetLoop l (threads_started s))
              (State (db_loop s) (db_thread s) (lock s) (loops_created s)
                     (S (threads_started s)) (pcs s)))
  | SetLoop l t =>
      Some (goto tid (SetThread l t)
              (State (Some l) (db_thread s) (lock s) (loops_created s)
                     (threads_started s) (pcs s)))
  | SetThread l t =>
      Some (goto tid FinalReturn
              (State (db_loop s) (Some t) (lock s) (loops_created s)
                     (threads_started s) (pcs s)))
  | FinalReturn => Some (goto tid (Returned (db_loop s)) (set_lock None s))
  | Returned _ | Raised => None
  end.

(** The states some schedule of the threads leads to. *)
Inductive reachable : state → Prop :=
  | reachable_initial : reachable initial
  | reachable_step tid s s' : reachable s → step tid s = Some s' → reachable s'.

(** Running a schedule, a list of thread ids. *)
Fixpoint run (schedule : list nat) (s : state) : option state :=
  match schedule with
  | [] => Some s
  | tid :: rest =>
      match step tid s with
      | Some s' => run rest s'
      | None => None
      end
  end.

Definition holds_lock (p : pc) : bool :=
  match p with
  | Recheck1 | Recheck2 | Recheck3 | LockedReturn | NewLoop
  | StartThread _ | SetLoop _ _ | SetThread _ _ | FinalReturn => true
  | _ => false
  end.

(** What a thread knows at each point of the function. *)
Definition pc_inv (s : state) (p : pc) : Prop :=
  match p with
  | Check2 | Recheck2 => db_loop s = Some 0%nat
  | Check3 | Recheck3 | FastReturn | LockedReturn | FinalReturn =>
      db_thread s = Some 0%nat
  | NewLoop => loops_created s = 0%nat
  | StartThread l =>
      l = 0%nat ∧ loops_created s = 1%nat ∧ threads_started s = 0%nat ∧
      db_loop s = None ∧ db_thread s = None
  | SetLoop l t =>
      l = 0%nat ∧ t = 0%nat ∧ loops_created s = 1%nat ∧ threads_started s = 1%nat ∧
      db_loop s = None ∧ db_thread s = None
  | SetThread l t =>
      l = 0%nat ∧ t = 0%nat ∧ loops_created s = 1%nat ∧ threads_started s = 1%nat ∧
      db_loop s = Some 0%nat ∧ db_thread s = None
  | Returned r => r = Some 0%nat ∧ db_thread s = Some 0%nat
  | Raised => False
  | _ => True
  end.

Definition creating (p : pc) : bool :=
  match p with
  | StartThread _ | SetLoop _ _ | SetThread _ _ => true
  | _ => false
  end.

Record invariant (s : state) : Prop := Invariant {
  inv_counts : (threads_started s ≤ loops_created s ∧ loops_created s ≤ 1)%nat;
  inv_loop : db_loop s = None ∨ db_loop s = Some 0%nat;
  inv_thread : db_thread s = None ∨ db_thread s = Some 0%nat;
  inv_thread_loop : db_thread s = Some 0%nat → db_loop s = Some 0%nat;
  inv_loop_started : db_loop s = Some 0%nat → threads_started s = 1%nat;
  inv_lock : ∀ tid, holds_lock (pcs s tid) = true ↔ lock s = Some tid;
  inv_pc : ∀ tid, pc_inv s (pcs s tid);
  inv_created : loops_created s = 1%nat →
                db_thread s = Some 0%nat ∨ ∃ tid, creating (pcs s tid) = true }.

Lemma worker_initial_invariant : invariant initial.
Proof.
  split; simpl; auto; try lia; try done.
Qed.

(** What the threads outside the lock know survives the writes of its
    holder, which only ever turn [None] into the first loop or thread. *)
Lemma pc_inv_outside s s' p :
  holds_lock p = false → pc_inv s p →
  (db_loop s = Some 0%nat → db_loop s' = Some 0%nat) →
  (db_thread s = Some 0%nat → db_thread s' = Some 0%nat) →
  pc_inv s' p.
Proof. destruct p; simpl; try done; naive_solver. Qed.

Lemma worker_pc_inv_same s s' p :
  db_loop s' = db_loop s → db_thread s' = db_thread s →
  loops_created s' = loops_created s → threads_started s' = threads_started s →
  pc_inv s p → pc_inv s' p.
Proof. intros H1 H2 H3 H4. destruct p; simpl; rewrite ?H1, ?H2, ?H3, ?H4; done. Qed.

Lemma goto_pcs_eq tid p s : pcs (goto tid p s) tid = p.
Proof. simpl. by rewrite decide_True. Qed.

Lemma goto_pcs_ne tid p s t : t ≠ tid → pcs (goto tid p s) t = pcs s t.
Proof. intros H. simpl. by rewrite decide_False. Qed.

(** Only the holder of the lock is at a point under the lock. *)
Lemma outside_lock s tid t :
  invariant s → holds_lock (pcs s tid) = true → t ≠ tid →
  holds_lock (pcs s t) = false.
Proof.
  intros Hinv Htid Hne. destruct (holds_lock (pcs s t)) eqn:E; [|done].
  apply (inv_lock s Hinv) in Htid, E. congruence.
Qed.

(** A step that writes no global: thread [tid] moves to [p] and the
    lock becomes [v]. *)
Lemma worker_invariant_move tid p v s :
  invariant s →
  creating (pcs s tid) = false →
  (holds_lock p = true ↔ v = Some tid) →
  (∀ t, t ≠ tid → holds_lock (pcs s t) = true ↔ v = Some t) →
  pc_inv s p →
  invariant (State (db_loop s) (db_thread s) v (loops_created s) (threads_started s)
               (λ t, if decide (t = tid) then p else pcs s t)).
Proof.
  intros [Hc Hl Ht Htl Hls Hlock Hpc Hcr] Hncr Hp Hothers Hpinv.
  split; simpl; try done.
  - intros t. destruct (decide (t = tid)) as [->|Hne]; [done|by apply Hothers].
  - intros t. destruct (decide (t = tid)) as [->|Hne].
    + by eapply worker_pc_inv_same; [..|exact Hpinv].
    + by eapply worker_pc_inv_same; [..|exact (Hpc t)].
  - intros H1. destruct (Hcr H1) as [?|[t Hcrt]]; [by left|right].
    exists t. rewrite decide_False; [done|]. intros ->. congruence.
Qed.

(** A step of the holder of the lock that writes a global and keeps the
    lock. *)
Lemma invariant_write tid p s s' :
  invariant s →
  holds_lock (pcs s tid) = true → holds_lock p = true →
  lock s' = lock s →
  pcs s' = (λ t, if decide (t = tid) then p else pcs s t) →
  (threads_started s' ≤ loops_created s' ∧ loops_created s' ≤ 1)%nat →
  (db_loop s' = None ∨ db_loop s' = Some 0%nat) →
  (db_thread s' = None ∨ db_thread s' = Some 0%nat) →
  (db_thread s' = Some 0%nat → db_loop s' = Some 0%nat) →
  (db_loop s' = Some 0%nat → threads_started s' = 1%nat) →
  (db_loop s = Some 0%nat → db_loop s' = Some 0%nat) →
  (db_thread s = Some 0%nat → db_thread s' = Some 0%nat) →
  pc_inv s' p →
  (loops_created s' = 1%nat → db_thread s' = Some 0%nat ∨ creating p = true) →
  invariant s'.
Proof.
  intros Hinv Hheld Hp Hlk Hpcs Hc' Hl' Ht' Htl' Hls' Hml Hmt Hpinv Hcr'.
  pose proof (λ t, outside_lock s tid t Hinv Hheld) as Hout.
  destruct Hinv as [Hc Hl Ht Htl Hls Hlock Hpc Hcr].
  split; try done.
  - intros t. rewrite Hpcs, Hlk. destruct (decide (t = tid)) as [->|Hne].
    + rewrite <- Hlock. by rewrite Hheld, Hp.
    + apply Hlock.
  - intros t. rewrite Hpcs. destruct (decide (t = tid)) as [->|Hne]; [done|].
    eapply pc_inv_outside; [by apply Hout|apply Hpc|done|done].
  - intros H1. destruct (Hcr' H1) as [?|Hcrp]; [by left|right].
    exists tid. rewrite Hpcs. by rewrite decide_True.
Qed.

Lemma worker_invariant_step tid s s' :
  invariant s → step tid s = Some s' → invariant s'.
Proof.
  intros Hinv Hstep.
  pose proof (inv_pc s Hinv tid) as Hme.
  pose proof (inv_lock s Hinv) as Hlock.
  pose proof (inv_counts s Hinv) as Hc.
  pose proof (inv_loop s Hinv) as Hl.
  pose proof (inv_thread s Hinv) as Ht.
  pose proof (inv_thread_loop s Hinv) as Htl.
  pose proof (inv_loop_started s Hinv) as Hls.
  pose proof (inv_created s Hinv) as Hcr.
  pose proof (λ t, outside_lock s tid t Hinv) as Hout.
  assert (holds_lock (pcs s tid) = true → loops_created s = 1%nat →
          db_thread s = Some 0%nat ∨ creating (pcs s tid) = true) as Hmine.
  { intros Hheld H1. destruct (Hcr H1) as [?|[t Hcrt]]; [by left|right].
    destruct (decide (t = tid)) as [->|Hne]; [done|].
    specialize (Hout t Hheld Hne). by destruct (pcs s t). }
  unfold step in Hstep.
  destruct (pcs s tid) eqn:Epc; simpl in Hme, Hmine.
  - (* Idle *)
    injection Hstep as <-. apply (worker_invariant_move tid Check1 (lock s) s); try done.
    + by rewrite Epc.
    + by rewrite <- (Hlock tid), Epc.
  - (* Check1 *)
    injection Hstep as <-.
    apply (worker_invariant_move tid (if db_loop s is Some _ then Check2 else Acquire)
             (lock s) s); try done.
    + by rewrite Epc.
    + rewrite <- (Hlock tid), Epc. by destruct (db_loop s).
    + destruct Hl as [E|E]; rewrite E; done.
  - (* Check2 *)
    injection Hstep as <-.
    apply (worker_invariant_move tid (if db_thread s is Some _ then Check3 else Acquire)
             (lock s) s); try done.
    + by rewrite Epc.
    + rewrite <- (Hlock tid), Epc. by destruct (db_thread s).
    + destruct Ht as [E|E]; rewrite E; done.
  - (* Check3 *)
    rewrite Hme in Hstep. injection Hstep as <-.
    apply (worker_invariant_move tid (if is_alive 0 s then FastReturn else Acquire)
             (lock s) s); try done.
    + by rewrite Epc.
    + rewrite <- (Hlock tid), Epc. by destruct (is_alive 0 s).
    + by destruct (is_alive 0 s).
  - (* FastReturn *)
    injection Hstep as <-.
    apply (worker_invariant_move tid (Returned (db_loop s)) (lock s) s); try done.
    + by rewrite Epc.
    + by rewrite <- (Hlock tid), Epc.
    + simpl. by rewrite (Htl Hme).
  - (* Acquire *)
    destruct (lock s) as [holder|] eqn:Elock; [done|]. injection Hstep as <-.
    apply (worker_invariant_move tid Recheck1 (Some tid) s); try done.
    + by rewrite Epc.
    + intros t Hne. rewrite (Hlock t). split; [done|congruence].
  - (* Recheck1 *)
    injection Hstep as <-.
    apply (worker_invariant_move tid (if db_loop s is Some _ then Recheck2 else NewLoop)
             (lock s) s); try done.
    + by rewrite Epc.
    + rewrite <- (Hlock tid), Epc. by destruct (db_loop s).
    + destruct Hl as [Hnone|E]; [|by rewrite E]. rewrite Hnone. simpl.
      destruct (decide (loops_created s = 1%nat)) as [H1|]; [|lia].
      destruct (Hmine eq_refl H1) as [Hth|]; [|done]. apply Htl in Hth. congruence.
  - (* Recheck2 *)
    injection Hstep as <-.
    apply (worker_invariant_move tid (if db_thread s is Some _ then Recheck3 else NewLoop)
             (lock s) s); try done.
    + by rewrite Epc.
    + rewrite <- (Hlock tid), Epc. by destruct (db_thread s).
    + destruct Ht as [Hnone|E]; [|by rewrite E]. rewrite Hnone. simpl.
      destruct (decide (loops_created s = 1%nat)) as [H1|]; [|lia].
      destruct (Hmine eq_refl H1) as [Hth|]; [congruence|done].
  - (* Recheck3 *)
    rewrite Hme in Hstep. injection Hstep as <-.
    assert (is_alive 0 s = true) as ->.
    { unfold is_alive. apply bool_decide_eq_true. rewrite (Hls (Htl Hme)). lia. }
    apply (worker_invariant_move tid LockedReturn (lock s) s); try done.
    + by rewrite Epc.
    + by rewrite <- (Hlock tid), Epc.
  - (* LockedReturn *)
    injection Hstep as <-.
    apply (worker_invariant_move tid (Returned (db_loop s)) None s); try done.
    + by rewrite Epc.
    + intros t Hne. rewrite (Hout t eq_refl Hne). done.
    + simpl. by rewrite (Htl Hme).
  - (* NewLoop *)
    injection Hstep as <-.
    assert (db_loop s = None ∧ db_thread s = None) as [Hln Htn].
    { split.
      - destruct Hl as [?|Hsome]; [done|]. apply Hls in Hsome. lia.
      - destruct Ht as [?|Hsome]; [done|]. apply Htl, Hls in Hsome. lia. }
    eapply (invariant_write tid (StartThread (loops_created s)) s); try done;
      simpl; rewrite ?Epc; try done; try lia; naive_solver lia.
  - (* StartThread *)
    injection Hstep as <-. destruct Hme as (-> & H1 & H0 & Hln & Htn).
    eapply (invariant_write tid (SetLoop 0 (threads_started s)) s); try done;
      simpl; rewrite ?Epc; try done; try lia; naive_solver lia.
  - (* SetLoop *)
    injection Hstep as <-. destruct Hme as (-> & -> & H1 & H0 & Hln & Htn).
    eapply (invariant_write tid (SetThread 0 0) s); try done;
      simpl; rewrite ?Epc; try done; try lia; naive_solver lia.
  - (* SetThread *)
    injection Hstep as <-. destruct Hme as (-> & -> & H1 & H0 & Hls1 & Htn).
    eapply (invariant_write tid FinalReturn s); try done;
      simpl; rewrite ?Epc; try done; try lia; naive_solver lia.
  - (* FinalReturn *)
    injection Hstep as <-.
    apply (worker_invariant_move tid (Returned (db_loop s)) None s); try done.
    + by rewrite Epc.
    + intros t Hne. rewrite (Hout t eq_refl Hne). done.
    + simpl. by rewrite (Htl Hme).
  - done.
  - done.
Qed.

Lemma worker_reachable_invariant s : reachable s → invariant s.
Proof.
  induction 1 as [|tid s s' _ IH Hstep]; [apply worker_initial_invariant|].
  by eapply worker_invariant_step.
Qed.

(** No deadlock: whenever a thread has not finished, some thread can
    move. *)
Definition finished (p : pc) : bool :=
  match p with
  | Returned _ | Raised => true
  | _ => false
  end.

Lemma worker_progress s tid :
  reachable s → finished (pcs s tid) = false → ∃ t, is_Some (step t s).
Proof.
  intros Hr Hfin. apply worker_reachable_invariant in Hr.
  destruct (lock s) as [holder|] eqn:Elock.
  - exists holder. apply (inv_lock s Hr) in Elock. unfold step.
    destruct (pcs s holder); try done; repeat case_match; by eexists.
  - exists tid. unfold step. rewrite Elock.
    destruct (pcs s tid); try done; repeat case_match; by eexists.
Qed.

Lemma worker_run_reachable schedule s s' :
  reachable s → run schedule s = Some s' → reachable s'.
Proof.
  revert s. induction schedule as [|tid rest IH]; intros s Hr; simpl.
  { by intros [= <-]. }
  destruct (step tid s) as [s1|] eqn:E; [|done].
  apply IH. by eapply reachable_step.
Qed.

(** How far a thread is from the end of the function: every step it takes
    brings it closer, so no thread can be scheduled for ever. *)
Definition rank (p : pc) : nat :=
  match p with
  | Idle => 13
  | Check1 => 12
  | Check2 => 11
  | Check3 => 10
  | Acquire => 9
  | Recheck1 => 8
  | Recheck2 => 7
  | Recheck3 => 6
  | NewLoop => 5
  | StartThread _ => 4
  | SetLoop _ _ => 3
  | SetThread _ _ => 2
  | FastReturn | LockedReturn | FinalReturn => 1
  | Returned _ | Raised => 0
  end.

Lemma worker_step_rank tid s s' :
  step tid s = Some s' → (rank (pcs s' tid) < rank (pcs s tid))%nat.
Proof.
  unfold step. destruct (pcs s tid) eqn:E; repeat case_match;
    intros [= <-]; rewrite ?goto_pcs_eq; simpl; lia.
Qed.

(** A step moves the thread that takes it and no other. *)
Lemma worker_step_others tid s s' t :
  step tid s = Some s' → t ≠ tid → pcs s' t = pcs s t.
Proof.
  intros H Hne. unfold step in H.
  destruct (pcs s tid); repeat case_match; try done;
    injection H as <-; by rewrite goto_pcs_ne.
Qed.

Lemma worker_step_lock tid s s' :
  step tid s = Some s' →
  lock s = None ∨ lock s = Some tid → lock s' = None ∨ lock s' = Some tid.
Proof.
  intros H Hl. unfold step in H.
  destruct (pcs s tid); repeat case_match; try done;
    injection H as <-; simpl; auto.
Qed.

(** A thread that does not wait for another one's lock can move until it
    has finished. *)
Lemma worker_step_enabled tid s :
  invariant s → lock s = None ∨ lock s = Some tid →
  finished (pcs s tid) = false → is_Some (step tid s).
Proof.
  intros Hinv Hl Hfin.
  assert (pcs s tid = Acquire → lock s = None) as Hacq.
  { intros E. destruct Hl as [?|Hl]; [done|].
    apply (inv_lock s Hinv) in Hl. by rewrite E in Hl. }
  unfold step. destruct (pcs s tid) eqn:E; try done;
    try (rewrite Hacq by done); repeat case_match; by eexists.
Qed.

Lemma worker_run_app l1 l2 s :
  run (l1 ++ l2)%list s = run l1 s ≫= run l2.
Proof.
  revert s. induction l1 as [|tid l1 IH]; intros s; simpl; [done|].
  destruct (step tid s); [apply IH|done].
Qed.

(** Scheduled alone, a thread that does not wait for another one's lock
    runs to its end. *)
Lemma worker_drive tid s :
  invariant s → lock s = None ∨ lock s = Some tid →
  ∃ n s', run (replicate n tid) s = Some s' ∧ invariant s' ∧
          finished (pcs s' tid) = true ∧ (lock s' = None ∨ lock s' = Some tid).
Proof.
  remember (rank (pcs s tid)) as k eqn:Hk. revert s Hk.
  induction k as [k IH] using lt_wf_ind. intros s -> Hinv Hl.
  destruct (finished (pcs s tid)) eqn:Hfin.
  { by exists 0%nat, s. }
  destruct (worker_step_enabled tid s Hinv Hl Hfin) as [s1 Hs1].
  destruct (IH _ (worker_step_rank _ _ _ Hs1) s1 eq_refl) as (n & s' & Hrun & H');
    [by eapply worker_invariant_step|by eapply worker_step_lock|].
  exists (S n), s'. simpl. by rewrite Hs1.
Qed.

(** Every caller can be brought to its return, and it then holds the one
    loop, whose worker thread is alive: once the holder of the lock, if
    there is one, has run to its end, the caller runs to its own. *)
Lemma worker_returns s tid :
  reachable s →
  ∃ schedule s',
    run schedule s = Some s' ∧ pcs s' tid = Returned (Some 0%nat) ∧
    loops_created s' = 1%nat ∧ threads_started s' = 1%nat ∧
    db_loop s' = Some 0%nat ∧ db_thread s' = Some 0%nat ∧ is_alive 0 s' = true.
Proof.
  intros Hr. pose proof (worker_reachable_invariant s Hr) as Hinv.
  assert (∃ sch s1, run sch s = Some s1 ∧ invariant s1 ∧
                    (lock s1 = None ∨ lock s1 = Some tid))
    as (sch & s1 & Hrun1 & Hinv1 & Hl1).
  { destruct (lock s) as [h|] eqn:El; [|exists [], s; auto].
    destruct (decide (h = tid)) as [->|Hne]; [exists [], s; auto|].
    destruct (worker_drive h s Hinv) as (n & s1 & Hrun & Hinv1 & Hfin & Hl); [auto|].
    exists (replicate n h), s1. split; [done|]. split; [done|]. left.
    destruct Hl as [?|Hl]; [done|]. apply (inv_lock s1 Hinv1) in Hl.
    by destruct (pcs s1 h). }
  destruct (worker_drive tid s1 Hinv1 Hl1) as (n & s2 & Hrun2 & Hinv2 & Hfin & _).
  exists (sch ++ replicate n tid)%list, s2. rewrite worker_run_app, Hrun1.
  split; [exact Hrun2|].
  pose proof (inv_pc s2 Hinv2 tid) as Hpc.
  destruct (pcs s2 tid); try done. simpl in Hpc. destruct Hpc as [-> Hth].
  pose proof (inv_thread_loop s2 Hinv2 Hth) as Hloop.
  pose proof (inv_loop_started s2 Hinv2 Hloop) as Hstarted.
  pose proof (inv_counts s2 Hinv2) as Hc.
  split_and!; try done; [lia|].
  unfold is_alive. apply bool_decide_eq_true. lia.
Qed.

(** Two threads race through the first call: the second finds the lock
    held, waits, and returns the loop the first one made. *)
Example two_threads_one_worker :
  (λ s, (loops_created s, threads_started s, pcs s 0%nat, pcs s 1%nat)) <$>
    run [0; 1; 0; 1; 0; 0; 0; 0; 0; 0; 0; 1; 1; 1; 1; 1]%nat initial
  = Some (1%nat, 1%nat, Returned (Some 0%nat), Returned (Some 0%nat)).
Proof. vm_compute. reflexivity. Qed.

End WorkerLoop.


Module PoolInit.

(** Where a coroutine is inside [_get_pool]; it can only be suspended at
    an [await]. *)
Inductive pc : Type :=
  | Idle                      (* has not been started yet *)
  | WaitLock                  (* line 69: suspended in the lock's acquire *)
  | CreatePool                (* line 77: awaits asyncpg.create_pool, holds the lock *)
  | InitTables (awaited : nat)
      (* line 83: awaits step [awaited] of _init_tables (the connection,
         then the four statements); the pool is already in _db_pool *)
  | Returned (pool : option nat)
  | Failed (e : exn).

(** The globals, the lock and its holder, the number of pools that
    [create_pool] returned, and the configuration. *)
Record state : Type := State {
  configured : bool;          (* DATABASE_URL is not empty *)
  driver : bool;              (* asyncpg can be imported *)
  db_pool : option nat;
  lock_created : bool;
  lock_holder : option nat;
  pools_created : nat;
  pcs : nat → pc }.

Definition initial (url_set asyncpg : bool) : state :=
  State url_set asyncpg None false None 0 (λ _, Idle).

Definition goto (c : nat) (p : pc) (s : state) : state :=
  State (configured s) (driver s) (db_pool s) (lock_created s) (lock_holder s)
        (pools_created s) (λ t, if decide (t = c) then p else pcs s t).

Definition set_holder (v : option nat) (s : state) : state :=
  State (configured s) (driver s) (db_pool s) true v (pools_created s) (pcs s).

(** Lines 70-82, entered with the lock just acquired: up to the first
    [await], or to the exit of the [async with]. *)
Definition locked_section (c : nat) (s : state) : state :=
  match db_pool s with
  | Some p => goto c (Returned (Some p)) (set_holder None s)
  | None =>
      if negb (configured s) then goto c (Failed ValueError) (set_holder None s)
      else if negb (driver s) then goto c (Failed ImportError) (set_holder None s)
      else goto c CreatePool s
  end.

(** The next stretch of coroutine [c]; [ok] tells whether the operation
    it was awaiting succeeded.  A coroutine that has not been started
    takes the lock when it is free (an asyncio lock is acquired without
    suspension then) and waits otherwise. *)
Definition step (c : nat) (ok : bool) (s : state) : option state :=
  match pcs s c with
  | Idle =>
      match db_pool s with
      | Some p => Some (goto c (Returned (Some p)) s)
      | None =>
          match lock_holder s with
          | None => Some (locked_section c (set_holder (Some c) s))
          | Some h => Some (goto c WaitLock (set_holder (Some h) s))
          end
      end
  | WaitLock =>
      match lock_holder s with
      | None => Some (locked_section c (set_holder (Some c) s))
      | Some _ => None
      end
  | CreatePool =>
      if ok then
        Some (goto c (InitTables 0)
                (State (configured s) (driver s) (Some (pools_created s))
                       (lock_created s) (lock_holder s) (S (pools_created s)) (pcs s)))
      else Some (goto c (Failed ConnectError) (set_holder None s))
  | InitTables k =>
      if ok then
        if (k <? 4)%nat then Some (goto c (InitTables (S k)) s)
        else Some (goto c (Returned (db_pool s)) (set_holder None s))
      else Some (goto c (Failed PostgresError) (set_holder None s))
  | Returned _ | Failed _ => None
  end.

Inductive reachable : state → Prop :=
  | reachable_initial url_set asyncpg : reachable (initial url_set asyncpg)
  | reachable_step c ok s s' : reachable s → step c ok s = Some s' → reachable s'.

Fixpoint run (schedule : list (nat * bool)) (s : state) : option state :=
  match schedule with
  | [] => Some s
  | (c, ok) :: rest =>
      match step c ok s with
      | Some s' => run rest s'
      | None => None
      end
  end.

Definition holds_lock (p : pc) : bool :=
  match p with
  | CreatePool | InitTables _ => true
  | _ => false
  end.

Definition pc_inv (s : state) (p : pc) : Prop :=
  match p with
  | CreatePool => db_pool s = None
  | InitTables _ => db_pool s = Some 0%nat
  | Returned r => r = Some 0%nat ∧ db_pool s = Some 0%nat
  | _ => True
  end.

Record invariant (s : state) : Prop := Invariant {
  inv_pool : (db_pool s = None ∧ pools_created s = 0%nat) ∨
             (db_pool s = Some 0%nat ∧ pools_created s = 1%nat);
  inv_lock : ∀ c, holds_lock (pcs s c) = true ↔ lock_holder s = Some c;
  inv_pc : ∀ c, pc_inv s (pcs s c) }.

Lemma pool_initial_invariant url_set asyncpg : invariant (initial url_set asyncpg).
Proof. split; simpl; auto; done. Qed.

Lemma pool_pc_inv_same s s' p :
  db_pool s' = db_pool s → pc_inv s p → pc_inv s' p.
Proof. intros H. destruct p; simpl; by rewrite ?H. Qed.

(** Coroutine [c] moves to [p], no global but the lock is written. *)
Lemma pool_invariant_move c p s s' :
  invariant s →
  db_pool s' = db_pool s → pools_created s' = pools_created s →
  pcs s' = (λ t, if decide (t = c) then p else pcs s t) →
  (holds_lock p = true ↔ lock_holder s' = Some c) →
  (∀ t, t ≠ c → holds_lock (pcs s t) = true ↔ lock_holder s' = Some t) →
  pc_inv s p →
  invariant s'.
Proof.
  intros [Hp Hlock Hpc] Hpool Hcount Hpcs Hheld Hothers Hpinv. split.
  - by rewrite Hpool, Hcount.
  - intros t. rewrite Hpcs. destruct (decide (t = c)) as [->|Hne]; [done|].
    by apply Hothers.
  - intros t. rewrite Hpcs. destruct (decide (t = c)) as [->|Hne].
    + by eapply pool_pc_inv_same; [|exact Hpinv].
    + by eapply pool_pc_inv_same; [|exact (Hpc t)].
Qed.

Lemma locked_section_invariant c lc s :
  invariant s → lock_holder s = None →
  invariant (locked_section c
               (State (configured s) (driver s) (db_pool s) lc (Some c)
                      (pools_created s) (pcs s))).
Proof.
  intros Hinv Hfree. pose proof (inv_lock s Hinv) as Hlock.
  pose proof (inv_pool s Hinv) as Hp.
  assert (∀ t, holds_lock (pcs s t) = false) as Hnone.
  { intros t. destruct (holds_lock (pcs s t)) eqn:E; [|done].
    apply Hlock in E. congruence. }
  unfold locked_section. simpl.
  destruct (db_pool s) as [p|] eqn:Epool.
  { apply (pool_invariant_move c (Returned (Some p)) s); try done.
    - intros t _. by rewrite Hnone.
    - simpl. naive_solver. }
  destruct (negb (configured s)).
  { apply (pool_invariant_move c (Failed ValueError) s); try done.
    intros t _. by rewrite Hnone. }
  destruct (negb (driver s)).
  { apply (pool_invariant_move c (Failed ImportError) s); try done.
    intros t _. by rewrite Hnone. }
  apply (pool_invariant_move c CreatePool s); try done.
  intros t Hne. rewrite Hnone. simpl. split; [done|congruence].
Qed.

Lemma pool_invariant_step c ok s s' :
  invariant s → step c ok s = Some s' → invariant s'.
Proof.
  intros Hinv Hstep.
  pose proof (inv_pc s Hinv c) as Hme.
  pose proof (inv_lock s Hinv) as Hlock.
  pose proof (inv_pool s Hinv) as Hp.
  assert (holds_lock (pcs s c) = true → ∀ t, t ≠ c → holds_lock (pcs s t) = false)
    as Hout.
  { intros Hheld t Hne. destruct (holds_lock (pcs s t)) eqn:E; [|done].
    apply Hlock in Hheld, E. congruence. }
  unfold step in Hstep.
  destruct (pcs s c) eqn:Epc; simpl in Hme, Hout.
  - (* Idle *)
    destruct (db_pool s) as [p|] eqn:Epool.
    { injection Hstep as <-.
      apply (pool_invariant_move c (Returned (Some p)) s); try done.
      - simpl. by rewrite <- (Hlock c), Epc.
      - simpl. naive_solver. }
    destruct (lock_holder s) as [h|] eqn:Eh; injection Hstep as <-.
    + apply (pool_invariant_move c WaitLock s); try done.
      simpl. by rewrite <- (Hlock c), Epc.
    + by apply (locked_section_invariant c true s).
  - (* WaitLock *)
    destruct (lock_holder s) as [h|] eqn:Eh; [done|]. injection Hstep as <-.
    by apply (locked_section_invariant c true s).
  - (* CreatePool *)
    destruct ok; injection Hstep as <-.
    + destruct Hp as [[_ H0]|[? _]]; [|congruence].
      split; simpl.
      * right. by rewrite H0.
      * intros t. destruct (decide (t = c)) as [->|Hne].
        -- by rewrite <- (Hlock c), Epc.
        -- apply Hlock.
      * intros t. destruct (decide (t = c)) as [->|Hne]; simpl; [by rewrite H0|].
        pose proof (inv_pc s Hinv t) as Ht. specialize (Hout eq_refl t Hne).
        destruct (pcs s t); simpl in *; try done. naive_solver.
    + apply (pool_invariant_move c (Failed ConnectError) s); try done.
      intros t Hne. by rewrite (Hout eq_refl t Hne).
  - (* InitTables *)
    destruct ok; [destruct (awaited <? 4)%nat|]; injection Hstep as <-.
    + apply (pool_invariant_move c (InitTables (S awaited)) s); try done.
      simpl. by rewrite <- (Hlock c), Epc.
    + apply (pool_invariant_move c (Returned (db_pool s)) s); try done.
      intros t Hne. by rewrite (Hout eq_refl t Hne).
    + apply (pool_invariant_move c (Failed PostgresError) s); try done.
      intros t Hne. by rewrite (Hout eq_refl t Hne).
  - done.
  - done.
Qed.

Lemma pool_reachable_invariant s : reachable s → invariant s.
Proof.
  induction 1 as [|c ok s s' _ IH Hstep]; [apply pool_initial_invariant|].
  by eapply pool_invariant_step.
Qed.

Definition finished (p : pc) : bool :=
  match p with
  | Returned _ | Failed _ => true
  | _ => false
  end.

(** No deadlock: while a coroutine has not finished, some coroutine can
    run. *)
Lemma pool_progress s c :
  reachable s → finished (pcs s c) = false → ∃ t, is_Some (step t true s).
Proof.
  intros Hr Hfin. apply pool_reachable_invariant in Hr.
  destruct (lock_holder s) as [holder|] eqn:Elock.
  - exists holder. apply (inv_lock s Hr) in Elock. unfold step.
    destruct (pcs s holder); try done; repeat case_match; by eexists.
  - exists c. unfold step. rewrite Elock.
    destruct (pcs s c); try done; repeat case_match; by eexists.
Qed.

(** Three coroutines start together: the first creates the pool and
    bootstraps the schema, the second waits for the lock, the third is
    started once the pool is stored and returns it on the fast path while
    the bootstrap is still going on. *)
Example three_coroutines_one_pool :
  (λ s, (pools_created s, pcs s 0%nat, pcs s 1%nat, pcs s 2%nat)) <$>
    run [(0, true); (1, true); (0, true); (2, true); (0, true); (0, true); (0, true);
         (0, true); (0, true); (1, true)]%nat (initial true true)
  = Some (1%nat, Returned (Some 0%nat), Returned (Some 0%nat), Returned (Some 0%nat)).
Proof. vm_compute. reflexivity. Qed.

Example pool_handed_out_during_bootstrap :
  (λ s, (pcs s 0%nat, pcs s 2%nat)) <$>
    run [(0, true); (1, true); (0, true); (2, true)]%nat (initial true true)
  = Some (InitTables 0, Returned (Some 0%nat)).
Proof. vm_compute. reflexivity. Qed.

(** The bootstrap fails on its third statement: the coroutine raises and
    the pool stays in the global, as in the sequential run. *)
Example bootstrap_failure_keeps_pool :
  (λ s, (db_pool s, pcs s 0%nat)) <$>
    run [(0, true); (0, true); (0, true); (0, true); (0, false)]%nat (initial true true)
  = Some (Some 0%nat, Failed PostgresError).
Proof. vm_compute. reflexivity. Qed.

Lemma pool_run_reachable schedule s s' :
  reachable s → run schedule s = Some s' → reachable s'.
Proof.
  revert s. induction schedule as [|[c ok] rest IH]; intros s Hr; simpl.
  { by intros [= <-]. }
  destruct (step c ok s) as [s1|] eqn:E; [|done].
  apply IH. by eapply reachable_step.
Qed.

(** How far a coroutine is from the end of [_get_pool]. *)
Definition rank (p : pc) : nat :=
  match p with
  | Idle => 8
  | WaitLock => 7
  | CreatePool => 6
  | InitTables k => 1 + (4 - k)
  | Returned _ | Failed _ => 0
  end.

Lemma locked_section_pcs c s :
  pcs (locked_section c s) c = Returned (db_pool s) ∧ is_Some (db_pool s) ∨
  (∃ e, pcs (locked_section c s) c = Failed e ∧
        (configured s = false ∨ driver s = false)) ∨
  pcs (locked_section c s) c = CreatePool.
Proof.
  unfold locked_section. destruct (db_pool s) as [p|] eqn:E.
  { left. simpl. rewrite decide_True by done. eauto. }
  right. destruct (configured s); simpl.
  2: { left. exists ValueError. rewrite decide_True by done. auto. }
  destruct (driver s); simpl.
  2: { left. exists ImportError. rewrite decide_True by done. auto. }
  right. by rewrite decide_True.
Qed.

Lemma pool_step_rank c ok s s' :
  step c ok s = Some s' → (rank (pcs s' c) < rank (pcs s c))%nat.
Proof.
  unfold step. destruct (pcs s c) eqn:E; repeat case_match; try done;
    intros [= <-];
    try (match goal with
         | |- context [locked_section c ?s0] =>
             destruct (locked_section_pcs c s0) as [[-> _]|[(? & -> & _)| ->]]
         end; simpl; lia);
    simpl; rewrite ?decide_True by done; simpl; try lia.
  match goal with
  | H : (_ <? _)%nat = true |- _ => apply Nat.ltb_lt in H
  end.
  lia.
Qed.

Lemma pool_step_config c ok s s' :
  step c ok s = Some s' → configured s' = configured s ∧ driver s' = driver s.
Proof.
  unfold step, locked_section.
  destruct (pcs s c); repeat case_match; try done; by intros [= <-].
Qed.

Lemma pool_step_lock c ok s s' :
  step c ok s = Some s' →
  lock_holder s = None ∨ lock_holder s = Some c →
  lock_holder s' = None ∨ lock_holder s' = Some c.
Proof.
  intros H Hl. unfold step, locked_section in H.
  destruct (pcs s c); repeat case_match; try done;
    injection H as <-; simpl; auto; naive_solver.
Qed.

Lemma pool_step_enabled c ok s :
  invariant s → lock_holder s = None ∨ lock_holder s = Some c →
  finished (pcs s c) = false → is_Some (step c ok s).
Proof.
  intros Hinv Hl Hfin.
  assert (pcs s c = WaitLock → lock_holder s = None) as Hwait.
  { intros E. destruct Hl as [?|Hl]; [done|].
    apply (inv_lock s Hinv) in Hl. by rewrite E in Hl. }
  unfold step. destruct (pcs s c) eqn:E; try done;
    try (rewrite Hwait by done); repeat case_match; by eexists.
Qed.

(** With the configuration in place and the awaited operation succeeding,
    a step does not end in an exception. *)
Lemma pool_step_no_failure c s s' :
  step c true s = Some s' → configured s = true → driver s = true →
  (∀ e, pcs s c ≠ Failed e) → ∀ e, pcs s' c ≠ Failed e.
Proof.
  intros H Hconf Hdrv Hnf e. unfold step in H.
  destruct (pcs s c) eqn:E; repeat case_match; try done;
    injection H as <-;
    try (match goal with
         | |- context [locked_section c ?s0] =>
             destruct (locked_section_pcs c s0) as [[-> _]|[(? & _ & Hbad)| ->]];
               [done|simpl in Hbad; destruct Hbad; congruence|done]
         end);
    simpl; by rewrite decide_True.
Qed.

Lemma pool_run_app l1 l2 s :
  run (l1 ++ l2)%list s = run l1 s ≫= run l2.
Proof.
  revert s. induction l1 as [|[c ok] l1 IH]; intros s; simpl; [done|].
  destruct (step c ok s); [apply IH|done].
Qed.

(** Scheduled alone, with every awaited operation succeeding, a coroutine
    that does not wait for another one's lock runs to its return. *)
Lemma pool_drive c s :
  invariant s → configured s = true → driver s = true →
  lock_holder s = None ∨ lock_holder s = Some c →
  (∀ e, pcs s c ≠ Failed e) →
  ∃ n s', run (replicate n (c, true)) s = Some s' ∧ invariant s' ∧
          configured s' = true ∧ driver s' = true ∧
          (∃ r, pcs s' c = Returned r) ∧
          (lock_holder s' = None ∨ lock_holder s' = Some c) ∧
          ∀ t, t ≠ c → pcs s' t = pcs s t.
Proof.
  remember (rank (pcs s c)) as k eqn:Hk. revert s Hk.
  induction k as [k IH] using lt_wf_ind. intros s -> Hinv Hconf Hdrv Hl Hnf.
  destruct (finished (pcs s c)) eqn:Hfin.
  { exists 0%nat, s. split_and!; try done.
    destruct (pcs s c) eqn:E; try done; [by eexists|by destruct (Hnf e)]. }
  destruct (pool_step_enabled c true s Hinv Hl Hfin) as [s1 Hs1].
  destruct (pool_step_config _ _ _ _ Hs1) as [Hconf1 Hdrv1].
  destruct (IH _ (pool_step_rank _ _ _ _ Hs1) s1 eq_refl)
    as (n & s' & Hrun & Hinv' & Hconf' & Hdrv' & Hret & Hl' & Hothers);
    [by eapply pool_invariant_step|congruence|congruence|by eapply pool_step_lock
    |by eapply pool_step_no_failure|].
  exists (S n), s'. simpl. rewrite Hs1. split_and!; try done.
  intros t Hne. rewrite (Hothers t Hne).
  clear -Hs1 Hne. unfold step, locked_section in Hs1.
  destruct (pcs s c); repeat case_match; try done;
    injection Hs1 as <-; simpl; by rewrite decide_False.
Qed.

(** Where the configuration is in place and the awaited operations
    succeed, every caller that has not raised can be brought to its
    return, and it then holds the one pool: once the holder of the lock,
    if there is one, has run to its return, the caller runs to its own. *)
Lemma pool_returns s c :
  reachable s → configured s = true → driver s = true →
  (∀ e, pcs s c ≠ Failed e) →
  ∃ schedule s',
    Forall (λ x, x.2 = true) schedule ∧ run schedule s = Some s' ∧
    pcs s' c = Returned (Some 0%nat) ∧
    db_pool s' = Some 0%nat ∧ pools_created s' = 1%nat.
Proof.
  intros Hr Hconf Hdrv Hnf. pose proof (pool_reachable_invariant s Hr) as Hinv.
  assert (∃ sch s1, Forall (λ x, x.2 = true) sch ∧ run sch s = Some s1 ∧
                    invariant s1 ∧ configured s1 = true ∧ driver s1 = true ∧
                    (lock_holder s1 = None ∨ lock_holder s1 = Some c) ∧
                    ∀ e, pcs s1 c ≠ Failed e)
    as (sch & s1 & Hok1 & Hrun1 & Hinv1 & Hconf1 & Hdrv1 & Hl1 & Hnf1).
  { destruct (lock_holder s) as [h|] eqn:El; [|exists [], s; by split_and!; auto].
    destruct (decide (h = c)) as [->|Hne]; [exists [], s; by split_and!; auto|].
    destruct (pool_drive h s Hinv Hconf Hdrv)
      as (n & s1 & Hrun & Hinv1 & Hconf1 & Hdrv1 & [r Hret] & Hl & Hothers); [auto| |].
    { intros e He. apply (inv_lock s Hinv) in El. by rewrite He in El. }
    exists (replicate n (h, true)), s1. split_and!; try done.
    - by apply Forall_replicate.
    - left. destruct Hl as [?|Hl]; [done|]. apply (inv_lock s1 Hinv1) in Hl.
      by rewrite Hret in Hl.
    - intros e. rewrite Hothers by done. apply Hnf. }
  destruct (pool_drive c s1 Hinv1 Hconf1 Hdrv1 Hl1 Hnf1)
    as (n & s2 & Hrun2 & Hinv2 & _ & _ & [r Hret] & _).
  exists (sch ++ replicate n (c, true))%list, s2. rewrite pool_run_app, Hrun1.
  split; [apply Forall_app; split; [done|by apply Forall_replicate]|].
  split; [exact Hrun2|].
  pose proof (inv_pc s2 Hinv2 c) as Hpc. rewrite Hret in Hpc. simpl in Hpc.
  destruct Hpc as [-> Hpool]. rewrite Hret. split_and!; try done.
  destruct (inv_pool s2 Hinv2) as [[? _]|[_ ?]]; [congruence|done].
Qed.

(** A creation that fails leaves the next coroutine to create the pool. *)
Example failed_creation_then_retry :
  (λ s, (pools_created s, pcs s 0%nat, pcs s 1%nat)) <$>
    run [(0, true); (1, true); (0, false); (1, true); (1, true); (1, true); (1, true);
         (1, true); (1, true); (1, true)]%nat (initial true true)
  = Some (1%nat, Failed ConnectError, Returned (Some 0%nat)).
Proof. vm_compute. reflexivity. Qed.

End PoolInit.

(** * Singleton pool and worker *)

(** C5. However the calling threads interleave inside [_ensure_db_loop]
    (one global read or write per step, a started worker staying alive),
    one event loop and one worker thread at most are ever constructed, no
    thread raises, and every thread that has returned holds that one
    loop; and from wherever the threads have got to, every caller can be
    brought to its return, one loop and one worker thread, alive, having
    been constructed by then.  However the coroutines interleave inside
    [_get_pool] on that loop, and whatever fails, one pool at most is ever
    constructed and every coroutine that has returned holds that one
    pool; and where [DATABASE_URL] is set, the driver is installed and the
    awaited operations succeed, every caller that has not raised can be
    brought to its return, exactly one pool having been constructed by
    then. *)
Theorem singleton_pool_and_worker :
  (∀ s, WorkerLoop.reachable s →
        (WorkerLoop.loops_created s ≤ 1)%nat ∧
        (WorkerLoop.threads_started s ≤ 1)%nat ∧
        ∀ tid, WorkerLoop.pcs s tid ≠ WorkerLoop.Raised ∧
               (∀ r, WorkerLoop.pcs s tid = WorkerLoop.Returned r →
                     r = Some 0%nat ∧ WorkerLoop.loops_created s = 1%nat ∧
                     WorkerLoop.threads_started s = 1%nat) ∧
               ∃ schedule s',
                 WorkerLoop.run schedule s = Some s' ∧
                 WorkerLoop.pcs s' tid = WorkerLoop.Returned (Some 0%nat) ∧
                 WorkerLoop.loops_created s' = 1%nat ∧
                 WorkerLoop.threads_started s' = 1%nat ∧
                 WorkerLoop.is_alive 0 s' = true) ∧
  (∀ s, PoolInit.reachable s →
        (PoolInit.pools_created s ≤ 1)%nat ∧
        (∀ c r, PoolInit.pcs s c = PoolInit.Returned r →
                r = Some 0%nat ∧ PoolInit.pools_created s = 1%nat) ∧
        (PoolInit.configured s = true → PoolInit.driver s = true →
         ∀ c, (∀ e, PoolInit.pcs s c ≠ PoolInit.Failed e) →
              ∃ schedule s',
                Forall (λ x, x.2 = true) schedule ∧
                PoolInit.run schedule s = Some s' ∧
                PoolInit.pcs s' c = PoolInit.Returned (Some 0%nat) ∧
                PoolInit.pools_created s' = 1%nat)).
Proof.
  split.
  - intros s Hreach. pose proof (WorkerLoop.worker_reachable_invariant s Hreach) as Hr.
    pose proof (WorkerLoop.inv_counts s Hr) as Hc.
    split; [lia|]. split; [lia|].
    intros tid. pose proof (WorkerLoop.inv_pc s Hr tid) as Hpc. split_and!.
    + intros E. by rewrite E in Hpc.
    + intros r E. rewrite E in Hpc. destruct Hpc as [-> Hth]. split; [done|].
      pose proof (WorkerLoop.inv_loop_started s Hr
                    (WorkerLoop.inv_thread_loop s Hr Hth)).
      lia.
    + destruct (WorkerLoop.worker_returns s tid Hreach)
        as (schedule & s' & ? & ? & ? & ? & _ & _ & ?).
      by exists schedule, s'.
  - intros s Hreach. pose proof (PoolInit.pool_reachable_invariant s Hreach) as Hr.
    pose proof (PoolInit.inv_pool s Hr) as Hp. split; [naive_solver lia|]. split.
    + intros c r E. pose proof (PoolInit.inv_pc s Hr c) as Hpc. rewrite E in Hpc.
      destruct Hpc as [-> Hpool]. split; [done|]. naive_solver.
    + intros Hconf Hdrv c Hnf.
      destruct (PoolInit.pool_returns s c Hreach Hconf Hdrv Hnf)
        as (schedule & s' & ? & ? & ? & _ & ?).
      by exists schedule, s'.
Qed.

(** Two threads racing through [_ensure_db_loop], and three coroutines
    through [_get_pool]: one worker, one pool; and a caller that has not
    started yet is brought to its return. *)
Lemma singleton_pool_and_worker_witness :
  (∀ s, WorkerLoop.run [0; 1; 0; 1; 0; 0; 0; 0; 0; 0; 0; 1; 1; 1; 1; 1]%nat
          WorkerLoop.initial = Some s →
        (WorkerLoop.loops_created s ≤ 1)%nat ∧ (WorkerLoop.threads_started s ≤ 1)%nat) ∧
  (∀ s, PoolInit.run [(0, true); (1, true); (0, true); (2, true); (0, true); (0, true);
                      (0, true); (0, true); (0, true); (1, true)]%nat
          (PoolInit.initial true true) = Some s →
        (PoolInit.pools_created s ≤ 1)%nat) ∧
  (∃ schedule s',
     WorkerLoop.run schedule WorkerLoop.initial = Some s' ∧
     WorkerLoop.pcs s' 7%nat = WorkerLoop.Returned (Some 0%nat) ∧
     WorkerLoop.loops_created s' = 1%nat ∧ WorkerLoop.threads_started s' = 1%nat) ∧
  (∃ schedule s',
     PoolInit.run schedule (PoolInit.initial true true) = Some s' ∧
     PoolInit.pcs s' 7%nat = PoolInit.Returned (Some 0%nat) ∧
     PoolInit.pools_created s' = 1%nat).
Proof.
  destruct singleton_pool_and_worker as [Hworker Hpool]. split_and!.
  - intros s Hrun.
    destruct (Hworker s) as (? & ? & _); [|done].
    eapply WorkerLoop.worker_run_reachable; [apply WorkerLoop.reachable_initial|exact Hrun].
  - intros s Hrun.
    destruct (Hpool s) as (? & _); [|done].
    eapply PoolInit.pool_run_reachable; [apply PoolInit.reachable_initial|exact Hrun].
  - destruct (Hworker WorkerLoop.initial WorkerLoop.reachable_initial) as (_ & _ & H).
    destruct (H 7%nat) as (_ & _ & schedule & s' & ? & ? & ? & ? & _).
    by exists schedule, s'.
  - destruct (Hpool (PoolInit.initial true true) (PoolInit.reachable_initial true true))
      as (_ & _ & H).
    destruct (H eq_refl eq_refl 7%nat) as (schedule & s' & _ & ? & ? & ?); [done|].
    by exists schedule, s'.
Defined.

(** A third thread arrives while the first is between [thread.start()]
    and the two assignments: it waits for the lock and returns the loop
    that was made. *)
Example late_thread_gets_the_worker :
  (λ s, (WorkerLoop.loops_created s, WorkerLoop.threads_started s,
         WorkerLoop.pcs s 2%nat)) <$>
    WorkerLoop.run [0; 0; 0; 0; 0; 0; 2; 2; 0; 0; 0; 2; 2; 2; 2; 2]%nat
      WorkerLoop.initial
  = Some (1%nat, 1%nat, WorkerLoop.Returned (Some 0%nat)).
Proof. vm_compute. reflexivity. Qed.

(** * More of the storage module *)

(** ** The enablement check *)

Definition all_space (s : string) : bool :=
  forallb py_isspace (list_ascii_of_string s).

Lemma lstrip_empty s : lstrip s = EmptyString ↔ all_space s = true.
Proof.
  unfold all_space. induction s as [|c s IH]; simpl; [done|].
  destruct (py_isspace c); simpl; [done|]. split; discriminate.
Qed.

Lemma rstrip_empty s : rstrip s = EmptyString ↔ all_space s = true.
Proof.
  unfold all_space. induction s as [|c s IH]; simpl; [done|].
  destruct (rstrip s) eqn:E.
  - destruct (py_isspace c); simpl; [tauto|]. split; discriminate.
  - split; [discriminate|]. intros [_ H]%andb_prop. apply IH in H. discriminate.
Qed.

Lemma all_space_lstrip s : all_space (lstrip s) = all_space s.
Proof.
  unfold all_space. induction s as [|c s IH]; simpl; [done|].
  destruct (py_isspace c) eqn:E; simpl; [done|]. by rewrite E.
Qed.

Lemma strip_empty s : strip s = EmptyString ↔ all_space s = true.
Proof. unfold strip. by rewrite rstrip_empty, all_space_lstrip. Qed.

(** X1. For the values of [DATABASE_URL] whose code points are below
    U+0100, the store is enabled exactly when the value holds a character
    that [str.strip()] leaves (one that is no whitespace in the sense of
    [str.isspace]; the no-break space and NEXT LINE are whitespace): an
    unset, empty or blank value disables it. *)
Theorem database_enabled_iff_not_blank (os_environ : gmap string string) :
  is_database_enabled os_environ =
  negb (all_space (default EmptyString (os_environ !! "DATABASE_URL"))).
Proof.
  unfold is_database_enabled, _get_database_url. f_equal.
  destruct (all_space _) eqn:E.
  - apply strip_empty in E. by rewrite E.
  - apply String.eqb_neq. intros H%strip_empty. congruence.
Qed.

Example blank_url_is_disabled :
  is_database_enabled {[ "DATABASE_URL" := String (ascii_of_nat 9) "  " ]} = false.
Proof. reflexivity. Qed.

(** A no-break space and a NEXT LINE: [str.strip()] strips both. *)
Example no_break_space_url_is_disabled :
  is_database_enabled
    {[ "DATABASE_URL" :=
         String (ascii_of_nat 160) (String (ascii_of_nat 133) EmptyString) ]} = false.
Proof. reflexivity. Qed.

(** The URL handed to the driver is trimmed: stripping it again changes
    nothing. *)
Lemma lstrip_no_leading_space s c r :
  lstrip s = String c r → py_isspace c = false.
Proof.
  induction s as [|c' s IH]; simpl; [done|].
  destruct (py_isspace c') eqn:E; [done|]. by intros [= <- _].
Qed.

Lemma lstrip_rstrip s : lstrip (rstrip (lstrip s)) = rstrip (lstrip s).
Proof.
  destruct (lstrip s) as [|c r] eqn:E; [done|].
  apply lstrip_no_leading_space in E. simpl.
  destruct (rstrip r); rewrite ?E; simpl; by rewrite E.
Qed.

Lemma rstrip_rstrip s : rstrip (rstrip s) = rstrip s.
Proof.
  induction s as [|c s IH]; simpl; [done|].
  destruct (rstrip s) as [|c' r'] eqn:E.
  - destruct (py_isspace c) eqn:Ec; simpl; [done|]. by rewrite Ec.
  - change (rstrip (String c (String c' r')))
      with (match rstrip (String c' r') with
            | EmptyString =>
                if py_isspace c then EmptyString else String c EmptyString
            | r => String c r
            end).
    by rewrite IH.
Qed.

(** Stripping is idempotent: the URL handed to the driver is already
    trimmed. *)
Lemma strip_strip s : strip (strip s) = strip s.
Proof. unfold strip. by rewrite lstrip_rstrip, rstrip_rstrip. Qed.


(** ** The schema bootstrap *)

(** A statement that returned has run on the tables as they were. *)
Lemma conn_execute_ret s w w' :
  conn_execute s w = (Ret tt, w') →
  ∃ now, sql_exec now s (db w) = Ret (db w').
Proof.
  unfold conn_execute. rewrite conn_run_eq.
  destruct (pop_fault w) as [[|] w1] eqn:Ef; [done|]. apply pop_fault_db in Ef.
  destruct (sql_exec _ s (db w1)) as [d'|e] eqn:E; [|done].
  intros [= <-]. exists (current_timestamp w1). by rewrite <- Ef.
Qed.

(** A statement that raised has written nothing. *)
Lemma conn_run_raise_db {A} s (result : database → A) w e w' :
  conn_run s result w = (Raise e, w') → db w' = db w.
Proof.
  rewrite conn_run_eq.
  destruct (pop_fault w) as [[|] w1] eqn:Ef; apply pop_fault_db in Ef.
  { by intros [= _ <-]. }
  destruct (sql_exec _ s (db w1)) as [d'|e'] eqn:E; [done|]. by intros [= _ <-].
Qed.

(** What a bootstrap that returned leaves: both tables with the rows they
    had, and both indexes. *)
Lemma init_tables_ret p w w' :
  _init_tables p w = (Ret tt, w') →
  db w' = Database (Some (kv_rows (db w))) (Some (account_rows (db w))) true true.
Proof.
  unfold _init_tables. intros H.
  apply with_connection_ret in H as (w1 & w2 & Hdb & _ & H & ->).
  apply bind_ret_inv in H as ([] & w3 & H1 & H).
  apply bind_ret_inv in H as ([] & w4 & H2 & H).
  apply bind_ret_inv in H as ([] & w5 & H3 & H).
  apply bind_ret_inv in H as ([] & w6 & H4 & H).
  injection H as <-.
  apply conn_execute_ret in H1 as (n1 & H1), H2 as (n2 & H2),
    H3 as (n3 & H3), H4 as (n4 & H4).
  rewrite Hdb in H1. cbn [sql_exec] in H1, H2. injection H1 as H1.
  rewrite <- H1 in H2. injection H2 as H2. rewrite <- H2 in H3.
  cbn in H3. injection H3 as H3. rewrite <- H3 in H4. cbn in H4.
  injection H4 as H4. cbn [db set_trace]. by rewrite <- H4.
Qed.

(** X2. The bootstrap never loses a row: whatever its outcome, the rows of
    both tables are what they were; and when it returns, both tables and
    both indexes exist. *)
Theorem init_tables_keeps_rows p w r w' :
  _init_tables p w = (r, w') →
  same_rows (db w) (db w') ∧
  (returned r = true →
   schema_ready (db w') ∧ idx_accounts_disabled (db w') = true ∧
   idx_accounts_expires_at (db w') = true).
Proof.
  intros H. split.
  - by apply (keeps_init_tables (λ _, stable) same_rows) in H as [? _].
  - destruct r as [[]|]; [|done]. intros _. apply init_tables_ret in H.
    rewrite H. by split_and!.
Qed.

(** The bootstrap runs again on a store that holds two accounts. *)
Lemma init_tables_keeps_rows_witness :
  same_rows (db seeded_world) (db (snd (_init_tables (Some 0%nat) seeded_world))) ∧
  schema_ready (db (snd (_init_tables (Some 0%nat) seeded_world))).
Proof.
  destruct (init_tables_keeps_rows (Some 0%nat) seeded_world (Ret tt)
              (snd (_init_tables (Some 0%nat) seeded_world))) as [H1 H2].
  - vm_compute. reflexivity.
  - split; [exact H1|]. by destruct H2.
Defined.

(** ** Relations every step keeps, whatever its outcome *)

Class Steady (R : world → world → Prop) (Rdb : database → database → Prop) : Prop := {
  S_refl : ∀ w, R w w;
  S_trans : ∀ w1 w2 w3, R w1 w2 → R w2 w3 → R w1 w3;
  S_pop_fault : ∀ w b w1, pop_fault w = (b, w1) → R w w1;
  S_trace : ∀ w x, R w (set_trace x w);
  S_txn_start : ∀ w x, R w (set_txn_start x w);
  S_db : ∀ w d, Rdb (db w) d → R w (set_db d w);
  S_rollback : ∀ w1 w2, R w1 w2 → R w1 (set_db (db w1) w2);
  Sdb_refl : ∀ d, Rdb d d }.

Definition preserves (R : world → world → Prop) {A} (m : M A) : Prop :=
  ∀ w r w', m w = (r, w') → R w w'.

(** The statements that write to [accounts], and to [kv_store]. *)
Definition is_account_write (s : stmt) : bool :=
  match s with
  | DeleteAccountsAny _ | DeleteAccount _ | UpsertAccount _ => true
  | _ => false
  end.

Definition is_kv_write (s : stmt) : bool :=
  match s with
  | UpsertKv _ _ => true
  | _ => false
  end.

Section Preserved.
Context {R : world → world → Prop} {Rdb : database → database → Prop}.
Context {steady : Steady R Rdb}.

Lemma preserves_ret {A} (a : A) : preserves R (mret a).
Proof. intros w r w' [= <- <-]. apply S_refl. Qed.

Lemma preserves_raise {A} e : preserves R (raise e : M A).
Proof. intros w r w' [= <- <-]. apply S_refl. Qed.

Lemma preserves_get_world : preserves R get_world.
Proof. intros w r w' [= <- <-]. apply S_refl. Qed.

Lemma preserves_bind {A B} (m : M A) (k : A → M B) :
  preserves R m → (∀ a, preserves R (k a)) → preserves R (m ≫= k).
Proof.
  intros Hm Hk w r w' H.
  apply bind_inv in H as [(a & w1 & H1 & H2)|(e & H1 & ->)].
  - eapply S_trans; [apply (Hm _ _ _ H1)|apply (Hk _ _ _ _ H2)].
  - apply (Hm _ _ _ H1).
Qed.

Lemma preserves_try_except {A} (m : M A) h :
  preserves R m → (∀ e, preserves R (h e)) → preserves R (try_except m h).
Proof.
  intros Hm Hh w r w' H.
  apply try_except_inv in H as [(a & H & _)|(e & w1 & H1 & H2)].
  - apply (Hm _ _ _ H).
  - eapply S_trans; [apply (Hm _ _ _ H1)|apply (Hh _ _ _ _ H2)].
Qed.

Lemma preserves_emit e : preserves R (emit e).
Proof. intros w r w' [= <- <-]. apply S_trace. Qed.

Lemma preserves_conn_run {A} s (result : database → A) :
  (∀ now d d', sql_exec now s d = Ret d' → Rdb d d') →
  preserves R (conn_run s result).
Proof.
  intros Hs w r w'. rewrite conn_run_eq.
  destruct (pop_fault w) as [[|] w1] eqn:E; apply S_pop_fault in E.
  { intros [= <- <-]. eapply S_trans; [exact E|apply S_trace]. }
  destruct (sql_exec _ s (db w1)) as [d'|e] eqn:E'; intros [= <- <-].
  - eapply S_trans; [exact E|].
    eapply S_trans; [apply (S_db w1 d'), (Hs _ _ _ E')|apply S_trace].
  - eapply S_trans; [exact E|apply S_trace].
Qed.

Lemma preserves_read {A} s (result : database → A) :
  is_read s = true → preserves R (conn_run s result).
Proof.
  intros Hs. apply preserves_conn_run. intros now d d' H.
  apply (sql_exec_read _ _ _ _ Hs) in H as ->. apply Sdb_refl.
Qed.

Lemma preserves_with_connection {A} p (body : M A) :
  preserves R body → preserves R (with_connection p body).
Proof.
  intros Hb w r w'. destruct p as [p|]; [|apply preserves_raise].
  rewrite with_connection_eq.
  destruct (pop_fault w) as [[|] w1] eqn:E; apply S_pop_fault in E.
  { intros [= <- <-]. eapply S_trans; [exact E|apply S_trace]. }
  destruct (body _) as [r2 w2] eqn:E'. intros H. apply Hb in E'.
  apply release_inv in H as (failed & w3 & Ef & -> & _). apply S_pop_fault in Ef.
  eapply S_trans; [exact E|].
  eapply S_trans; [apply S_trace|].
  eapply S_trans; [exact E'|].
  eapply S_trans; [exact Ef|apply S_trace].
Qed.

Lemma preserves_conn_transaction {A} (body : M A) :
  preserves R body → preserves R (conn_transaction body).
Proof.
  intros Hb w r w'. unfold conn_transaction.
  destruct (conn_execute Begin w) as [[[]|e1] w1] eqn:E1;
    apply (preserves_read Begin) in E1; try done.
  2: { by intros [= <- <-]. }
  pose proof (S_txn_start w1 (Some (clock w1))) as Ht.
  destruct (body _) as [[a|e2] w2] eqn:E2; apply Hb in E2.
  - pose proof (S_trans _ _ _ Ht E2) as E12.
    destruct (conn_execute Commit w2) as [[[]|e3] w3] eqn:E3;
      (apply (preserves_read Commit) in E3; [|done]); intros [= <- <-].
    + eapply S_trans; [exact E1|]. eapply S_trans; [exact E12|].
      eapply S_trans; [exact E3|apply S_txn_start].
    + eapply S_trans; [exact E1|].
      eapply S_trans; [|apply S_txn_start].
      apply S_rollback. eapply S_trans; [exact E12|exact E3].
  - intros [= <- <-]. eapply S_trans; [exact E1|].
    eapply S_trans; [|apply S_txn_start].
    apply S_rollback. eapply S_trans; [exact Ht|].
    eapply S_trans; [exact E2|apply S_trace].
Qed.

Lemma preserves_for_each {A} (l : list A) body :
  (∀ x, preserves R (body x)) → preserves R (for_each l body).
Proof.
  intros Hb. induction l as [|x l IH]; simpl.
  - apply preserves_ret.
  - apply preserves_bind; auto.
Qed.

Lemma preserves_init_tables p :
  (∀ s now d d', is_ddl s = true → sql_exec now s d = Ret d' → Rdb d d') →
  preserves R (_init_tables p).
Proof.
  intros Hs. apply preserves_with_connection.
  repeat (apply preserves_bind;
          [apply preserves_conn_run; intros ???; by apply Hs|intros _]).
  apply preserves_emit.
Qed.

Lemma preserves_import_asyncpg : preserves R import_asyncpg.
Proof.
  apply preserves_bind; [apply preserves_get_world|]. intros w.
  destruct (driver_installed w); [apply preserves_emit|].
  apply preserves_bind; [apply preserves_emit|]. intros _. apply preserves_raise.
Qed.

(** The functions of the module, given what [_get_pool] and their
    statements keep. *)
Hypothesis get_pool_preserved : preserves R _get_pool.

Lemma preserves_db_get key : preserves R (db_get key).
Proof.
  apply preserves_bind; [done|]. intros p. apply preserves_with_connection.
  apply preserves_bind; [apply preserves_get_world|]. intros w.
  apply preserves_bind; [by apply preserves_read|]. intros [[s|[]]|];
    try apply preserves_ret; destruct (Json.loads _);
    by (apply preserves_ret || apply preserves_raise).
Qed.

Lemma preserves_load_accounts : preserves R load_accounts.
Proof.
  apply preserves_bind; [apply preserves_get_world|]. intros w.
  destruct (negb _); [apply preserves_ret|]. apply preserves_try_except.
  - apply preserves_bind; [done|]. intros p. apply preserves_with_connection.
    apply preserves_bind; [by apply preserves_read|]. intros rows.
    apply preserves_bind; [apply preserves_emit|]. intros _. apply preserves_ret.
  - intros e. apply preserves_bind; [apply preserves_emit|]. intros _.
    apply preserves_ret.
Qed.

Section KvWrites.
Hypothesis kv_write_preserved :
  ∀ s now d d', is_kv_write s = true → sql_exec now s d = Ret d' → Rdb d d'.

Lemma preserves_db_set key value : preserves R (db_set key value).
Proof.
  apply preserves_bind; [done|]. intros p. apply preserves_with_connection.
  apply preserves_conn_run. intros ???. by apply kv_write_preserved.
Qed.

End KvWrites.

Section AccountWrites.
Hypothesis account_write_preserved :
  ∀ s now d d', is_account_write s = true → sql_exec now s d = Ret d' → Rdb d d'.

(** A [try] around one statement on a pooled connection. *)
Lemma preserves_one_statement s msg failure :
  is_account_write s = true →
  preserves R
    (try_except
       (pool ← _get_pool;
        with_connection pool (conn_execute s;; log_info msg;; mret true))
       (λ e, log_error failure;; mret false)).
Proof.
  intros Hs. apply preserves_try_except.
  - apply preserves_bind; [done|]. intros p. apply preserves_with_connection.
    apply preserves_bind.
    { apply preserves_conn_run. intros ???. by apply account_write_preserved. }
    intros _. apply preserves_bind; [apply preserves_emit|]. intros _.
    apply preserves_ret.
  - intros e. apply preserves_bind; [apply preserves_emit|]. intros _.
    apply preserves_ret.
Qed.

Lemma preserves_reconcile targets : preserves R (reconcile targets).
Proof.
  apply preserves_bind; [by apply preserves_read|]. intros rows.
  apply preserves_bind.
  { case_bool_decide; [|apply preserves_ret].
    apply preserves_conn_run. intros ???. by apply account_write_preserved. }
  intros _. apply preserves_for_each. intros account.
  destruct (negb _); [apply preserves_ret|].
  apply preserves_conn_run. intros ???. by apply account_write_preserved.
Qed.

Lemma preserves_save_accounts targets : preserves R (save_accounts targets).
Proof.
  apply preserves_bind; [apply preserves_get_world|]. intros w.
  destruct (negb _); [apply preserves_ret|]. apply preserves_try_except.
  - apply preserves_bind; [done|]. intros p. apply preserves_with_connection.
    apply preserves_bind; [apply preserves_conn_transaction, preserves_reconcile|].
    intros _. apply preserves_bind; [apply preserves_emit|]. intros _.
    apply preserves_ret.
  - intros e. apply preserves_bind; [apply preserves_emit|]. intros _.
    apply preserves_ret.
Qed.

Lemma preserves_save_account account : preserves R (save_account account).
Proof.
  apply preserves_bind; [apply preserves_get_world|]. intros w.
  destruct (negb _); [apply preserves_ret|].
  destruct (negb _); [apply preserves_ret|]. by apply preserves_one_statement.
Qed.

Lemma preserves_delete_account id : preserves R (delete_account id).
Proof.
  apply preserves_bind; [apply preserves_get_world|]. intros w.
  destruct (negb _); [apply preserves_ret|]. by apply preserves_one_statement.
Qed.

Lemma preserves_delete_accounts ids : preserves R (delete_accounts ids).
Proof.
  apply preserves_bind; [apply preserves_get_world|]. intros w.
  destruct (negb _); [apply preserves_ret|].
  destruct ids; [apply preserves_ret|]. by apply preserves_one_statement.
Qed.

End AccountWrites.
End Preserved.

(** *** Settings and statistics

    Two documents of [kv_store], under the keys ["settings"] and
    ["stats"]; Python's [None] is [JNull], as for [db_get]. *)

Definition load_settings : M Json.json :=
  w ← get_world;
  if negb (is_database_enabled (environ w)) then mret Json.JNull
  else
    try_except (db_get "settings")
      (λ e, log_error "[STORAGE] Settings read failed";; mret Json.JNull).

Definition save_settings (settings : Json.json) : M bool :=
  w ← get_world;
  if negb (is_database_enabled (environ w)) then mret false
  else
    try_except
      (db_set "settings" settings;;
       log_info "[STORAGE] Settings saved to database";;
       mret true)
      (λ e, log_error "[STORAGE] Settings write failed";; mret false).

Definition load_stats : M Json.json :=
  w ← get_world;
  if negb (is_database_enabled (environ w)) then mret Json.JNull
  else
    try_except (db_get "stats")
      (λ e, log_error "[STORAGE] Stats read failed";; mret Json.JNull).

Definition save_stats (stats : Json.json) : M bool :=
  w ← get_world;
  if negb (is_database_enabled (environ w)) then mret false
  else
    try_except
      (db_set "stats" stats;; mret true)
      (λ e, log_error "[STORAGE] Stats write failed";; mret false).

Section PreservedDocuments.
Context {R : world → world → Prop} {Rdb : database → database → Prop}.
Context {steady : Steady R Rdb}.
Hypothesis get_pool_preserved : preserves R _get_pool.

Lemma preserves_load_settings : preserves R load_settings.
Proof.
  apply preserves_bind; [apply preserves_get_world|]. intros w.
  destruct (negb _); [apply preserves_ret|]. apply preserves_try_except.
  - by apply preserves_db_get.
  - intros e. apply preserves_bind; [apply preserves_emit|]. intros _.
    apply preserves_ret.
Qed.

Lemma preserves_load_stats : preserves R load_stats.
Proof.
  apply preserves_bind; [apply preserves_get_world|]. intros w.
  destruct (negb _); [apply preserves_ret|]. apply preserves_try_except.
  - by apply preserves_db_get.
  - intros e. apply preserves_bind; [apply preserves_emit|]. intros _.
    apply preserves_ret.
Qed.

Hypothesis kv_write_preserved :
  ∀ s now d d', is_kv_write s = true → sql_exec now s d = Ret d' → Rdb d d'.

Lemma preserves_save_settings settings : preserves R (save_settings settings).
Proof.
  apply preserves_bind; [apply preserves_get_world|]. intros w.
  destruct (negb _); [apply preserves_ret|]. apply preserves_try_except.
  - apply preserves_bind; [by apply preserves_db_set|]. intros _.
    apply preserves_bind; [apply preserves_emit|]. intros _. apply preserves_ret.
  - intros e. apply preserves_bind; [apply preserves_emit|]. intros _.
    apply preserves_ret.
Qed.

Lemma preserves_save_stats stats : preserves R (save_stats stats).
Proof.
  apply preserves_bind; [apply preserves_get_world|]. intros w.
  destruct (negb _); [apply preserves_ret|]. apply preserves_try_except.
  - apply preserves_bind; [by apply preserves_db_set|]. intros _.
    apply preserves_ret.
  - intros e. apply preserves_bind; [apply preserves_emit|]. intros _.
    apply preserves_ret.
Qed.

End PreservedDocuments.

(** ** What the functions never write *)

Definition rows_untouched (w w' : world) : Prop := same_rows (db w) (db w').
Definition kv_untouched (w w' : world) : Prop := kv_rows (db w') = kv_rows (db w).
Definition accounts_untouched (w w' : world) : Prop :=
  account_rows (db w') = account_rows (db w).

Lemma same_rows_trans d1 d2 d3 : same_rows d1 d2 → same_rows d2 d3 → same_rows d1 d3.
Proof. unfold same_rows. intros [??] [??]. split; congruence. Qed.

#[global] Instance rows_untouched_steady : Steady rows_untouched same_rows.
Proof.
  unfold rows_untouched. split; try done.
  - intros w1 w2 w3. apply same_rows_trans.
  - intros w b w1 H. by rewrite (pop_fault_db _ _ _ H).
Qed.

#[global] Instance kv_untouched_steady :
  Steady kv_untouched (λ d d', kv_rows d' = kv_rows d).
Proof.
  unfold kv_untouched. split; try done.
  - intros w1 w2 w3. congruence.
  - intros w b w1 H. by rewrite (pop_fault_db _ _ _ H).
Qed.

#[global] Instance accounts_untouched_steady :
  Steady accounts_untouched (λ d d', account_rows d' = account_rows d).
Proof.
  unfold accounts_untouched. split; try done.
  - intros w1 w2 w3. congruence.
  - intros w b w1 H. by rewrite (pop_fault_db _ _ _ H).
Qed.

Lemma get_pool_rows_untouched : preserves rows_untouched _get_pool.
Proof. intros w r w' H. by apply get_pool_stable in H as [? _]. Qed.

Lemma get_pool_kv_untouched : preserves kv_untouched _get_pool.
Proof. intros w r w' H. by apply get_pool_stable in H as [[_ ?] _]. Qed.

Lemma get_pool_accounts_untouched : preserves accounts_untouched _get_pool.
Proof. intros w r w' H. by apply get_pool_stable in H as [[? _] _]. Qed.

Lemma account_write_kv s now d d' :
  is_account_write s = true → sql_exec now s d = Ret d' → kv_rows d' = kv_rows d.
Proof.
  destruct s; try done; intros _; cbn [sql_exec].
  - by intros [_ ?]%sql_delete_accounts_rows.
  - by intros [_ ?]%sql_delete_accounts_rows.
  - unfold sql_upsert_account. repeat case_match; try done; by intros [= <-].
Qed.

Lemma kv_write_accounts s now d d' :
  is_kv_write s = true → sql_exec now s d = Ret d' → account_rows d' = account_rows d.
Proof.
  destruct s; try done; intros _; cbn [sql_exec].
  unfold sql_upsert_kv. repeat case_match; try done; by intros [= <-].
Qed.

(** The run of a computation: where it leaves the world. *)
Definition world_after {A} (m : M A) (w : world) : world := snd (m w).

Lemma preserves_world_after {A} R (m : M A) w : preserves R m → R w (world_after m w).
Proof.
  intros H. unfold world_after. destruct (m w) as [r w'] eqn:E. exact (H _ _ _ E).
Qed.

(** X3. The functions that read write nothing: whatever their outcome,
    [_get_pool], [db_get], [load_accounts], [load_settings] and
    [load_stats] leave the rows of both tables as they were. *)
Theorem reads_write_nothing (w : world) (key : string) :
  same_rows (db w) (db (world_after _get_pool w)) ∧
  same_rows (db w) (db (world_after (db_get key) w)) ∧
  same_rows (db w) (db (world_after load_accounts w)) ∧
  same_rows (db w) (db (world_after load_settings w)) ∧
  same_rows (db w) (db (world_after load_stats w)).
Proof.
  pose proof get_pool_rows_untouched as Hp. split_and!;
    apply (preserves_world_after rows_untouched).
  - done.
  - by apply preserves_db_get.
  - by apply preserves_load_accounts.
  - by apply preserves_load_settings.
  - by apply preserves_load_stats.
Qed.

(** X4. The functions that write accounts never touch [kv_store]:
    whatever their outcome, the settings and statistics documents are
    what they were. *)
Theorem account_writes_keep_kv_store
    (w : world) (targets : list pydict) (account : pydict)
    (id : pyval) (ids : list pyval) :
  kv_rows (db (world_after (save_accounts targets) w)) = kv_rows (db w) ∧
  kv_rows (db (world_after (save_account account) w)) = kv_rows (db w) ∧
  kv_rows (db (world_after (delete_account id) w)) = kv_rows (db w) ∧
  kv_rows (db (world_after (delete_accounts ids) w)) = kv_rows (db w).
Proof.
  pose proof get_pool_kv_untouched as Hp. pose proof account_write_kv as Hs.
  split_and!; apply (preserves_world_after kv_untouched).
  - apply preserves_save_accounts; [done|]. intros ????. apply Hs.
  - apply preserves_save_account; [done|]. intros ????. apply Hs.
  - apply preserves_delete_account; [done|]. intros ????. apply Hs.
  - apply preserves_delete_accounts; [done|]. intros ????. apply Hs.
Qed.

(** X5. The functions that write documents never touch [accounts]. *)
Theorem kv_writes_keep_accounts (w : world) (key : string) (value : Json.json) :
  account_rows (db (world_after (db_set key value) w)) = account_rows (db w) ∧
  account_rows (db (world_after (save_settings value) w)) = account_rows (db w) ∧
  account_rows (db (world_after (save_stats value) w)) = account_rows (db w).
Proof.
  pose proof get_pool_accounts_untouched as Hp. pose proof kv_write_accounts as Hs.
  split_and!; apply (preserves_world_after accounts_untouched).
  - apply preserves_db_set; [done|]. intros ????. apply Hs.
  - apply preserves_save_settings; [done|]. intros ????. apply Hs.
  - apply preserves_save_stats; [done|]. intros ????. apply Hs.
Qed.

(** ** One pool for the lifetime of the process *)

(** The pool and the number of pools created are what they were. *)
Definition same_pool (w w' : world) : Prop :=
  _db_pool w' = _db_pool w ∧ pools_created w' = pools_created w.

(** Nothing happened to the pool, or the first pool was created and
    published. *)
Definition pool_mono (w w' : world) : Prop :=
  same_pool w w' ∨
  (_db_pool w = None ∧ _db_pool w' = Some (pools_created w) ∧
   pools_created w' = S (pools_created w)).

Lemma pop_fault_same_pool w b w1 : pop_fault w = (b, w1) → same_pool w w1.
Proof. unfold pop_fault. by destruct (faults w); intros [= <- <-]. Qed.

#[global] Instance same_pool_steady : Steady same_pool (λ _ _, True).
Proof.
  unfold same_pool. split; try done.
  - intros w1 w2 w3 [??] [??]. split; congruence.
  - apply pop_fault_same_pool.
Qed.

Lemma pool_mono_trans w1 w2 w3 : pool_mono w1 w2 → pool_mono w2 w3 → pool_mono w1 w3.
Proof.
  unfold pool_mono, same_pool.
  intros [[E1 E2]|(E0 & E1 & E2)] [[F1 F2]|(F0 & F1 & F2)].
  - left. split; congruence.
  - right. split_and!; congruence.
  - right. split_and!; congruence.
  - congruence.
Qed.

#[global] Instance pool_mono_steady : Steady pool_mono (λ _ _, True).
Proof.
  split; try (by left); try done.
  - apply pool_mono_trans.
  - intros w b w1 H. left. by eapply pop_fault_same_pool.
Qed.

Lemma create_pool_count url w r w' :
  create_pool url w = (r, w') →
  _db_pool w' = _db_pool w ∧
  ((r = Raise ConnectError ∧ pools_created w' = pools_created w) ∨
   (r = Ret (pools_created w) ∧ pools_created w' = S (pools_created w))).
Proof.
  unfold create_pool, next_fault, mbind, M_bind.
  destruct (pop_fault w) as [b w1] eqn:Ef.
  apply pop_fault_same_pool in Ef as [Hp Hc].
  destruct b; intros [= <- <-]; (split; [done|]); [left|right]; by rewrite <- ?Hc.
Qed.

(** The [try] statement of [_get_pool] creates one pool at most, and
    publishes the one it created; when it returns, it did create one. *)
Lemma get_pool_create_count url w r w' :
  _get_pool_create url w = (r, w') →
  (returned r = false ∧ same_pool w w') ∨
  (_db_pool w' = Some (pools_created w) ∧ pools_created w' = S (pools_created w)).
Proof.
  intros H. unfold _get_pool_create in H.
  assert (∀ r0 w0,
    (import_asyncpg;;
     p ← create_pool url;
     modify (set_db_pool (Some p));;
     w ← get_world;
     _init_tables (_db_pool w);;
     log_info "[STORAGE] PostgreSQL pool initialized") w = (r0, w0) →
    (returned r0 = false ∧ same_pool w w0) ∨
    (_db_pool w0 = Some (pools_created w) ∧ pools_created w0 = S (pools_created w)))
    as Hbody.
  { intros r0 w0 Hb.
    apply bind_inv in Hb as [([] & w4 & Hi & Hb)|(? & Hi & ->)];
      apply (preserves_import_asyncpg (R:=same_pool)) in Hi as [Hp4 Hc4];
      [|by left].
    apply bind_inv in Hb as [(p & w5 & Hc & Hb)|(? & Hc & ->)];
      apply create_pool_count in Hc as [Hp5 [[? Hc5]|[Hr Hc5]]]; try done.
    2: { left. unfold same_pool. split; [done|]. split; congruence. }
    injection Hr as ->.
    apply bind_inv in Hb as [([] & w6 & [= <-] & Hb)|(? & [=] & _)].
    apply bind_inv in Hb as [(w7 & w8 & [= <- <-] & Hb)|(? & [=] & _)].
    assert (∀ r1 w9, _init_tables (Some (pools_created w4)) (set_db_pool (Some (pools_created w4)) w5)
                       = (r1, w9) →
                     _db_pool w9 = Some (pools_created w) ∧
                     pools_created w9 = S (pools_created w)) as Hinit.
    { intros r1 w9 Hin.
      apply (preserves_init_tables (R:=same_pool)) in Hin as [-> ->]; [|done].
      simpl. split; congruence. }
    right.
    apply bind_inv in Hb as [([] & w9 & Hin & [= _ <-])|(? & Hin & _)];
      by apply Hinit in Hin. }
  apply try_except_inv in H as [(a & H & ->)|(e & w3 & H & Hh)].
  { by apply Hbody in H. }
  apply Hbody in H.
  assert (returned r = false ∧ _db_pool w' = _db_pool w3 ∧
          pools_created w' = pools_created w3) as (Hr & Hp & Hc).
  { by destruct e; injection Hh as <- <-. }
  destruct H as [[_ [??]]|[??]]; [left|right]; unfold same_pool.
  - split; [done|]. split; congruence.
  - split; congruence.
Qed.

Lemma get_pool_pool_mono : preserves pool_mono _get_pool.
Proof.
  intros w r w' H. destruct (_db_pool w) as [p|] eqn:Ep.
  { rewrite (get_pool_published _ _ Ep) in H. injection H as <- <-. by left. }
  rewrite (get_pool_unpublished _ Ep) in H. cbv zeta in H.
  set (w1 := if _db_pool_lock w then w else set_db_pool_lock true w) in *.
  assert (same_pool w w1) as [Hp1 Hc1] by (subst w1; by destruct (_db_pool_lock w)).
  clearbody w1.
  destruct (String.eqb _ _); [injection H as <- <-; by left|].
  destruct (_get_pool_create _ w1) as [r2 w2] eqn:E.
  assert (w' = w2) as -> by (by destruct r2 as [[]|]; injection H as _ <-).
  apply get_pool_create_count in E as [[_ [??]]|[??]]; [left|right].
  - split; congruence.
  - split_and!; congruence.
Qed.

(** A call that returns hands out the pool the global holds. *)
Lemma get_pool_ret w p w' :
  _get_pool w = (Ret p, w') → p = _db_pool w' ∧ is_Some p.
Proof.
  intros H. destruct (_db_pool w) as [p0|] eqn:Ep.
  { rewrite (get_pool_published _ _ Ep) in H. injection H as <- <-. by eauto. }
  rewrite (get_pool_unpublished _ Ep) in H. cbv zeta in H.
  destruct (String.eqb _ _); [done|].
  destruct (_get_pool_create _ _) as [[[]|e] w2] eqn:E; [|done].
  injection H as <- <-.
  apply get_pool_create_count in E as [[[=] _]|[-> _]]. by eauto.
Qed.

(** The calls a client of the module can make. *)
Inductive api_call : Type :=
  | CallGetPool
  | CallDbGet (key : string)
  | CallDbSet (key : string) (value : Json.json)
  | CallLoadAccounts
  | CallSaveAccounts (targets : list pydict)
  | CallSaveAccount (account : pydict)
  | CallDeleteAccount (id : pyval)
  | CallDeleteAccounts (ids : list pyval)
  | CallLoadSettings
  | CallSaveSettings (settings : Json.json)
  | CallLoadStats
  | CallSaveStats (stats : Json.json).

Definition perform (c : api_call) : world → world :=
  match c with
  | CallGetPool => world_after _get_pool
  | CallDbGet key => world_after (db_get key)
  | CallDbSet key value => world_after (db_set key value)
  | CallLoadAccounts => world_after load_accounts
  | CallSaveAccounts targets => world_after (save_accounts targets)
  | CallSaveAccount account => world_after (save_account account)
  | CallDeleteAccount id => world_after (delete_account id)
  | CallDeleteAccounts ids => world_after (delete_accounts ids)
  | CallLoadSettings => world_after load_settings
  | CallSaveSettings settings => world_after (save_settings settings)
  | CallLoadStats => world_after load_stats
  | CallSaveStats stats => world_after (save_stats stats)
  end.

(** The calls one after the other, each run to its end. *)
Definition perform_all (calls : list api_call) (w : world) : world :=
  foldl (λ w c, perform c w) w calls.

Lemma perform_pool_mono c w : pool_mono w (perform c w).
Proof.
  pose proof get_pool_pool_mono as Hp.
  destruct c; apply (preserves_world_after pool_mono).
  - done.
  - by apply preserves_db_get.
  - by apply preserves_db_set.
  - by apply preserves_load_accounts.
  - by apply preserves_save_accounts.
  - by apply preserves_save_account.
  - by apply preserves_delete_account.
  - by apply preserves_delete_accounts.
  - by apply preserves_load_settings.
  - by apply preserves_save_settings.
  - by apply preserves_load_stats.
  - by apply preserves_save_stats.
Qed.

Lemma perform_all_pool_mono calls w : pool_mono w (perform_all calls w).
Proof.
  unfold perform_all. revert w. induction calls as [|c calls IH]; intros w; simpl.
  - by left.
  - eapply pool_mono_trans; [apply perform_pool_mono|apply IH].
Qed.

(** X6. Over any sequence of calls of the module, whatever fails, one
    pool at most is created; it is created only while none is published,
    and it is the one published; a pool, once published, is never
    replaced or dropped. *)
Theorem pool_created_once (calls : list api_call) (w : world) :
  (pools_created (perform_all calls w) ≤ S (pools_created w))%nat ∧
  (∀ p, _db_pool w = Some p →
        _db_pool (perform_all calls w) = Some p ∧
        pools_created (perform_all calls w) = pools_created w) ∧
  (pools_created (perform_all calls w) ≠ pools_created w →
   _db_pool w = None ∧ _db_pool (perform_all calls w) = Some (pools_created w)).
Proof.
  destruct (perform_all_pool_mono calls w) as [[Hp Hc]|(H0 & Hp & Hc)].
  - rewrite Hp, Hc. split_and!; [lia|done|done].
  - rewrite Hp, Hc, H0. split_and!; [lia|done|done].
Qed.

(** A process that loads the accounts, saves, reads the settings and
    deletes creates one pool. *)
Example four_calls_one_pool :
  pools_created
    (perform_all [CallLoadAccounts; CallSaveAccount (account_of "a" "s");
                  CallLoadSettings; CallDeleteAccount (PStr "a")]
       (fresh_world (Some "postgres://db") [])) = 1%nat.
Proof. vm_compute. reflexivity. Qed.

(** X7. A failure of [_get_pool] that comes before the pool exists (no
    URL, no driver, [create_pool] raising) is not cached: the global
    stays unset, no pool was created and no row was touched; and once
    nothing fails any more, the next call creates the pool and bootstraps
    the schema. *)
Theorem creation_failure_is_retried (w : world) (e : exn) (w1 : world) :
  _db_pool w = None → _get_pool w = (Raise e, w1) →
  e = ValueError ∨ e = ImportError ∨ e = ConnectError →
  _db_pool w1 = None ∧ pools_created w1 = pools_created w ∧
  same_rows (db w) (db w1) ∧
  (healthy w1 →
   ∃ p w2, _get_pool w1 = (Ret (Some p), w2) ∧ _db_pool w2 = Some p ∧
           pools_created w2 = S (pools_created w) ∧ schema_ready (db w2)).
Proof.
  intros Hp H He. pose proof (creation_failure_not_cached w e w1 Hp H He) as Hp1.
  pose proof (get_pool_pool_mono _ _ _ H) as [[_ Hc]|(_ & Hsome & _)]; [|congruence].
  split_and!; [done|done|by apply get_pool_stable in H as [? _]|].
  intros Hw1. destruct (get_pool_healthy w1 Hw1) as (p & w2 & E & _ & Hp2 & Hsr & _).
  exists p, w2. split_and!; try done.
  pose proof (get_pool_pool_mono _ _ _ E) as [[Hsame _]|(_ & _ & Hcount)]; congruence.
Qed.

(** The database cannot be reached at the first call and answers at
    the second. *)
Lemma creation_failure_is_retried_witness :
  _db_pool (world_after _get_pool (fresh_world (Some "postgres://db") [true])) = None ∧
  ∃ p w2,
    _get_pool (world_after _get_pool (fresh_world (Some "postgres://db") [true]))
      = (Ret (Some p), w2) ∧
    schema_ready (db w2).
Proof.
  destruct (creation_failure_is_retried (fresh_world (Some "postgres://db") [true])
              ConnectError
              (world_after _get_pool (fresh_world (Some "postgres://db") [true])))
    as (Hp & _ & _ & Hretry).
  - reflexivity.
  - vm_compute. reflexivity.
  - auto.
  - split; [exact Hp|]. destruct Hretry as (p & w2 & E & _ & _ & Hsr).
    { unfold healthy. split_and!; try (vm_compute; reflexivity).
      intros [x Hx]. vm_compute in Hx. discriminate. }
    by exists p, w2.
Defined.

(** ** Single-statement writes: [save_account], [delete_account],
    [delete_accounts] *)

(** A [try] around one statement on a pooled connection never raises.
    When it gives [False] nothing was written, unless the statement
    succeeded and only the exit of the connection scope failed; when it
    gives [True] the statement has run, once, on the rows as they were. *)
Lemma one_statement_run s msg failure w :
  ∃ b w',
    try_except
      (pool ← _get_pool;
       with_connection pool (conn_execute s;; log_info msg;; mret true))
      (λ e, log_error failure;; mret false) w = (Ret b, w') ∧
    (b = false →
     ∀ evs, events_between w w' evs → only_release_failed evs = false →
            same_rows (db w) (db w')) ∧
    (b = true → ∃ w1 w2, same_rows (db w) (db w1) ∧
                         conn_execute s w1 = (Ret tt, w2) ∧ db w' = db w2).
Proof.
  assert (keeps clean (conn_execute s;; log_info msg;; mret true)) as Hinner.
  { apply (in_clean keeps_bind); [by apply (in_clean keeps_conn_run)|]. intros _.
    apply (in_clean keeps_bind); [by apply (in_clean keeps_emit)|]. intros _.
    apply (in_clean keeps_ret). }
  unfold try_except.
  match goal with
  | |- context [match ?x with _ => _ end] => destruct x as [[b|e] w1] eqn:E
  end.
  - apply bind_ret_inv in E as (p & w2 & Hp & E).
    apply get_pool_stable in Hp as [Hrows _].
    apply with_connection_ret in E as (w3 & w4 & Hdb3 & _ & E & Hdb1).
    apply bind_ret_inv in E as ([] & w5 & Hs & E).
    apply bind_ret_inv in E as ([] & w6 & [= <-] & [= <- <-]).
    exists true, w1. split; [done|]. split; [done|]. intros _.
    exists w3, w5. split_and!; [by rewrite Hdb3|done|by rewrite Hdb1].
  - eexists false, _. split; [reflexivity|]. split; [|done]. intros _ evs Hevs Hscope.
    cbn [db set_trace].
    apply bind_inv in E as [(p & w2 & Hp & E)|(e' & Hp & _)].
    2: { by apply get_pool_stable in Hp as [Hrows _]. }
    pose proof (get_pool_clean _ _ _ Hp) as (evs1 & Hevs1 & Hok1).
    apply get_pool_stable in Hp as [Hrows _].
    apply (with_connection_raise_cases _ _ _ _ _ Hinner) in E
      as [Hdb|[(w3 & e' & w4 & Hdb3 & E & Hdb1)|(w3 & a & w4 & evs2 & _ & _ & _ & Htr & Hok2)]].
    + by rewrite Hdb.
    + apply bind_inv in E as [([] & w5 & _ & E)|(? & E & _)].
      * by apply bind_inv in E as [(? & ? & _ & [=])|(? & [=] & _)].
      * apply conn_run_raise_db in E. by rewrite Hdb1, E, Hdb3.
    + exfalso. unfold events_between in Hevs. cbn [trace set_trace] in Hevs.
      rewrite Htr, Hevs1, app_assoc in Hevs.
      change (EvLog Error failure :: EvRelease false :: (evs2 ++ evs1) ++ trace w)%list
        with (([EvLog Error failure] ++ EvRelease false :: evs2 ++ evs1) ++ trace w)%list
        in Hevs.
      apply app_inv_tail in Hevs. subst evs.
      rewrite only_release_failed_intro in Hscope; [done|done|].
      rewrite forallb_app, Hok2, Hok1; done.
Qed.

(** The upsert of one row: the row of the id is replaced, it keeps the
    creation time it had, and no other row changes. *)
Lemma upsert_account_ret vals w w' :
  conn_execute (UpsertAccount vals) w = (Ret tt, w') →
  ∃ k now,
    head vals = Some (PStr k) ∧
    account_rows (db w') =
    <[k := AccountRow vals
             (from_option created_at now (account_rows (db w) !! k)) now]>
      (account_rows (db w)).
Proof.
  intros (now & H)%conn_execute_ret. cbn [sql_exec] in H.
  unfold sql_upsert_account in H. unfold account_rows.
  destruct (accounts (db w)) as [tbl|]; [|done].
  destruct (negb (args_fit _ _)); [done|].
  destruct (negb (nulls_allowed _ _)); [done|].
  destruct vals as [|[| | |k] vals']; try done. injection H as <-.
  exists k, now. split; [done|]. simpl. by destruct (tbl !! k).
Qed.

(** X8. [save_account] never raises.  A record without a truthy id is
    refused without a statement being sent.  When it returns [False] the
    rows of the accounts table are what they were, the one exception
    being a run in which the statement succeeded and only the exit of the
    connection scope failed.  When it returns [True] exactly the row of
    the record's id was written: it holds the values of [ACCOUNT_FIELDS]
    read off the record, it keeps the creation time of the row it
    replaces, and every other row is what it was. *)
Theorem save_account_effect (account : pydict) (w : world) :
  ∃ b w',
    save_account account w = (Ret b, w') ∧
    (truthy (dict_get account "id") = false → b = false ∧ w' = w) ∧
    (b = false →
     ∀ evs, events_between w w' evs → only_release_failed evs = false →
            account_rows (db w') = account_rows (db w)) ∧
    (b = true →
     ∃ k row,
       dict_get account "id" = PStr k ∧ k ≠ EmptyString ∧
       account_rows (db w') = <[k := row]> (account_rows (db w)) ∧
       row_values row = _account_dict_to_values account ∧
       created_at row =
         from_option created_at (updated_at row) (account_rows (db w) !! k)).
Proof.
  unfold save_account. rewrite (bind_run get_world _ w w w eq_refl).
  destruct (is_database_enabled (environ w)) eqn:He; cbn [negb].
  2: { exists false, w. by split_and!. }
  destruct (truthy (dict_get account "id")) eqn:Ht; cbn [negb].
  2: { exists false, w. by split_and!. }
  destruct (one_statement_run (UpsertAccount (_account_dict_to_values account))
              "[STORAGE] Saved account to database"
              "[STORAGE] Database write failed" w) as (b & w' & E & Hf & Hs).
  exists b, w'. split; [exact E|]. split; [done|]. split.
  - intros Hb evs Hevs Hscope. by destruct (Hf Hb evs Hevs Hscope).
  - intros Hb. destruct (Hs Hb) as (w1 & w2 & [Hrows _] & Hu & ->).
    apply upsert_account_ret in Hu as (k & now & Hhead & Hrows2).
    change (head (_account_dict_to_values account))
      with (Some (dict_get account "id")) in Hhead.
    injection Hhead as Hid. rewrite Hid in Ht.
    eexists k, _. rewrite Hrows2, Hrows. split_and!; try done.
    by apply truthy_str.
Qed.

(** X9. [delete_accounts] never raises.  When it returns [False] the rows
    are what they were, the one exception being a run in which the
    statement succeeded and only the exit of the connection scope failed;
    when it returns [True] exactly the rows of the listed ids are gone (an
    id that has no row is no error), and with an empty list nothing is
    sent at all. *)
Theorem delete_accounts_effect (ids : list pyval) (w : world) :
  ∃ b w',
    delete_accounts ids w = (Ret b, w') ∧
    (ids = [] → w' = w) ∧
    (b = false →
     ∀ evs, events_between w w' evs → only_release_failed evs = false →
            account_rows (db w') = account_rows (db w)) ∧
    (b = true →
     ∀ k, account_rows (db w') !! k =
          if decide (PStr k ∈ ids) then None else account_rows (db w) !! k).
Proof.
  unfold delete_accounts. rewrite (bind_run get_world _ w w w eq_refl).
  destruct (is_database_enabled (environ w)) eqn:He; cbn [negb].
  2: { exists false, w. by split_and!. }
  destruct ids as [|id ids].
  { exists true, w. by split_and!. }
  destruct (one_statement_run (DeleteAccountsAny (id :: ids))
              "[STORAGE] Deleted accounts from database"
              "[STORAGE] Database delete failed" w) as (b & w' & E & Hf & Hs).
  exists b, w'. split; [exact E|]. split; [done|]. split.
  - intros Hb evs Hevs Hscope. by destruct (Hf Hb evs Hevs Hscope).
  - intros Hb k. destruct (Hs Hb) as (w1 & w2 & [Hrows _] & Hd & ->).
    apply delete_any_ret in Hd. by rewrite Hd, lookup_delete_keys, Hrows.
Qed.

(** X10. [delete_account] never raises.  When it returns [False] the rows
    are what they were, the one exception being a run in which the
    statement succeeded and only the exit of the connection scope failed;
    when it returns [True] the row of the id is gone and every other row
    is what it was. *)
Theorem delete_account_effect (id : pyval) (w : world) :
  ∃ b w',
    delete_account id w = (Ret b, w') ∧
    (b = false →
     ∀ evs, events_between w w' evs → only_release_failed evs = false →
            account_rows (db w') = account_rows (db w)) ∧
    (b = true → account_rows (db w') = delete_key id (account_rows (db w))).
Proof.
  unfold delete_account. rewrite (bind_run get_world _ w w w eq_refl).
  destruct (is_database_enabled (environ w)) eqn:He; cbn [negb].
  2: { exists false, w. by split_and!. }
  destruct (one_statement_run (DeleteAccount id)
              "[STORAGE] Deleted account from database"
              "[STORAGE] Database delete failed" w) as (b & w' & E & Hf & Hs).
  exists b, w'. split; [exact E|]. split.
  - intros Hb evs Hevs Hscope. by destruct (Hf Hb evs Hevs Hscope).
  - intros Hb. destruct (Hs Hb) as (w1 & w2 & [Hrows _] & Hd & ->).
    apply conn_execute_ret in Hd as (now & Hd). cbn [sql_exec] in Hd.
    apply sql_delete_accounts_rows in Hd as [-> _]. by rewrite Hrows.
Qed.

Example save_account_then_delete :
  dom (account_rows
         (db (perform_all [CallSaveAccount (account_of "c" "s3");
                           CallDeleteAccounts [PStr "a"; PStr "zz"]]
                seeded_world))) = {[ "b"; "c" ]}.
Proof. by vm_compute. Qed.

(** The connection is had, the upsert succeeds, and the exit of the
    connection scope fails: [return True] is inside the scope, so the
    exception of the exit reaches the handler, which logs a failure and
    returns [False]; the row is written all the same. *)
Definition release_failure_world : world :=
  set_faults [false; false; true] seeded_world.

Example save_account_release_failure :
  fst (save_account (account_of "c" "s3") release_failure_world) = Ret false ∧
  dom (account_rows (db release_failure_world)) = {[ "a"; "b" ]} ∧
  dom (account_rows
         (db (world_after (save_account (account_of "c" "s3")) release_failure_world)))
    = {[ "a"; "b"; "c" ]} ∧
  firstn 5 (trace (world_after (save_account (account_of "c" "s3"))
                     release_failure_world))
    = [EvLog Error "[STORAGE] Database write failed";
       EvRelease false;
       EvLog Info "[STORAGE] Saved account to database";
       EvSql (UpsertAccount (_account_dict_to_values (account_of "c" "s3"))) true;
       EvAcquire true] ∧
  only_release_failed
    (firstn 5 (trace (world_after (save_account (account_of "c" "s3"))
                        release_failure_world))) = true.
Proof. by vm_compute. Qed.

(** The same for a sync: the transaction is committed, the exit fails,
    and [save_accounts] returns [False] with the new set of rows in
    place. *)
Example save_accounts_release_failure :
  fst (save_accounts [account_of "c" "s3"]
         (set_faults [false; false; false; false; false; false; true] seeded_world))
    = Ret false ∧
  dom (account_rows
         (db (world_after (save_accounts [account_of "c" "s3"])
                (set_faults [false; false; false; false; false; false; true]
                   seeded_world))))
    = {[ "c" ]}.
Proof. by vm_compute. Qed.

(** ** The table after a sync *)

(** The last record of the list that carries the id [k]. *)
Fixpoint last_record (k : string) (targets : list pydict) : option pydict :=
  match targets with
  | [] => None
  | a :: rest =>
      match last_record k rest with
      | Some r => Some r
      | None => if decide (dict_get a "id" = PStr k) then Some a else None
      end
  end.

Lemma last_record_id k targets r :
  last_record k targets = Some r → dict_get r "id" = PStr k.
Proof.
  induction targets as [|a rest IH]; simpl; [done|].
  destruct (last_record k rest); [by intros [= <-]; apply IH|].
  destruct (decide _); [|done]. by intros [= <-].
Qed.

Lemma last_record_new_ids k targets :
  k ≠ EmptyString → PStr k ∈ new_ids targets ↔ is_Some (last_record k targets).
Proof.
  intros Hk. induction targets as [|a rest IH]; simpl.
  { unfold new_ids. simpl. split; [set_solver|by intros [? [=]]]. }
  destruct (truthy (dict_get a "id")) eqn:Ht.
  - rewrite (new_ids_cons_keep _ _ Ht), elem_of_union, elem_of_singleton, IH.
    destruct (last_record k rest); [naive_solver|].
    destruct (decide _); split; naive_solver.
  - rewrite (new_ids_cons_skip _ _ Ht), IH.
    destruct (last_record k rest); [done|].
    destruct (decide _) as [Hid|]; [|done].
    rewrite Hid in Ht. simpl in Ht. by destruct k.
Qed.

Lemma upsert_one_rows account w w' :
  upsert_one account w = (Ret tt, w') →
  (truthy (dict_get account "id") = false ∧ db w' = db w) ∨
  (∃ k now,
     dict_get account "id" = PStr k ∧ k ≠ EmptyString ∧
     account_rows (db w') =
     <[k := AccountRow (_account_dict_to_values account)
              (from_option created_at now (account_rows (db w) !! k)) now]>
       (account_rows (db w))).
Proof.
  unfold upsert_one. destruct (truthy (dict_get account "id")) eqn:Ht; simpl.
  2: { intros [= <-]. by left. }
  intros (k & now & Hhead & Hrows)%upsert_account_ret. right.
  change (head (_account_dict_to_values account))
    with (Some (dict_get account "id")) in Hhead.
  injection Hhead as Hid. rewrite Hid in Ht.
  exists k, now. split_and!; [done|by apply truthy_str|done].
Qed.

(** After the loop, the row of an id holds the values of the last record
    that carries it; the row of an id that no record carries is what it
    was. *)
Lemma upsert_loop_values targets k w w' :
  for_each targets upsert_one w = (Ret tt, w') → k ≠ EmptyString →
  row_values <$> account_rows (db w') !! k =
  match last_record k targets with
  | Some r => Some (_account_dict_to_values r)
  | None => row_values <$> account_rows (db w) !! k
  end.
Proof.
  intros H Hk. revert w H.
  induction targets as [|a rest IH]; intros w; simpl.
  { by intros [= <-]. }
  intros H. apply bind_ret_inv in H as ([] & w1 & H1 & H).
  rewrite (IH _ H). destruct (last_record k rest); [done|].
  apply upsert_one_rows in H1 as [[Ht ->]|(k' & now & Hid & Hk' & ->)].
  - destruct (decide _) as [Hid|]; [|done].
    rewrite Hid in Ht. simpl in Ht. by destruct k.
  - rewrite Hid. destruct (decide (PStr k' = PStr k)) as [[= ->]|Hne].
    + by rewrite lookup_insert_eq.
    + rewrite lookup_insert_ne; [done|congruence].
Qed.

(** The loop keeps the creation time of every row that was there. *)
Lemma upsert_loop_created targets k old w w' :
  for_each targets upsert_one w = (Ret tt, w') →
  account_rows (db w) !! k = Some old →
  ∃ row, account_rows (db w') !! k = Some row ∧ created_at row = created_at old.
Proof.
  revert w old. induction targets as [|a rest IH]; intros w old; simpl.
  { intros [= <-] ?. by exists old. }
  intros H Hold. apply bind_ret_inv in H as ([] & w1 & H1 & H).
  apply upsert_one_rows in H1 as [[_ Hdb]|(k' & now & _ & _ & Hrows)].
  - apply (IH _ old H). by rewrite Hdb.
  - destruct (decide (k' = k)) as [->|Hne].
    + destruct (IH w1 (AccountRow (_account_dict_to_values a) (created_at old) now) H)
        as (row & ? & ?).
      { by rewrite Hrows, Hold, lookup_insert_eq. }
      by exists row.
    + apply (IH _ old H). by rewrite Hrows, lookup_insert_ne.
Qed.

(** The deletion of [reconcile] removes the rows whose id is not among
    the new ones, and no other. *)
Lemma reconcile_ret_rows targets w w' :
  reconcile targets w = (Ret tt, w') →
  ∃ w2,
    (∀ k, account_rows (db w2) !! k =
          if decide (PStr k ∈ new_ids targets) then account_rows (db w) !! k
          else None) ∧
    for_each targets upsert_one w2 = (Ret tt, w').
Proof.
  unfold reconcile. intros H.
  apply bind_ret_inv in H as (rows & w1 & H1 & H).
  assert (db w1 = db w ∧ rows = select_account_ids (db w)) as [Hdb ->].
  { split; [by eapply (conn_run_read_db SelectAccountIds)|].
    rewrite conn_run_eq in H1.
    destruct (pop_fault w) as [[|] w0] eqn:Ef; [done|]. apply pop_fault_db in Ef.
    destruct (sql_exec _ _ _); [|done]. injection H1 as <- _. by rewrite Ef. }
  rewrite select_account_ids_set in H.
  apply bind_ret_inv in H as ([] & w2 & H2 & H).
  exists w2. split; [|exact H]. clear H. intros k. rewrite <- Hdb.
  assert (PStr k ∉ new_ids targets → PStr k ∉ persisted_ids (db w) ∖ new_ids targets →
          account_rows (db w1) !! k = None) as Habsent.
  { intros Hnew Hdel. destruct (account_rows (db w1) !! k) eqn:E; [|done].
    exfalso. apply Hdel, elem_of_difference. split; [|done].
    apply elem_of_persisted_ids. exists k. split; [done|]. rewrite <- Hdb. by eexists. }
  case_bool_decide as Hdels.
  - rewrite (delete_any_ret _ _ _ H2), lookup_delete_keys.
    destruct (decide (PStr k ∈ elements _)) as [Hin|Hnin];
      [apply elem_of_elements in Hin|rewrite elem_of_elements in Hnin];
      destruct (decide (PStr k ∈ new_ids targets)); try done.
    + set_solver.
    + by apply Habsent.
  - injection H2 as <-.
    destruct (decide (PStr k ∈ new_ids targets)) as [|Hnew]; [done|].
    apply Habsent; [done|]. rewrite Hdels. set_solver.
Qed.

(** A [save_accounts] that returned [True] committed a [reconcile] that
    ran on the rows as they were. *)
Lemma save_accounts_ret_inv targets w w' :
  save_accounts targets w = (Ret true, w') →
  ∃ w1 w2, same_rows (db w) (db w1) ∧
           reconcile targets w1 = (Ret tt, w2) ∧ db w' = db w2.
Proof.
  intros H. destruct (is_database_enabled (environ w)) eqn:He.
  2: { by rewrite (save_accounts_disabled _ w He) in H. }
  unfold save_accounts in H.
  rewrite (bind_run get_world _ w w w eq_refl), He in H. cbn [negb] in H.
  apply try_except_inv in H as [(a & H & [= <-])|(e & w1 & _ & [=])].
  apply bind_ret_inv in H as (p & w1 & Hp & H).
  apply get_pool_stable in Hp as [Hrows _].
  apply with_connection_ret in H as (w2 & w3 & Hdb2 & _ & H & Hdb3).
  apply bind_ret_inv in H as ([] & w4 & Ht & H).
  apply bind_ret_inv in H as ([] & w5 & [= <-] & [= <-]).
  apply conn_transaction_ret in Ht as (w6 & w7 & Hdb6 & _ & Hr & Hdb7).
  exists w6, w7. split_and!; [by rewrite Hdb6, Hdb2|done|].
  by rewrite Hdb3.
Qed.

(** A [reconcile] that returned leaves, under each non-empty id, the
    values of the last record that carries it, and no other row. *)
Lemma reconcile_row_values (targets : list pydict) (w w' : world) :
  reconcile targets w = (Ret tt, w') →
  ∀ k, row_values <$> account_rows (db w') !! k =
       if decide (k = EmptyString) then None
       else _account_dict_to_values <$> last_record k targets.
Proof.
  intros Hr k. apply reconcile_ret_rows in Hr as (w3 & Hdel & Hloop).
  destruct (decide (k = EmptyString)) as [->|Hk].
  - pose proof (upsert_loop_ids _ _ _ Hloop) as Hids.
    destruct (account_rows (db w') !! EmptyString) eqn:E; [exfalso|done].
    assert (PStr EmptyString ∈ persisted_ids (db w')) as Hin.
    { apply elem_of_persisted_ids. exists EmptyString. split; [done|]. by eexists. }
    assert (PStr EmptyString ∉ new_ids targets) as Hnew.
    { unfold new_ids. rewrite elem_of_list_to_set, list_elem_of_filter.
      by intros [? _]. }
    rewrite Hids in Hin. apply elem_of_union in Hin as [Hin|Hin]; [|done].
    apply elem_of_persisted_ids in Hin as (k' & [= <-] & [? Hrow]).
    rewrite Hdel in Hrow. by destruct (decide _).
  - rewrite (upsert_loop_values _ _ _ _ Hloop Hk).
    destruct (last_record k targets) eqn:E; [done|].
    rewrite Hdel. destruct (decide _) as [Hin|]; [|done].
    apply (last_record_new_ids _ _ Hk) in Hin as [? Hin]. congruence.
Qed.

(** X11. After a [save_accounts] that returned [True] the field values
    of the table are a function of the target list alone: the row of a
    non-empty id holds the values of the last record of the list that
    carries this id, and there is no row for any other id.  What was in
    the table before has no influence on them. *)
Theorem save_accounts_desired_state (targets : list pydict) (w w' : world) :
  save_accounts targets w = (Ret true, w') →
  ∀ k, row_values <$> account_rows (db w') !! k =
       if decide (k = EmptyString) then None
       else _account_dict_to_values <$> last_record k targets.
Proof.
  intros H k. apply save_accounts_ret_inv in H as (w1 & w2 & _ & Hr & ->).
  by apply (reconcile_row_values _ _ _ Hr).
Qed.

(** From a table with the rows ["a"] and ["b"]: the row ["b"] ends with
    the values of the last of its two records, the row ["a"] is gone. *)
Lemma save_accounts_desired_state_witness :
  row_values <$>
    account_rows
      (db (world_after
             (save_accounts [account_of "b" "s7"; account_of "c" "s8"; account_of "b" "s9"])
             seeded_world)) !! "b"
  = Some (_account_dict_to_values (account_of "b" "s9")) ∧
  row_values <$>
    account_rows
      (db (world_after
             (save_accounts [account_of "b" "s7"; account_of "c" "s8"; account_of "b" "s9"])
             seeded_world)) !! "a"
  = None.
Proof.
  split.
  - apply (save_accounts_desired_state
             [account_of "b" "s7"; account_of "c" "s8"; account_of "b" "s9"]
             seeded_world _ ltac:(vm_compute; reflexivity) "b").
  - apply (save_accounts_desired_state
             [account_of "b" "s7"; account_of "c" "s8"; account_of "b" "s9"]
             seeded_world _ ltac:(vm_compute; reflexivity) "a").
Defined.

(** X12. A sync keeps the creation time of every row that survives it: a
    row whose id is among the targets is still there after a sync that
    returned [True], with the [created_at] it had before. *)
Theorem save_accounts_keeps_created_at
    (targets : list pydict) (w w' : world) (k : string) (old : account_row) :
  save_accounts targets w = (Ret true, w') →
  account_rows (db w) !! k = Some old →
  PStr k ∈ new_ids targets →
  ∃ row, account_rows (db w') !! k = Some row ∧ created_at row = created_at old.
Proof.
  intros H Hold Hin. apply save_accounts_ret_inv in H as (w1 & w2 & [Hrows _] & Hr & ->).
  apply reconcile_ret_rows in Hr as (w3 & Hdel & Hloop).
  apply (upsert_loop_created _ _ _ _ _ Hloop).
  rewrite Hdel, decide_True by done. by rewrite Hrows.
Qed.

Lemma save_accounts_keeps_created_at_witness :
  created_at <$>
    account_rows
      (db (world_after (save_accounts [account_of "c" "s3"; account_of "b" "s9"])
             seeded_world)) !! "b"
  = created_at <$> account_rows (db seeded_world) !! "b".
Proof.
  destruct (save_accounts_keeps_created_at
              [account_of "c" "s3"; account_of "b" "s9"] seeded_world
              (world_after (save_accounts [account_of "c" "s3"; account_of "b" "s9"])
                 seeded_world)
              "b" (AccountRow (_account_dict_to_values (account_of "b" "s2")) 9 9))
    as (row & Hrow & Hcreated).
  - vm_compute. reflexivity.
  - vm_compute. reflexivity.
  - apply elem_of_list_to_set. vm_compute. repeat constructor.
  - rewrite Hrow. cbn [fmap option_fmap option_map]. rewrite Hcreated.
    vm_compute. reflexivity.
Defined.

(** ** Loading the accounts *)

(** The dictionary [load_accounts] makes of the column values of a row. *)
Abbreviation row_dict vals :=
  (_account_row_to_dict (list_to_map (zip ACCOUNT_FIELDS vals))) (only parsing).

Lemma fields_fold_lookup (row : pydict) (fields : list string) (d : pydict) f :
  foldl (λ d field, match row !! field with
                    | Some v => <[field := v]> d
                    | None => d
                    end) d fields !! f
  = if decide (f ∈ fields)
    then match row !! f with Some v => Some v | None => d !! f end
    else d !! f.
Proof.
  revert d. induction fields as [|g fields IH]; intros d; cbn [foldl].
  { rewrite decide_False; [done|apply not_elem_of_nil]. }
  rewrite IH.
  assert (match row !! g with
          | Some v => <[g := v]> d
          | None => d
          end !! f =
          if decide (f = g)
          then match row !! f with Some v => Some v | None => d !! f end
          else d !! f) as ->.
  { destruct (decide (f = g)) as [->|Hne].
    - destruct (row !! g); [apply lookup_insert_eq|done].
    - destruct (row !! g); [by apply lookup_insert_ne|done]. }
  destruct (decide (f ∈ fields)) as [Hin|Hnin], (decide (f = g)) as [->|Hne],
    (decide (_ ∈ g :: fields)) as [Hin'|Hnin']; try done;
    try (by destruct (row !! _)).
  - exfalso. apply Hnin'. by left.
  - exfalso. apply Hnin'. by right.
  - exfalso. apply Hnin'. by left.
  - apply elem_of_cons in Hin' as [?|?]; done.
Qed.

(** [_account_row_to_dict] keeps the columns named in [ACCOUNT_FIELDS]
    and no other key. *)
Lemma account_row_to_dict_lookup (row : pydict) f :
  _account_row_to_dict row !! f =
  if decide (f ∈ ACCOUNT_FIELDS) then row !! f else None.
Proof.
  unfold _account_row_to_dict. rewrite fields_fold_lookup.
  destruct (decide _); [|done]. by destruct (row !! f).
Qed.

Lemma zip_fields_lookup (fields : list string) (g : string → pyval) f :
  (list_to_map (zip fields (map g fields)) : pydict) !! f =
  if decide (f ∈ fields) then Some (g f) else None.
Proof.
  induction fields as [|x fields IH]; cbn [map zip zip_with list_to_map foldr].
  { rewrite decide_False; [done|apply not_elem_of_nil]. }
  cbn [uncurry fst snd curry]. destruct (decide (f = x)) as [->|Hne].
  - rewrite lookup_insert_eq, decide_True; [done|by left].
  - rewrite lookup_insert_ne by done. rewrite IH.
    destruct (decide (f ∈ fields)) as [Hin|Hnin],
      (decide (f ∈ x :: fields)) as [Hin'|Hnin']; try done.
    + exfalso. apply Hnin'. by right.
    + apply elem_of_cons in Hin' as [?|?]; done.
Qed.

Lemma row_dict_values (account : pydict) (f : string) :
  row_dict (_account_dict_to_values account) !! f =
  if decide (f ∈ ACCOUNT_FIELDS) then Some (dict_get account f) else None.
Proof.
  unfold _account_dict_to_values.
  rewrite account_row_to_dict_lookup, zip_fields_lookup.
  by destruct (decide _).
Qed.

(** X13. A record turned into column values and back into a dictionary
    is the record normalised to [ACCOUNT_FIELDS]: each of the eighteen
    fields is present, with [None] where the record had no such key, and
    every other key of the record is dropped. *)
Theorem account_fields_round_trip (account : pydict) (f : string) :
  _account_row_to_dict
    (list_to_map (zip ACCOUNT_FIELDS (_account_dict_to_values account))) !! f =
  if decide (f ∈ ACCOUNT_FIELDS) then Some (dict_get account f) else None.
Proof.
  unfold _account_dict_to_values.
  rewrite account_row_to_dict_lookup, zip_fields_lookup.
  by destruct (decide _).
Qed.

Lemma conn_run_ret {A} s (result : database → A) w a w' :
  conn_run s result w = (Ret a, w') →
  a = result (db w) ∧ ∃ now, sql_exec now s (db w) = Ret (db w').
Proof.
  rewrite conn_run_eq.
  destruct (pop_fault w) as [[|] w1] eqn:Ef; [done|]. apply pop_fault_db in Ef.
  destruct (sql_exec _ s (db w1)) as [d'|e] eqn:E; [|done].
  intros [= <- <-]. rewrite <- Ef. split; [done|]. by eexists.
Qed.

#[global] Instance created_le_total : Total created_le.
Proof. intros a b. unfold created_le. lia. Qed.

Lemma load_accounts_ret_inv w l w' :
  load_accounts w = (Ret (Some l), w') →
  l = map _account_row_to_dict (select_accounts (db w)).
Proof.
  intros H. destruct (is_database_enabled (environ w)) eqn:He.
  2: { by rewrite (load_accounts_disabled w He) in H. }
  unfold load_accounts in H.
  rewrite (bind_run get_world _ w w w eq_refl), He in H. cbn [negb] in H.
  apply try_except_inv in H as [(a & H & [= <-])|(e & w1 & _ & [=])].
  apply bind_ret_inv in H as (p & w1 & Hp & H).
  apply get_pool_stable in Hp as [[Hrows _] _].
  apply with_connection_ret in H as (w2 & w3 & Hdb2 & _ & H & _).
  apply bind_ret_inv in H as (rows & w4 & Hs & H).
  apply bind_ret_inv in H as ([] & w5 & _ & [= <-]).
  apply conn_run_ret in Hs as [-> _].
  unfold select_accounts. by rewrite Hdb2, Hrows.
Qed.

(** X14. A [load_accounts] that returns a list returns one dictionary
    per row of the table, in the order of the creation times, each made
    of the column values of its row. *)
Theorem load_accounts_lists_rows (w : world) (l : list pydict) (w' : world) :
  load_accounts w = (Ret (Some l), w') →
  ∃ rows,
    rows ≡ₚ map_to_list (account_rows (db w)) ∧
    Sorted created_le rows ∧
    l = (λ kv, row_dict (row_values kv.2)) <$> rows.
Proof.
  intros ->%load_accounts_ret_inv.
  exists (merge_sort created_le (map_to_list (account_rows (db w)))).
  split_and!.
  - apply merge_sort_Permutation.
  - apply (Sorted_merge_sort created_le).
  - unfold select_accounts. by rewrite map_map.
Qed.

(** Where nothing fails the accounts are loaded. *)
Lemma load_accounts_healthy w :
  healthy w → ∃ l w', load_accounts w = (Ret (Some l), w').
Proof.
  intros Hw. pose proof Hw as (_ & _ & He & _).
  destruct (get_pool_healthy w Hw)
    as (p & w1 & Ep & (Hf1 & _) & _ & [_ [tbl Htbl]] & _).
  unfold load_accounts. rewrite (bind_run get_world _ w w w eq_refl), He.
  cbn [negb]. unfold try_except. rewrite (bind_run _ _ _ _ _ Ep).
  rewrite (with_connection_quiet p _ w1 Hf1).
  set (w4 := set_trace (EvAcquire true :: trace w1) (set_clock (S (clock w1)) w1)).
  assert (faults w4 = [] ∧ db w4 = db w1) as (Hf4 & Hdb4) by done.
  clearbody w4.
  edestruct (conn_run_ok SelectAccounts select_accounts w4)
    as (w5 & E5 & _ & Hf5 & _); [done| |].
  { cbn [sql_exec]. by rewrite Hdb4, Htbl. }
  rewrite Hf4 in Hf5.
  rewrite (bind_run _ _ _ _ _ E5).
  rewrite (bind_run (log_info _) _ w5 tt _ eq_refl).
  cbn [mret M_ret]. rewrite release_quiet by exact Hf5.
  eexists _, _. reflexivity.
Qed.

Lemma seeded_world_healthy : healthy seeded_world.
Proof.
  unfold healthy. split_and!; try reflexivity. intros _. split; by eexists.
Defined.

Lemma load_accounts_lists_rows_witness :
  ∃ l w' rows,
    load_accounts seeded_world = (Ret (Some l), w') ∧
    rows ≡ₚ map_to_list (account_rows (db seeded_world)) ∧
    Sorted created_le rows ∧
    l = (λ kv, row_dict (row_values kv.2)) <$> rows.
Proof.
  destruct (load_accounts_healthy seeded_world seeded_world_healthy) as (l & w' & E).
  destruct (load_accounts_lists_rows seeded_world l w' E) as (rows & H).
  by exists l, w', rows.
Defined.

(** X15. What was saved is what is loaded: after a [save_accounts] that
    returned [True], a [load_accounts] that returns a list returns, for
    each non-empty id of the target list and for nothing else, the last
    record that carries it, normalised to [ACCOUNT_FIELDS]; no id comes
    twice. *)
Theorem save_then_load
    (targets : list pydict) (w w1 : world) (l : list pydict) (w2 : world) :
  save_accounts targets w = (Ret true, w1) →
  load_accounts w1 = (Ret (Some l), w2) →
  (∀ d, d ∈ l ↔
        ∃ k r, k ≠ EmptyString ∧ last_record k targets = Some r ∧
               d = row_dict (_account_dict_to_values r)) ∧
  NoDup ((λ d, dict_get d "id") <$> l).
Proof.
  intros Hsave Hload.
  apply save_accounts_ret_inv in Hsave as (w0 & w3 & _ & Hr & Hdb).
  pose proof (reconcile_row_values _ _ _ Hr) as Hvalues. rewrite <- Hdb in Hvalues.
  clear Hr Hdb.
  apply load_accounts_ret_inv in Hload as ->.
  unfold select_accounts. rewrite map_map.
  set (rows := merge_sort created_le (map_to_list (account_rows (db w1)))).
  assert (rows ≡ₚ map_to_list (account_rows (db w1))) as Hperm
    by apply merge_sort_Permutation.
  assert (∀ k row, (k, row) ∈ rows ↔ account_rows (db w1) !! k = Some row) as Hrows.
  { intros k row. by rewrite Hperm, elem_of_map_to_list. }
  clearbody rows.
  assert (∀ k row, (k, row) ∈ rows →
            k ≠ EmptyString ∧
            ∃ r, last_record k targets = Some r ∧
                 row_values row = _account_dict_to_values r) as Hrow.
  { intros k row Hin%Hrows. specialize (Hvalues k). rewrite Hin in Hvalues.
    destruct (decide _); [done|]. split; [done|].
    destruct (last_record k targets) as [r|]; [|done].
    exists r. split; [done|]. by injection Hvalues. }
  split.
  - intros d. rewrite list_elem_of_In, in_map_iff. split.
    + intros ([k row] & <- & Hin%list_elem_of_In).
      destruct (Hrow _ _ Hin) as (Hk & r & Hr & Hv).
      exists k, r. split_and!; [done|done|]. cbn [snd]. by rewrite Hv.
    + intros (k & r & Hk & Hr & ->).
      specialize (Hvalues k). rewrite Hr, decide_False in Hvalues by done.
      destruct (account_rows (db w1) !! k) as [row|] eqn:E; [|done].
      injection Hvalues as Hv. exists (k, row). cbn [snd]. rewrite Hv.
      split; [done|]. by apply list_elem_of_In, Hrows.
  - change (map ?f rows) with (f <$> rows). rewrite <- list_fmap_compose.
    assert ((λ d : pydict, dict_get d "id") ∘
              (λ kv : string * account_row,
                 _account_row_to_dict (list_to_map (zip ACCOUNT_FIELDS (row_values kv.2))))
              <$> rows = PStr <$> rows.*1) as ->.
    { rewrite <- list_fmap_compose. apply Forall_fmap_ext_1, Forall_forall.
      intros [k row] Hin. destruct (Hrow _ _ Hin) as (_ & r & Hr & Hv).
      cbn [compose fst snd]. rewrite Hv. unfold dict_get at 1.
      rewrite row_dict_values, decide_True by (by left).
      cbn [default from_option]. apply (last_record_id _ _ _ Hr). }
    apply NoDup_fmap_2; [by intros ?? [=]|].
    rewrite Hperm. apply NoDup_fst_map_to_list.
Qed.

(** The store after a second sync, with two records for ["b"]. *)
Definition resynced_world : world :=
  Eval vm_compute in
  world_after
    (save_accounts [account_of "b" "s7"; account_of "c" "s8"; account_of "b" "s9"])
    seeded_world.

Lemma resynced_world_healthy : healthy resynced_world.
Proof.
  unfold healthy. split_and!; try reflexivity. intros _. split; by eexists.
Defined.

Lemma save_then_load_witness :
  ∃ l w2,
    load_accounts resynced_world = (Ret (Some l), w2) ∧
    row_dict (_account_dict_to_values (account_of "b" "s9")) ∈ l.
Proof.
  destruct (load_accounts_healthy resynced_world resynced_world_healthy)
    as (l & w2 & E).
  exists l, w2. split; [exact E|].
  destruct (save_then_load
              [account_of "b" "s7"; account_of "c" "s8"; account_of "b" "s9"]
              seeded_world resynced_world l w2) as [Hin _].
  - vm_compute. reflexivity.
  - exact E.
  - apply Hin. exists "b", (account_of "b" "s9").
    split; [discriminate|]. split; [|reflexivity].
    vm_compute. reflexivity.
Defined.

(** ** Documents: [db_set], [db_get], settings and statistics *)

Lemma db_set_ret key value w w' :
  db_set key value w = (Ret tt, w') →
  ∃ doc now,
    Json.loads (Json.dumps value) = Some doc ∧
    kv_rows (db w') = <[key := KvRow doc now]> (kv_rows (db w)) ∧
    account_rows (db w') = account_rows (db w).
Proof.
  unfold db_set. intros H.
  apply bind_ret_inv in H as (p & w1 & Hp & H).
  apply get_pool_stable in Hp as [[Hacc Hkv] _].
  apply with_connection_ret in H as (w2 & w3 & Hdb2 & _ & H & ->).
  apply conn_execute_ret in H as (now & H). cbn [sql_exec] in H.
  unfold sql_upsert_kv in H. rewrite Hdb2 in H.
  rewrite <- Hkv, <- Hacc. unfold kv_rows, account_rows.
  destruct (kv_store (db w1)) as [tbl|]; [|done].
  destruct (negb _); [done|]. unfold jsonb_in in H.
  destruct (Json.loads _) as [doc|]; [|done].
  destruct (Json.nul_free doc); [|done]. injection H as <-.
  by exists doc, now.
Qed.

(** A [db_set] that raises has written nothing, unless the statement
    succeeded and only the exit of the connection scope failed. *)
Lemma db_set_raise key value w e w' evs :
  db_set key value w = (Raise e, w') →
  events_between w w' evs → only_release_failed evs = false →
  same_rows (db w) (db w').
Proof.
  unfold db_set. intros H Hevs Hscope.
  apply bind_inv in H as [(p & w1 & Hp & H)|(e' & Hp & _)].
  2: { by apply get_pool_stable in Hp as [Hrows _]. }
  pose proof (get_pool_clean _ _ _ Hp) as (evs1 & Hevs1 & Hok1).
  apply get_pool_stable in Hp as [Hrows _].
  assert (keeps clean (conn_execute (UpsertKv key (Json.dumps value)))) as Hinner
    by (by apply (in_clean keeps_conn_run)).
  apply (with_connection_raise_cases _ _ _ _ _ Hinner) in H
    as [Hdb|[(w2 & e' & w3 & Hdb2 & H & Hdb3)|(w2 & a & w3 & evs2 & _ & _ & _ & Htr & Hok2)]].
  - by rewrite Hdb.
  - apply conn_run_raise_db in H. by rewrite Hdb3, H, Hdb2.
  - exfalso. unfold events_between in Hevs.
    rewrite Htr, Hevs1, app_assoc in Hevs.
    change (EvRelease false :: (evs2 ++ evs1) ++ trace w)%list
      with (([] ++ EvRelease false :: evs2 ++ evs1) ++ trace w)%list in Hevs.
    apply app_inv_tail in Hevs. subst evs.
    rewrite only_release_failed_intro in Hscope; [done|done|].
    rewrite forallb_app, Hok2, Hok1; done.
Qed.

(** X16. A [db_set] that returns has replaced the whole document under
    its key by the document its JSON text denotes (nothing of the earlier
    document is kept), and has touched no other key and no account; a
    [db_set] that raises has written nothing, the one exception being a
    run in which the statement succeeded and only the exit of the
    connection scope failed. *)
Theorem db_set_replaces_document
    (key : string) (value : Json.json) (w : world) (r : outcome unit) (w' : world) :
  db_set key value w = (r, w') →
  match r with
  | Ret _ =>
      ∃ doc now,
        Json.loads (Json.dumps value) = Some doc ∧
        kv_rows (db w') = <[key := KvRow doc now]> (kv_rows (db w)) ∧
        account_rows (db w') = account_rows (db w)
  | Raise _ =>
      ∀ evs, events_between w w' evs → only_release_failed evs = false →
             same_rows (db w) (db w')
  end.
Proof.
  destruct r as [[]|e]; [apply db_set_ret|].
  intros H evs. by apply (db_set_raise key value w e w' evs).
Qed.

(** A store that holds a settings document. *)
Definition configured_world : world :=
  Eval vm_compute in
  world_after (db_set "settings" sample_document) seeded_world.

Lemma db_set_replaces_document_witness :
  ∃ doc now,
    Json.loads (Json.dumps (Json.JObj [])) = Some doc ∧
    kv_rows (db (world_after (db_set "settings" (Json.JObj [])) configured_world))
    = <["settings" := KvRow doc now]> (kv_rows (db configured_world)) ∧
    account_rows (db (world_after (db_set "settings" (Json.JObj [])) configured_world))
    = account_rows (db configured_world).
Proof.
  apply (db_set_replaces_document "settings" (Json.JObj []) configured_world (Ret tt)).
  vm_compute. reflexivity.
Defined.

(** The upsert succeeds and the exit of the connection scope fails:
    [db_set] raises, and the document is stored. *)
Example db_set_release_failure :
  fst (db_set "stats" (Json.JObj []) (set_faults [false; false; true] configured_world))
    = Raise PostgresError ∧
  kv_value <$>
    kv_rows (db (world_after (db_set "stats" (Json.JObj []))
                   (set_faults [false; false; true] configured_world))) !! "stats"
    = Some (Json.JObj []) ∧
  kv_rows (db configured_world) !! "stats" = None.
Proof. by vm_compute. Qed.

(** What [db_get] makes of a stored document: the driver hands it back
    as text, or decoded when a codec is registered; text, and a decoded
    value that is a string, go through [json.loads]. *)
Definition decode_fetched (codec : bool) (doc : Json.json) : outcome Json.json :=
  match (if codec then FDoc doc else FText (Json.dumps doc)) with
  | FText s | FDoc (Json.JStr s) =>
      match Json.loads s with
      | Some v => Ret v
      | None => Raise JSONDecodeError
      end
  | FDoc v => Ret v
  end.

Lemma decode_fetched_ok codec doc :
  Json.loads (Json.dumps doc) = Some doc →
  (codec = true → ∀ s, doc ≠ Json.JStr s) →
  decode_fetched codec doc = Ret doc.
Proof.
  intros Hcodec Hstr. unfold decode_fetched. destruct codec.
  - specialize (Hstr eq_refl). destruct doc; try done. by destruct (Hstr s).
  - by rewrite Hcodec.
Qed.

Lemma healthy_set_trace w x : healthy w → healthy (set_trace x w).
Proof. done. Qed.

(** [db_get] where nothing fails. *)
Lemma db_get_quiet key w :
  healthy w →
  ∃ w',
    db_get key w =
    (match kv_rows (db w) !! key with
     | None => Ret Json.JNull
     | Some row => decode_fetched (jsonb_codec w) (kv_value row)
     end, w') ∧
    healthy w' ∧ same_rows (db w) (db w') ∧ jsonb_codec w' = jsonb_codec w.
Proof.
  intros Hw.
  destruct (get_pool_healthy w Hw)
    as (p & w1 & Ep & Hw1 & Hp1 & Hsr & (Hrows & _ & _ & Hc1 & _)).
  pose proof Hw1 as (Hf1 & _). pose proof Hsr as [[tbl Htbl] _].
  unfold db_get. rewrite (bind_run _ _ _ _ _ Ep).
  rewrite (with_connection_quiet p _ w1 Hf1).
  set (w4 := set_trace (EvAcquire true :: trace w1) (set_clock (S (clock w1)) w1)).
  assert (faults w4 = [] ∧ db w4 = db w1 ∧ jsonb_codec w4 = jsonb_codec w1 ∧
          same_process w1 w4) as (Hf4 & Hdb4 & Hc4 & Hsp4) by done.
  clearbody w4.
  rewrite (bind_run get_world _ w4 w4 w4 eq_refl).
  edestruct (conn_run_ok (SelectKvValue key) (select_kv_value (jsonb_codec w4) key) w4)
    as (w5 & E5 & Hdb5 & Hsp5); [done| |].
  { cbn [sql_exec]. rewrite Hdb4, Htbl. reflexivity. }
  rewrite (bind_run _ _ _ _ _ E5).
  assert (faults w5 = []) as Hf5 by (destruct Hsp5 as [-> _]; exact Hf4).
  set (w6 := set_trace (EvRelease true :: trace w5) (set_clock (S (clock w5)) w5)).
  assert (healthy w6 ∧ same_rows (db w) (db w6) ∧ jsonb_codec w6 = jsonb_codec w)
    as Hpost.
  { pose proof (same_process_trans _ _ _ Hsp4 Hsp5) as Hsp.
    split_and!.
    - apply healthy_set_trace.
      change (healthy w5).
      eapply same_process_healthy; [exact Hw1|exact Hsp|by rewrite Hdb5].
    - cbn [db set_trace]. change (db w6) with (db w5). by rewrite Hdb5.
    - change (jsonb_codec w6) with (jsonb_codec w5).
      destruct Hsp as (_ & _ & _ & _ & _ & ->). exact Hc1. }
  assert (∀ r : outcome Json.json, release r w5 = (r, w6)) as Hrel
    by (intros r; by apply release_quiet).
  clearbody w6.
  unfold select_kv_value. fold (kv_rows (db w4)).
  destruct Hrows as [_ Hkv]. rewrite Hdb4, Hkv, Hc4, Hc1.
  destruct (kv_rows (db w) !! key) as [row|].
  2: { cbn [mret M_ret]. rewrite Hrel. eexists. split; [reflexivity|exact Hpost]. }
  unfold decode_fetched.
  destruct (jsonb_codec w); [destruct (kv_value row)|];
    try (cbn [mret M_ret]; rewrite Hrel; eexists; split; [reflexivity|exact Hpost]);
    destruct (Json.loads _); cbn [mret M_ret raise]; rewrite Hrel; eexists;
      (split; [reflexivity|exact Hpost]).
Qed.

(** X17. Where nothing fails, [db_get] of a key that was never set
    returns [None]; it does not raise. *)
Theorem db_get_missing_key (key : string) (w : world) :
  healthy w → kv_rows (db w) !! key = None →
  ∃ w', db_get key w = (Ret Json.JNull, w').
Proof.
  intros Hw Hkey. destruct (db_get_quiet key w Hw) as (w' & E & _).
  rewrite Hkey in E. by exists w'.
Qed.

Lemma db_get_missing_key_witness :
  ∃ w', db_get "stats" configured_world = (Ret Json.JNull, w').
Proof.
  apply (db_get_missing_key "stats" configured_world); [|reflexivity].
  unfold healthy. split_and!; try reflexivity. intros _. split; by eexists.
Defined.

Lemma db_set_quiet key value w :
  healthy w → Json.loads (Json.dumps value) = Some value →
  Json.nul_free_string key = true → Json.nul_free value = true →
  ∃ w' now,
    db_set key value w = (Ret tt, w') ∧ healthy w' ∧
    jsonb_codec w' = jsonb_codec w ∧
    kv_rows (db w') = <[key := KvRow value now]> (kv_rows (db w)).
Proof.
  intros Hw Hcodec Hkey Hnul.
  destruct (db_set_healthy key value w Hw Hcodec Hkey Hnul) as (w' & E & Hw' & Hc & _).
  destruct (db_set_ret _ _ _ _ E) as (doc & now & Hdoc & Hkv & _).
  exists w', now. split_and!; try done. congruence.
Qed.

Lemma save_settings_quiet settings w :
  healthy w → Json.loads (Json.dumps settings) = Some settings →
  Json.nul_free settings = true →
  ∃ w' now,
    save_settings settings w = (Ret true, w') ∧ healthy w' ∧
    jsonb_codec w' = jsonb_codec w ∧
    kv_rows (db w') = <["settings" := KvRow settings now]> (kv_rows (db w)).
Proof.
  intros Hw Hcodec Hnul. pose proof Hw as (_ & _ & He & _).
  destruct (db_set_quiet "settings" settings w Hw Hcodec eq_refl Hnul)
    as (w' & now & E & Hw' & Hc & Hkv).
  unfold save_settings. rewrite (bind_run get_world _ w w w eq_refl), He.
  cbn [negb]. unfold try_except. rewrite (bind_run _ _ _ _ _ E).
  eexists _, now. split; [reflexivity|]. by split_and!.
Qed.

Lemma save_stats_quiet stats w :
  healthy w → Json.loads (Json.dumps stats) = Some stats →
  Json.nul_free stats = true →
  ∃ w' now,
    save_stats stats w = (Ret true, w') ∧ healthy w' ∧
    jsonb_codec w' = jsonb_codec w ∧
    kv_rows (db w') = <["stats" := KvRow stats now]> (kv_rows (db w)).
Proof.
  intros Hw Hcodec Hnul. pose proof Hw as (_ & _ & He & _).
  destruct (db_set_quiet "stats" stats w Hw Hcodec eq_refl Hnul)
    as (w' & now & E & Hw' & Hc & Hkv).
  unfold save_stats. rewrite (bind_run get_world _ w w w eq_refl), He.
  cbn [negb]. unfold try_except. rewrite (bind_run _ _ _ _ _ E).
  eexists _, now. split; [reflexivity|]. by split_and!.
Qed.

Lemma load_document_quiet key failure doc now w :
  healthy w → kv_rows (db w) !! key = Some (KvRow doc now) →
  Json.loads (Json.dumps doc) = Some doc →
  (jsonb_codec w = true → ∀ s, doc ≠ Json.JStr s) →
  ∃ w',
    (w0 ← get_world;
     if negb (is_database_enabled (environ w0)) then mret Json.JNull
     else try_except (db_get key) (λ e, log_error failure;; mret Json.JNull)) w
    = (Ret doc, w') ∧
    healthy w' ∧ jsonb_codec w' = jsonb_codec w ∧ kv_rows (db w') = kv_rows (db w).
Proof.
  intros Hw Hrow Hcodec Hstr. pose proof Hw as (_ & _ & He & _).
  destruct (db_get_quiet key w Hw) as (w' & E & Hw' & [_ Hkv] & Hc).
  rewrite Hrow in E. cbn [kv_value] in E.
  rewrite (decode_fetched_ok _ _ Hcodec Hstr) in E.
  rewrite (bind_run get_world _ w w w eq_refl), He. cbn [negb].
  unfold try_except. rewrite E. by exists w'.
Qed.

(** X18. Settings and statistics are two documents that do not disturb
    each other: where nothing fails, for documents that the JSON text
    codec carries without loss and that hold no U+0000 in a string or a
    key (their numbers being integers), after [save_settings] and then
    [save_stats], [load_settings] returns the settings that were saved
    and [load_stats] the statistics. *)
Theorem settings_and_stats_independent (settings stats : Json.json) (w : world) :
  healthy w →
  Json.loads (Json.dumps settings) = Some settings →
  Json.loads (Json.dumps stats) = Some stats →
  Json.nul_free settings = true → Json.nul_free stats = true →
  (jsonb_codec w = true → ∀ s, settings ≠ Json.JStr s ∧ stats ≠ Json.JStr s) →
  ∃ w1 w2 w3 w4,
    save_settings settings w = (Ret true, w1) ∧
    save_stats stats w1 = (Ret true, w2) ∧
    load_settings w2 = (Ret settings, w3) ∧
    load_stats w3 = (Ret stats, w4).
Proof.
  intros Hw Hsettings Hstats Hnul1 Hnul2 Hstr.
  destruct (save_settings_quiet settings w Hw Hsettings Hnul1)
    as (w1 & now1 & E1 & Hw1 & Hc1 & Hkv1).
  destruct (save_stats_quiet stats w1 Hw1 Hstats Hnul2)
    as (w2 & now2 & E2 & Hw2 & Hc2 & Hkv2).
  destruct (load_document_quiet "settings" "[STORAGE] Settings read failed"
              settings now1 w2 Hw2) as (w3 & E3 & Hw3 & Hc3 & Hkv3); [|done| |].
  { by rewrite Hkv2, lookup_insert_ne, Hkv1, lookup_insert_eq. }
  { rewrite Hc2, Hc1. intros Hc s. by destruct (Hstr Hc s). }
  destruct (load_document_quiet "stats" "[STORAGE] Stats read failed"
              stats now2 w3 Hw3) as (w4 & E4 & _); [|done| |].
  { by rewrite Hkv3, Hkv2, lookup_insert_eq. }
  { rewrite Hc3, Hc2, Hc1. intros Hc s. by destruct (Hstr Hc s). }
  by exists w1, w2, w3, w4.
Qed.

Lemma settings_and_stats_independent_witness :
  ∃ w1 w2 w3 w4,
    save_settings sample_document (fresh_world (Some "postgres://db") [])
      = (Ret true, w1) ∧
    save_stats (Json.JObj [("requests", Json.JNum 12)]) w1 = (Ret true, w2) ∧
    load_settings w2 = (Ret sample_document, w3) ∧
    load_stats w3 = (Ret (Json.JObj [("requests", Json.JNum 12)]), w4).
Proof.
  apply (settings_and_stats_independent sample_document
           (Json.JObj [("requests", Json.JNum 12)])
           (fresh_world (Some "postgres://db") [])).
  - by apply fresh_world_healthy.
  - vm_compute. reflexivity.
  - vm_compute. reflexivity.
  - reflexivity.
  - reflexivity.
  - intros [=].
Defined.

Lemma db_set_clean key value : keeps clean (db_set key value).
Proof.
  apply (in_clean keeps_bind); [apply (in_clean keeps_get_pool)|]. intros p.
  apply (in_clean keeps_with_connection). by apply (in_clean keeps_conn_run).
Qed.

(** A save whose [db_set] raised, seen from outside the handler. *)
Lemma save_document_raise key value failure w e w1 evs :
  db_set key value w = (Raise e, w1) →
  events_between w (set_trace (EvLog Error failure :: trace w1) w1) evs →
  only_release_failed evs = false →
  same_rows (db w) (db w1).
Proof.
  intros E Hevs Hscope.
  destruct (db_set_clean key value _ _ _ E) as (evs1 & Hevs1 & _).
  unfold events_between in Hevs. cbn [trace set_trace] in Hevs.
  rewrite Hevs1 in Hevs.
  change (EvLog Error failure :: evs1 ++ trace w)%list
    with ((EvLog Error failure :: evs1) ++ trace w)%list in Hevs.
  apply app_inv_tail in Hevs. subst evs.
  by apply (db_set_raise key value w e w1 evs1).
Qed.

(** X19. The four functions for settings and statistics never raise.  A
    save that returns [False] has written nothing, the one exception
    being a run in which the statement succeeded and only the exit of the
    connection scope failed; a save that returns [True] has replaced its
    own document and nothing else. *)
Theorem documents_never_raise (w : world) (value : Json.json) :
  (∃ r w', load_settings w = (Ret r, w')) ∧
  (∃ r w', load_stats w = (Ret r, w')) ∧
  (∃ b w', save_settings value w = (Ret b, w') ∧
           (b = false →
            ∀ evs, events_between w w' evs → only_release_failed evs = false →
                   same_rows (db w) (db w')) ∧
           (b = true → ∃ doc now,
              Json.loads (Json.dumps value) = Some doc ∧
              kv_rows (db w') = <["settings" := KvRow doc now]> (kv_rows (db w)))) ∧
  (∃ b w', save_stats value w = (Ret b, w') ∧
           (b = false →
            ∀ evs, events_between w w' evs → only_release_failed evs = false →
                   same_rows (db w) (db w')) ∧
           (b = true → ∃ doc now,
              Json.loads (Json.dumps value) = Some doc ∧
              kv_rows (db w') = <["stats" := KvRow doc now]> (kv_rows (db w)))).
Proof.
  split_and!.
  - unfold load_settings. rewrite (bind_run get_world _ w w w eq_refl).
    destruct (negb _); [by eexists _, _|]. unfold try_except.
    destruct (db_get _ w) as [[r|e] w1]; by eexists _, _.
  - unfold load_stats. rewrite (bind_run get_world _ w w w eq_refl).
    destruct (negb _); [by eexists _, _|]. unfold try_except.
    destruct (db_get _ w) as [[r|e] w1]; by eexists _, _.
  - unfold save_settings. rewrite (bind_run get_world _ w w w eq_refl).
    destruct (negb _); [by exists false, w|]. unfold try_except.
    destruct (db_set "settings" value w) as [[[]|e] w1] eqn:E.
    + rewrite (bind_run _ _ _ _ _ E). eexists true, _. split; [reflexivity|].
      split; [done|]. intros _.
      destruct (db_set_ret _ _ _ _ E) as (doc & now & ? & ? & _). by exists doc, now.
    + rewrite (bind_run_raise _ _ _ _ _ E). eexists false, _.
      split; [reflexivity|]. split; [|done]. intros _ evs Hevs Hscope.
      cbn [db set_trace]. by eapply save_document_raise.
  - unfold save_stats. rewrite (bind_run get_world _ w w w eq_refl).
    destruct (negb _); [by exists false, w|]. unfold try_except.
    destruct (db_set "stats" value w) as [[[]|e] w1] eqn:E.
    + rewrite (bind_run _ _ _ _ _ E). eexists true, _. split; [reflexivity|].
      split; [done|]. intros _.
      destruct (db_set_ret _ _ _ _ E) as (doc & now & ? & ? & _). by exists doc, now.
    + rewrite (bind_run_raise _ _ _ _ _ E). eexists false, _.
      split; [reflexivity|]. split; [|done]. intros _ evs Hevs Hscope.
      cbn [db set_trace]. by eapply save_document_raise.
Qed.

(** * The GPTMail client

    [GPTMailClient] of [gptmail_client.py]: the object is a record that
    the methods take and give back; what is outside the process (the
    replies of the mail service, the time slept, the log callback's
    record) is a world of its own.  JSON values are the values Python
    sees after [response.json()]. *)

Module GPTMail.

(** Python's truth value of a JSON value. *)
Definition json_truthy (v : Json.json) : bool :=
  match v with
  | Json.JNull => false
  | Json.JBool b => b
  | Json.JNum n => negb (n =? 0)
  | Json.JStr s => negb (String.eqb s EmptyString)
  | Json.JArr items => match items with [] => false | _ :: _ => true end
  | Json.JObj members => match members with [] => false | _ :: _ => true end
  end.

(** The value of a key in a [dict] built from JSON text: the last
    member with this key. *)
Fixpoint obj_lookup (key : string) (members : list (string * Json.json))
  : option Json.json :=
  match members with
  | [] => None
  | (k, v) :: rest =>
      match obj_lookup key rest with
      | Some v' => Some v'
      | None => if String.eqb k key then Some v else None
      end
  end.

(** [d.get(key, dflt)]; [None] when [d] is no [dict] (AttributeError). *)
Definition py_get (d : Json.json) (key : string) (dflt : Json.json) : option Json.json :=
  match d with
  | Json.JObj members => Some (default dflt (obj_lookup key members))
  | _ => None
  end.

(** [d[key]] with a string key; [None] when it raises (KeyError on a
    [dict] without the key, TypeError on anything else). *)
Definition py_item (d : Json.json) (key : string) : option Json.json :=
  match d with
  | Json.JObj members => obj_lookup key members
  | _ => None
  end.

(** [a or b] *)
Definition py_or (a b : Json.json) : Json.json :=
  if json_truthy a then a else b.

(** [s.endswith(suffix)] *)
Definition endswith (s suffix : string) : bool :=
  let n := String.length s in
  let m := String.length suffix in
  (m <=? n)%nat && String.eqb (String.substring (n - m) m s) suffix.

(** [s.rstrip(c)] for a one-character [c] *)
Fixpoint rstrip_char (c : ascii) (s : string) : string :=
  match s with
  | String a s' =>
      match rstrip_char c s' with
      | EmptyString => if Ascii.eqb a c then EmptyString else String a EmptyString
      | r => String a r
      end
  | EmptyString => EmptyString
  end.

(** What iterating over a JSON value yields, when [len] and [for] accept
    it: the items of a list, the characters of a string, the keys of a
    [dict]. *)
Definition py_iter (v : Json.json) : option (list Json.json) :=
  match v with
  | Json.JArr items => Some items
  | Json.JStr s =>
      Some (map (λ a, Json.JStr (String a EmptyString)) (list_ascii_of_string s))
  | Json.JObj members => Some (map (λ kv, Json.JStr kv.1) members)
  | _ => None
  end.

Inductive level : Type := Info | Warning | Error.

(** The messages the client logs, without their formatted details. *)
Inductive message : Type :=
  | MsgGenerated                  (* GPTMail 生成邮箱: ... *)
  | MsgSkipped                    (* GPTMail 跳过非 ... 邮箱 *)
  | MsgRetry (attempt : nat)      (* GPTMail 生成邮箱失败，重试 (n/10) *)
  | MsgGenerateException
  | MsgGenerateFailed
  | MsgListException
  | MsgNoEmail
  | MsgFetching
  | MsgListEmpty
  | MsgReceived
  | MsgItem (idx : nat)
  | MsgCodeFromSubject
  | MsgCodeFromBody
  | MsgFetchException
  | MsgWaiting (elapsed timeout : Z)
  | MsgTimeout.

(** What [session.get] gives: it raises, or there is a reply with a
    status code and a body ([None]: a body [response.json()] rejects). *)
Inductive response : Type :=
  | GetRaises
  | Replies (status_code : Z) (body : option Json.json).

(** The outside: the reply the service gives to the n-th request, the
    URLs requested (newest first), the seconds slept, and what the log
    callback was given (newest first). *)
Record world : Type := World {
  net : nat → string → response;
  sent : list string;
  slept : Z;
  log : list (level * message) }.

Record client : Type := Client {
  base_url : string;
  proxy : string;
  domain_filter : string;
  log_callback : bool;           (* a callback was given *)
  email : Json.json;             (* [JNull] is [None] *)
  password : Json.json;
  session : bool }.              (* [false] once closed *)

(** [__init__]; [verify_ssl] and [proxy] configure the session, the
    [api_key] is not kept. *)
Definition __init__ (base_url proxy : string) (verify_ssl : bool)
    (api_key domain : string) (log_callback : bool) : client :=
  Client
    (rstrip_char "/"
       (if String.eqb base_url EmptyString then "https://mail.chatgpt.org.uk"
        else base_url))
    proxy (strip domain) log_callback Json.JNull Json.JNull true.

(** [_log]: what the callback does, an exception included, stays with
    the callback. *)
Definition _log (c : client) (lvl : level) (m : message) (w : world) : world :=
  if log_callback c then World (net w) (sent w) (slept w) ((lvl, m) :: log w)
  else w.

(** [self.session.get(url, headers=..., timeout=15)]; on a closed
    client [self.session] is [None] and the call raises. *)
Definition session_get (c : client) (url : string) (w : world) : response * world :=
  if session c
  then (net w (length (sent w)) url, World (net w) (url :: sent w) (slept w) (log w))
  else (GetRaises, w).

(** [time.sleep(secs)] for [secs >= 0] *)
Definition time_sleep (secs : Z) (w : world) : world :=
  World (net w) (sent w) (slept w + secs) (log w).

(** The three ways an attempt of [register_account] reads a reply: an
    exception, a reply without a mailbox, a mailbox. *)
Inductive generated : Type :=
  | Excepts
  | Refused
  | Mailbox (email : Json.json).

Definition read_generated (r : response) : generated :=
  match r with
  | GetRaises => Excepts
  | Replies code body =>
      if code =? 200 then
        match body with
        | None => Excepts
        | Some data =>
            match py_get data "success" Json.JNull with
            | None => Excepts
            | Some success =>
                if json_truthy success then
                  match py_item data "data" with
                  | None => Excepts
                  | Some d =>
                      match py_item d "email" with
                      | None => Excepts
                      | Some e => Mailbox e
                      end
                  end
                else Refused
            end
        end
      else Refused
  end.

(** The domain test of [register_account]; [None] when [email.endswith]
    raises (the mailbox is no string). *)
Definition domain_matches (filter_domain : string) (e : Json.json) : option bool :=
  match e with
  | Json.JStr s =>
      Some (endswith s ("." ++ filter_domain) || endswith s ("@" ++ filter_domain))
  | _ => None
  end.

Definition accept (c : client) (e : Json.json) : client :=
  Client (base_url c) (proxy c) (domain_filter c) (log_callback c) e
         (Json.JStr EmptyString) (session c).

(** The loop of [register_account], with [n] attempts left. *)
Fixpoint register_attempts (n attempt : nat) (filter_domain url : string)
    (c : client) (w : world) : bool * client * world :=
  match n with
  | O => (false, c, _log c Error MsgGenerateFailed w)
  | S n' =>
      let '(r, w1) := session_get c url w in
      let on_exception :=
        register_attempts n' (S attempt) filter_domain url c
          (time_sleep 1 (_log c Error MsgGenerateException w1)) in
      match read_generated r with
      | Excepts => on_exception
      | Refused =>
          register_attempts n' (S attempt) filter_domain url c
            (time_sleep 1 (_log c Warning (MsgRetry (S attempt)) w1))
      | Mailbox e =>
          if negb (String.eqb filter_domain EmptyString) then
            match domain_matches filter_domain e with
            | None => on_exception
            | Some true => (true, accept c e, _log (accept c e) Info MsgGenerated w1)
            | Some false =>
                register_attempts n' (S attempt) filter_domain url c
                  (_log c Info MsgSkipped w1)
            end
          else (true, accept c e, _log (accept c e) Info MsgGenerated w1)
      end
  end.

Definition register_account (c : client) (domain : option string) (w : world)
  : bool * client * world :=
  let url := base_url c ++ "/api/generate-email" in
  let filter_domain :=
    match domain with
    | Some d => if String.eqb d EmptyString then domain_filter c else d
    | None => domain_filter c
    end in
  register_attempts 10 0 filter_domain url c w.

Definition set_credentials (c : client) (email password : Json.json) : client :=
  Client (base_url c) (proxy c) (domain_filter c) (log_callback c) email password
         (session c).

Definition login (c : client) : bool := true.

Definition close (c : client) : client :=
  Client (base_url c) (proxy c) (domain_filter c) (log_callback c) (email c)
         (password c) false.

Inductive raised : Type := ZeroDivisionError | ValueError.

Inductive result (A : Type) : Type :=
  | Returns (a : A)
  | Raises (e : raised).
Arguments Returns {A} a.
Arguments Raises {A} e.

Section Client.

(** [urllib.parse.quote], [core.mail_utils.extract_verification_code]
    ([None] when it raises) and the time filter of
    [fetch_verification_code] (the comparison of the parsed date of an
    email with [since_time]; [true] when the email is skipped) are taken
    as they come. *)
Variable quote : string → string.
Variable extract_verification_code : Json.json → option (option string).
Context {datetime : Type}.
Variable before_since : datetime → Json.json → bool.

(** [_get_emails]: [None] when it raises (the address is no string and
    [quote] rejects it), else the value it returns. *)
Definition _get_emails (c : client) (w : world) : option Json.json * world :=
  if negb (json_truthy (email c)) then (Some Json.JNull, w)
  else
    match email c with
    | Json.JStr address =>
        let url := base_url c ++ "/api/emails?email=" ++ quote address in
        let '(r, w1) := session_get c url w in
        let on_exception := (Some Json.JNull, _log c Error MsgListException w1) in
        match r with
        | GetRaises => on_exception
        | Replies code body =>
            if code =? 200 then
              match body with
              | None => on_exception
              | Some data =>
                  match py_get data "success" Json.JNull with
                  | None => on_exception
                  | Some success =>
                      if json_truthy success then
                        match py_item data "data" with
                        | None => on_exception
                        | Some d =>
                            match py_item d "emails" with
                            | None => on_exception
                            | Some emails => (Some emails, w1)
                            end
                        end
                      else (Some Json.JNull, w1)
                  end
              end
            else (Some Json.JNull, w1)
        end
    | _ => (None, w)
    end.

(** [if code:] *)
Definition code_truthy (code : option string) : bool :=
  match code with
  | Some s => negb (String.eqb s EmptyString)
  | None => false
  end.

Definition item_subject (members : list (string * Json.json)) : Json.json :=
  default (Json.JStr EmptyString) (obj_lookup "subject" members).

Definition item_body (members : list (string * Json.json)) : Json.json :=
  let field name := default (Json.JStr EmptyString) (obj_lookup name members) in
  py_or (field "content") (py_or (field "body") (py_or (field "text") (field "html_content"))).

(** One round of the loop over the emails: [Some (Some code)] returns
    the code, [Some None] goes on with the next email, [None] raises. *)
Definition scan_item (c : client) (since_time : option datetime)
    (item : Json.json) (w : world) : option (option string) * world :=
  match item with
  | Json.JObj members =>
      if match since_time with
         | Some t => before_since t item
         | None => false
         end
      then (Some None, w)
      else
        match extract_verification_code (item_subject members) with
        | None => (None, w)
        | Some code =>
            if code_truthy code then (Some code, _log c Info MsgCodeFromSubject w)
            else if json_truthy (item_body members) then
              match extract_verification_code (item_body members) with
              | None => (None, w)
              | Some code =>
                  if code_truthy code then (Some code, _log c Info MsgCodeFromBody w)
                  else (Some None, w)
              end
            else (Some None, w)
        end
  | _ => (None, w)
  end.

Fixpoint scan_items (c : client) (since_time : option datetime) (idx : nat)
    (items : list Json.json) (w : world) : option (option string) * world :=
  match items with
  | [] => (Some None, w)
  | item :: rest =>
      match scan_item c since_time item (_log c Info (MsgItem idx) w) with
      | (Some None, w1) => scan_items c since_time (S idx) rest w1
      | r => r
      end
  end.

Definition fetch_verification_code (c : client) (since_time : option datetime)
    (w : world) : option string * world :=
  if negb (json_truthy (email c)) then (None, _log c Error MsgNoEmail w)
  else
    match _get_emails c (_log c Info MsgFetching w) with
    | (None, w1) => (None, _log c Error MsgFetchException w1)
    | (Some emails, w1) =>
        if negb (json_truthy emails) then (None, _log c Info MsgListEmpty w1)
        else
          match py_iter emails with
          | None => (None, _log c Error MsgFetchException w1)
          | Some items =>
              match scan_items c since_time 0 items (_log c Info MsgReceived w1) with
              | (Some code, w2) => (code, w2)
              | (None, w2) => (None, _log c Error MsgFetchException w2)
              end
          end
    end.

(** The loop of [poll_for_code], with [n] rounds left, in round [i]. *)
Fixpoint poll_attempts (c : client) (since_time : option datetime)
    (timeout interval max_retries : Z) (n : nat) (i : Z) (w : world)
  : result (option string) * world :=
  match n with
  | O => (Returns None, _log c Error MsgTimeout w)
  | S n' =>
      let '(code, w1) := fetch_verification_code c since_time w in
      if code_truthy code then (Returns code, w1)
      else if i <? max_retries then
        let w2 := _log c Info (MsgWaiting (i * interval) timeout) w1 in
        if interval <? 0 then (Raises ValueError, w2)
        else
          poll_attempts c since_time timeout interval max_retries n' (i + 1)
            (time_sleep interval w2)
      else poll_attempts c since_time timeout interval max_retries n' (i + 1) w1
  end.

Definition poll_for_code (c : client) (timeout interval : Z)
    (since_time : option datetime) (w : world) : result (option string) * world :=
  if interval =? 0 then (Raises ZeroDivisionError, w)
  else
    let max_retries := timeout / interval in
    poll_attempts c since_time timeout interval max_retries (Z.to_nat max_retries) 1 w.

End Client.

(** ** What the methods do to the outside *)

Lemma log_net c l m w : net (_log c l m w) = net w.
Proof. unfold _log. by destruct (log_callback c). Qed.

Lemma log_sent c l m w : sent (_log c l m w) = sent w.
Proof. unfold _log. by destruct (log_callback c). Qed.

Lemma log_slept c l m w : slept (_log c l m w) = slept w.
Proof. unfold _log. by destruct (log_callback c). Qed.


(** What [n] attempts of [register_account] leave behind. *)
Definition register_post (n : nat) (filter_domain url : string)
    (c : client) (w : world) (ok : bool) (c' : client) (w' : world) : Prop :=
  net w' = net w ∧
  (length (sent w') ≤ length (sent w) + n)%nat ∧
  slept w ≤ slept w' ≤ slept w + Z.of_nat n ∧
  (ok = false →
   c' = c ∧
   (session c = true → length (sent w') = (length (sent w) + n)%nat) ∧
   (session c = false → sent w' = sent w ∧ slept w' = slept w + Z.of_nat n)) ∧
  (ok = true →
   session c = true ∧
   ∃ e i,
     c' = accept c e ∧
     (length (sent w) ≤ i < length (sent w'))%nat ∧
     read_generated (net w i url) = Mailbox e ∧
     (filter_domain ≠ EmptyString → domain_matches filter_domain e = Some true)).

Lemma register_post_step n filter_domain url c w wmid ok c' w' :
  register_post n filter_domain url c wmid ok c' w' →
  net wmid = net w →
  (if session c then sent wmid = url :: sent w else sent wmid = sent w) →
  (slept wmid = slept w ∨ slept wmid = slept w + 1) →
  (session c = false → slept wmid = slept w + 1) →
  register_post (S n) filter_domain url c w ok c' w'.
Proof.
  unfold register_post. intros (Hn & Hl & Hs & Hf & Ht) Hnet Hsent Hslept Hclosed.
  assert (length (sent wmid) ≤ S (length (sent w)))%nat as Hle.
  { destruct (session c); rewrite Hsent; simpl; lia. }
  split_and!.
  - congruence.
  - lia.
  - lia.
  - lia.
  - intros Hok. destruct (Hf Hok) as (-> & Ho & Hc). split_and!; [done|..].
    + intros Hopen. rewrite Hopen in Hsent. rewrite (Ho Hopen), Hsent. simpl. lia.
    + intros Hcl. rewrite Hcl in Hsent. destruct (Hc Hcl) as [-> ->].
      rewrite Hsent, (Hclosed Hcl). split; [done|lia].
  - intros Hok. destruct (Ht Hok) as (Hopen & e & i & -> & Hi & Hr & Hm).
    split; [done|]. exists e, i. rewrite Hopen in Hsent. rewrite Hsent in Hi.
    simpl in Hi. rewrite <- Hnet. split_and!; try done; lia.
Qed.

Lemma register_attempts_post n :
  ∀ attempt filter_domain url c w ok c' w',
    register_attempts n attempt filter_domain url c w = (ok, c', w') →
    register_post n filter_domain url c w ok c' w'.
Proof.
  induction n as [|n IH]; intros attempt filter_domain url c w ok c' w' H;
    cbn [register_attempts] in H.
  { injection H as <- <- <-. unfold register_post.
    rewrite log_net, log_sent, log_slept. split_and!; try done; try lia.
    intros _. split_and!; try done; intros _; try split; try done; lia. }
  unfold session_get in H.
  assert (∀ lvl m w1,
            net w1 = net w →
            (if session c then sent w1 = url :: sent w else sent w1 = sent w) →
            slept w1 = slept w →
            register_attempts n (S attempt) filter_domain url c
              (time_sleep 1 (_log c lvl m w1)) = (ok, c', w') →
            register_post (S n) filter_domain url c w ok c' w') as Hretry.
  { intros lvl m w1 Hnet Hsent Hslept E. apply IH in E.
    eapply register_post_step; [exact E|..]; cbn [time_sleep net sent slept];
      rewrite ?log_net, ?log_sent, ?log_slept; try done.
    - right. lia.
    - intros _. lia. }
  destruct (session c) eqn:Hopen.
  2: { cbv beta iota zeta in H. cbn [read_generated] in H.
       by apply (Hretry Error MsgGenerateException w); [..|exact H]; rewrite ?Hopen. }
  cbv beta iota zeta in H.
  set (w1 := World (net w) (url :: sent w) (slept w) (log w)) in *.
  assert (∀ e, (filter_domain ≠ EmptyString → domain_matches filter_domain e = Some true) →
               read_generated (net w (length (sent w)) url) = Mailbox e →
               (true, accept c e, _log (accept c e) Info MsgGenerated w1) = (ok, c', w') →
               register_post (S n) filter_domain url c w ok c' w') as Haccept.
  { intros e Hm Hr [= <- <- <-]. unfold register_post.
    rewrite log_net, log_sent, log_slept. cbn [net sent slept w1 length].
    split_and!; try done; try lia.
    intros _. split; [done|]. exists e, (length (sent w)).
    split_and!; try done; lia. }
  destruct (read_generated (net w (length (sent w)) url)) as [| |e] eqn:Hr.
  - by apply (Hretry Error MsgGenerateException w1); [..|exact H]; rewrite ?Hopen.
  - by apply (Hretry Warning (MsgRetry (S attempt)) w1); [..|exact H]; rewrite ?Hopen.
  - destruct (negb (String.eqb filter_domain EmptyString)) eqn:Hf.
    2: { apply (Haccept e); [|done|exact H]. intros Hne.
         apply negb_false_iff, String.eqb_eq in Hf. done. }
    destruct (domain_matches filter_domain e) as [[|]|] eqn:Hm.
    + by apply (Haccept e); [..|exact H].
    + apply IH in H. eapply register_post_step; [exact H|..];
        rewrite ?log_net, ?log_sent, ?log_slept, ?Hopen; try done. by left.
    + by apply (Hretry Error MsgGenerateException w1); [..|exact H]; rewrite ?Hopen.
Qed.

Section Facts.
Variable quote : string → string.
Variable extract_verification_code : Json.json → option (option string).
Context {datetime : Type}.
Variable before_since : datetime → Json.json → bool.

Lemma get_emails_post c w r w' :
  _get_emails quote c w = (r, w') →
  net w' = net w ∧ slept w' = slept w ∧
  (length (sent w') ≤ S (length (sent w)))%nat ∧
  (session c = false → sent w' = sent w).
Proof.
  unfold _get_emails, session_get. intros H.
  repeat case_match; simplify_eq;
    rewrite ?log_net, ?log_sent, ?log_slept; cbn [net sent slept length];
    split_and!; try done; lia.
Qed.

Lemma scan_item_post c since_time item w r w' :
  scan_item extract_verification_code before_since c since_time item w = (r, w') →
  net w' = net w ∧ sent w' = sent w ∧ slept w' = slept w ∧
  (∀ code, r = Some code → code = None ∨ code_truthy code = true) ∧
  (∀ s, r = Some (Some s) →
        ∃ members,
          item = Json.JObj members ∧
          (extract_verification_code (item_subject members) = Some (Some s) ∨
           extract_verification_code (item_body members) = Some (Some s))).
Proof.
  unfold scan_item. intros H.
  repeat case_match; simplify_eq;
    rewrite ?log_net, ?log_sent, ?log_slept;
    (split_and!; [done|done|done|intros ? [= <-]; auto|]);
    intros code' [= ->]; eexists; (split; [done|]); auto.
Qed.

Lemma scan_items_post c since_time items :
  ∀ idx w r w',
    scan_items extract_verification_code before_since c since_time idx items w
      = (r, w') →
    net w' = net w ∧ sent w' = sent w ∧ slept w' = slept w ∧
    (∀ code, r = Some code → code = None ∨ code_truthy code = true) ∧
    (∀ s, r = Some (Some s) →
          ∃ members,
            Json.JObj members ∈ items ∧
            (extract_verification_code (item_subject members) = Some (Some s) ∨
             extract_verification_code (item_body members) = Some (Some s))).
Proof.
  induction items as [|item rest IH]; intros idx w r w' H; cbn [scan_items] in H.
  { injection H as <- <-. split_and!; try done. intros ? [= <-]; auto. }
  destruct (scan_item _ _ c since_time item _) as [r1 w1] eqn:E.
  apply scan_item_post in E as (Hn & Hs & Hl & Hc & Hp).
  rewrite log_net in Hn. rewrite log_sent in Hs. rewrite log_slept in Hl.
  destruct r1 as [[s|]|].
  - injection H as <- <-. split_and!; try done.
    intros s' Hs'. destruct (Hp s' Hs') as (members & -> & Hx).
    exists members. split; [by left|done].
  - apply IH in H as (Hn' & Hs' & Hl' & Hc' & Hp').
    split_and!; try congruence; [exact Hc'|].
    intros s Hr. destruct (Hp' s Hr) as (members & Hin & Hx).
    exists members. split; [by right|done].
  - injection H as <- <-. split_and!; try done.
Qed.

Lemma fetch_post c since_time w code w' :
  fetch_verification_code quote extract_verification_code before_since c since_time w
    = (code, w') →
  net w' = net w ∧ slept w' = slept w ∧
  (length (sent w') ≤ S (length (sent w)))%nat ∧
  (code = None ∨ code_truthy code = true) ∧
  (json_truthy (email c) = false ∨ session c = false → code = None ∧ sent w' = sent w) ∧
  (∀ s, code = Some s →
        ∃ members, extract_verification_code (item_subject members) = Some (Some s) ∨
                   extract_verification_code (item_body members) = Some (Some s)).
Proof.
  unfold fetch_verification_code. intros H.
  destruct (json_truthy (email c)) eqn:Hmail; cbn [negb] in H.
  2: { injection H as <- <-. rewrite log_net, log_sent, log_slept.
       split_and!; try done; [lia|by left]. }
  destruct (_get_emails quote c _) as [got w1] eqn:E.
  apply get_emails_post in E as Hpost. destruct Hpost as (Hn & Hl & Hs & Hclosed).
  rewrite log_net in Hn. rewrite log_slept in Hl. rewrite log_sent in Hs, Hclosed.
  assert (session c = false → got = None ∨ got = Some Json.JNull) as Hgot.
  { intros Hcl. revert E. unfold _get_emails, session_get. rewrite Hcl, Hmail.
    cbn [negb]. destruct (email c); intros [= <- _]; auto. }
  assert (∀ m lvl,
            (None, _log c lvl m w1) = (code, w') →
            net w' = net w ∧ slept w' = slept w ∧
            (length (sent w') ≤ S (length (sent w)))%nat ∧
            (code = None ∨ code_truthy code = true) ∧
            (json_truthy (email c) = false ∨ session c = false →
             code = None ∧ sent w' = sent w) ∧
            (∀ s, code = Some s →
                  ∃ members,
                    extract_verification_code (item_subject members) = Some (Some s) ∨
                    extract_verification_code (item_body members) = Some (Some s)))
    as Hnone.
  { intros m lvl [= <- <-]. rewrite log_net, log_sent, log_slept.
    split_and!; try done; [by left|].
    intros [?|Hcl]; [congruence|]. split; [done|]. by apply Hclosed. }
  rewrite Hmail in Hnone.
  destruct got as [emails|]; [|by eapply Hnone].
  destruct (json_truthy emails) eqn:Htruthy; cbn [negb] in H; [|by eapply Hnone].
  destruct (py_iter emails) as [items|]; [|by eapply Hnone].
  destruct (scan_items _ _ c since_time 0 items _) as [r w2] eqn:Escan.
  apply scan_items_post in Escan as (Hn2 & Hs2 & Hl2 & Hc2 & Hp2).
  rewrite log_net in Hn2. rewrite log_sent in Hs2. rewrite log_slept in Hl2.
  assert (session c = false → False) as Hopen.
  { intros Hcl. destruct (Hgot Hcl) as [[=]|[= ->]]. done. }
  destruct r as [code'|].
  - injection H as <- <-. split_and!; try congruence.
    + by apply Hc2.
    + intros [?|Hcl]; [congruence|by destruct (Hopen Hcl)].
    + intros s ->. destruct (Hp2 s eq_refl) as (members & _ & Hx). by exists members.
  - injection H as <- <-. rewrite log_net, log_sent, log_slept.
    split_and!; try congruence; try (by left).
    intros [?|Hcl]; [congruence|by destruct (Hopen Hcl)].
Qed.

(** The first email that yields a code decides, and its subject comes
    before its body. *)
Lemma scan_items_first c since_time before members after s :
  (∀ x w, x ∈ before →
          (scan_item extract_verification_code before_since c since_time x w).1
          = Some None) →
  match since_time with
  | Some t => before_since t (Json.JObj members)
  | None => false
  end = false →
  extract_verification_code (item_subject members) = Some (Some s) →
  s ≠ EmptyString →
  ∀ idx w,
    (scan_items extract_verification_code before_since c since_time idx
       (before ++ Json.JObj members :: after) w).1 = Some (Some s).
Proof.
  intros Hbefore Hsince Hsubject Hs.
  induction before as [|x before IH]; intros idx w; cbn [app scan_items].
  - unfold scan_item. rewrite Hsince, Hsubject.
    assert (code_truthy (Some s) = true) as ->; [|done].
    simpl. by apply negb_true_iff, String.eqb_neq.
  - pose proof (Hbefore x (_log c Info (MsgItem idx) w) ltac:(by left)) as Hx.
    destruct (scan_item _ _ c since_time x _) as [r w1]. simpl in Hx. subst r.
    apply IH. intros y w2 Hy. apply Hbefore. by right.
Qed.

Lemma poll_attempts_post c since_time timeout interval m :
  0 ≤ interval →
  ∀ n i w r w',
    Z.of_nat n = Z.max 0 (m - i + 1) →
    poll_attempts quote extract_verification_code before_since c since_time
      timeout interval m n i w = (r, w') →
    ∃ code sleeps,
      r = Returns code ∧ (code = None ∨ code_truthy code = true) ∧
      net w' = net w ∧
      (length (sent w') ≤ length (sent w) + n)%nat ∧
      (json_truthy (email c) = false ∨ session c = false → sent w' = sent w) ∧
      0 ≤ sleeps ≤ Z.max 0 (m - i) ∧
      slept w' = slept w + sleeps * interval ∧
      (code = None → sleeps = Z.max 0 (m - i)).
Proof.
  intros Hinterval. induction n as [|n IH]; intros i w r w' Hn H;
    cbn [poll_attempts] in H.
  { injection H as <- <-. exists None, 0. rewrite log_net, log_sent, log_slept.
    split_and!; try done; try lia. by left. }
  destruct (fetch_verification_code _ _ _ c since_time w) as [code w1] eqn:E.
  apply fetch_post in E as (Hnet & Hslept & Hsent & Hcode & Hquiet & _).
  destruct (code_truthy code) eqn:Htruthy.
  { injection H as <- <-. exists code, 0. split_and!; try done; try lia.
    - by right.
    - intros Hc. by apply Hquiet.
    - intros ->. done. }
  destruct Hcode as [->|?]; [|congruence].
  destruct (i <? m) eqn:Hi.
  - apply Z.ltb_lt in Hi.
    assert ((interval <? 0) = false) as Hneg by (apply Z.ltb_ge; lia).
    cbv zeta in H. rewrite Hneg in H.
    apply IH in H as (code & sleeps & -> & Hc & Hnet' & Hsent' & Hq' & Hb & Hs & Hexact);
      [|lia].
    cbn [time_sleep net sent slept] in *.
    rewrite ?log_net, ?log_sent, ?log_slept in *.
    exists code, (sleeps + 1).
    split_and!; try done; try congruence; try lia;
      try (intros Hc'; destruct (Hquiet Hc') as [_ ?]; rewrite (Hq' Hc'); done);
      intros Hnone; specialize (Hexact Hnone); lia.
  - apply Z.ltb_ge in Hi.
    apply IH in H as (code & sleeps & -> & Hc & Hnet' & Hsent' & Hq' & Hb & Hs & Hexact);
      [|lia].
    exists code, sleeps.
    split_and!; try done; try congruence; try lia;
      try (intros Hc'; destruct (Hquiet Hc') as [_ ?]; rewrite (Hq' Hc'); done);
      intros Hnone; specialize (Hexact Hnone); lia.
Qed.

End Facts.

Lemma rstrip_char_no_trailing c s s' :
  rstrip_char c s ≠ (s' ++ String c EmptyString)%string.
Proof.
  revert s'. induction s as [|a s IH]; intros s'; cbn [rstrip_char].
  { by destruct s'. }
  destruct (rstrip_char c s) as [|b r] eqn:E.
  - destruct (Ascii.eqb a c) eqn:Ea; [by destruct s'|].
    destruct s' as [|x s'']; simpl.
    + intros [= ->]. by rewrite Ascii.eqb_refl in Ea.
    + intros [= _ H]. by destruct s''.
  - destruct s' as [|x s'']; simpl; [by intros [= _ ?]|].
    intros [= _ H]. by apply (IH s'').
Qed.

Lemma rstrip_char_prefix c s :
  ∃ k, s = (rstrip_char c s ++ string_of_list_ascii (repeat c k))%string.
Proof.
  induction s as [|a s [k IH]]; cbn [rstrip_char].
  { by exists 0%nat. }
  destruct (rstrip_char c s) as [|b r] eqn:E.
  - change (String.append EmptyString ?x) with x in IH.
    destruct (Ascii.eqb a c) eqn:Ea.
    + apply Ascii.eqb_eq in Ea as ->. exists (S k).
      change (String c s = String c (string_of_list_ascii (repeat c k))).
      by rewrite <- IH.
    + exists k. change (String a s = String a (string_of_list_ascii (repeat c k))).
      by rewrite <- IH.
  - exists k.
    change (String a s = String a (String b r +:+ string_of_list_ascii (repeat c k))).
    by rewrite <- IH.
Qed.

End GPTMail.

(** ** [GPTMailClient]: what a caller can rely on *)

(** X20. [register_account] asks the service ten times at most and
    sleeps ten seconds at most.  When it returns [False] the client is
    what it was (no address, no password set), and an open client has
    asked exactly ten times. *)
Theorem register_account_bounded
    (c : GPTMail.client) (domain : option string) (w : GPTMail.world) :
  let '(ok, c', w') := GPTMail.register_account c domain w in
  (length (GPTMail.sent w') ≤ length (GPTMail.sent w) + 10)%nat ∧
  GPTMail.slept w ≤ GPTMail.slept w' ≤ GPTMail.slept w + 10 ∧
  (ok = false →
   c' = c ∧
   (GPTMail.session c = true →
    length (GPTMail.sent w') = (length (GPTMail.sent w) + 10)%nat)).
Proof.
  destruct (GPTMail.register_account c domain w) as [[ok c'] w'] eqn:E.
  apply GPTMail.register_attempts_post in E as (_ & Hl & Hs & Hf & _).
  split_and!; try done; try lia. intros Hok. by destruct (Hf Hok) as (? & ? & _).
Qed.

(** The domain [register_account] filters on: its argument, or the
    filter of the client when the argument is [None] or empty. *)
Definition filter_domain_of (c : GPTMail.client) (domain : option string) : string :=
  match domain with
  | Some d => if String.eqb d EmptyString then GPTMail.domain_filter c else d
  | None => GPTMail.domain_filter c
  end.

(** X21. When [register_account] returns [True], the address it has set
    is the mailbox of one of the replies it received, the password is
    the empty string, and with a domain filter the address is a string
    that ends with [.domain] or [@domain]. *)
Theorem register_account_accepts
    (c : GPTMail.client) (domain : option string) (w : GPTMail.world) :
  let '(ok, c', w') := GPTMail.register_account c domain w in
  ok = true →
  GPTMail.password c' = Json.JStr EmptyString ∧
  (∃ i, (length (GPTMail.sent w) ≤ i < length (GPTMail.sent w'))%nat ∧
        GPTMail.read_generated
          (GPTMail.net w i (GPTMail.base_url c ++ "/api/generate-email"))
        = GPTMail.Mailbox (GPTMail.email c')) ∧
  (filter_domain_of c domain ≠ EmptyString →
   ∃ address,
     GPTMail.email c' = Json.JStr address ∧
     (GPTMail.endswith address ("." ++ filter_domain_of c domain) = true ∨
      GPTMail.endswith address ("@" ++ filter_domain_of c domain) = true)).
Proof.
  destruct (GPTMail.register_account c domain w) as [[ok c'] w'] eqn:E.
  apply GPTMail.register_attempts_post in E as (_ & _ & _ & _ & Ht).
  intros Hok. destruct (Ht Hok) as (_ & e & i & -> & Hi & Hr & Hm).
  split_and!; [done|by exists i|]. intros Hne. specialize (Hm Hne).
  unfold GPTMail.domain_matches in Hm. destruct e; try done.
  injection Hm as Hm. apply orb_true_iff in Hm. by eexists.
Qed.

(** A service that offers a mailbox of another domain, then fails, then
    offers one of the domain asked for. *)
Definition sample_service (n : nat) (url : string) : GPTMail.response :=
  let mailbox address :=
    GPTMail.Replies 200
      (Some (Json.JObj [("success", Json.JBool true);
                        ("data", Json.JObj [("email", Json.JStr address)])])) in
  match n with
  | 0%nat => mailbox "a1@other.org"
  | 1%nat => GPTMail.Replies 503 None
  | _ => mailbox "b2@mail.example.com"
  end.

Definition sample_client : GPTMail.client :=
  GPTMail.__init__ "https://mail.chatgpt.org.uk/" EmptyString true EmptyString
    " example.com " true.

Example register_account_example :
  (λ r, (r.1.1, GPTMail.email r.1.2, length (GPTMail.sent r.2), GPTMail.slept r.2))
    (GPTMail.register_account sample_client None
       (GPTMail.World sample_service [] 0 []))
  = (true, Json.JStr "b2@mail.example.com", 3%nat, 1).
Proof. vm_compute. reflexivity. Qed.

Lemma register_account_accepts_witness :
  let '(ok, c', w') :=
    GPTMail.register_account sample_client None
      (GPTMail.World sample_service [] 0 []) in
  GPTMail.password c' = Json.JStr EmptyString ∧
  ∃ address,
    GPTMail.email c' = Json.JStr address ∧
    (GPTMail.endswith address ("." ++ filter_domain_of sample_client None) = true ∨
     GPTMail.endswith address ("@" ++ filter_domain_of sample_client None) = true).
Proof.
  pose proof (register_account_accepts sample_client None
                (GPTMail.World sample_service [] 0 [])) as H.
  destruct (GPTMail.register_account sample_client None
              (GPTMail.World sample_service [] 0 [])) as [[ok c'] w'] eqn:E.
  assert (ok = true) as Hok.
  { apply (f_equal (λ r, r.1.1)) in E. vm_compute in E. congruence. }
  destruct (H Hok) as (Hpw & _ & Hdom). split; [exact Hpw|].
  apply Hdom. vm_compute. discriminate.
Defined.

(** X22. A closed client is inert: [register_account] returns [False]
    without a request (after sleeping its ten seconds), and
    [fetch_verification_code] returns [None] without a request. *)
Theorem closed_client_is_inert
    (quote : string → string)
    (extract_verification_code : Json.json → option (option string))
    {datetime : Type} (before_since : datetime → Json.json → bool)
    (c : GPTMail.client) (domain : option string)
    (since_time : option datetime) (w : GPTMail.world) :
  GPTMail.session c = false →
  (∃ w', GPTMail.register_account c domain w = (false, c, w') ∧
         GPTMail.sent w' = GPTMail.sent w ∧
         GPTMail.slept w' = GPTMail.slept w + 10) ∧
  (∃ w', GPTMail.fetch_verification_code quote extract_verification_code
           before_since c since_time w = (None, w') ∧
         GPTMail.sent w' = GPTMail.sent w ∧
         GPTMail.slept w' = GPTMail.slept w).
Proof.
  intros Hclosed. split.
  - destruct (GPTMail.register_account c domain w) as [[ok c'] w'] eqn:E.
    apply GPTMail.register_attempts_post in E as (_ & _ & _ & Hf & Ht).
    destruct ok; [destruct (Ht eq_refl) as [? _]; congruence|].
    destruct (Hf eq_refl) as (-> & _ & Hc). destruct (Hc Hclosed) as [? ?].
    by exists w'.
  - destruct (GPTMail.fetch_verification_code _ _ _ c since_time w)
      as [code w'] eqn:E.
    apply GPTMail.fetch_post in E as (_ & Hs & _ & _ & Hq & _).
    destruct Hq as [-> ?]; [by right|]. by exists w'.
Qed.

Lemma closed_client_is_inert_witness :
  (∃ w', GPTMail.register_account (GPTMail.close sample_client) None
           (GPTMail.World sample_service [] 0 [])
         = (false, GPTMail.close sample_client, w') ∧
         GPTMail.sent w' = [] ∧ GPTMail.slept w' = 0 + 10) ∧
  (∃ w', GPTMail.fetch_verification_code (λ s, s) (λ _, Some None)
           (λ (_ : unit) _, false) (GPTMail.close sample_client) None
           (GPTMail.World sample_service [] 0 [])
         = (None, w') ∧
         GPTMail.sent w' = [] ∧ GPTMail.slept w' = 0).
Proof.
  apply (closed_client_is_inert (λ s, s) (λ _, Some None) (λ (_ : unit) _, false)
           (GPTMail.close sample_client) None None
           (GPTMail.World sample_service [] 0 [])).
  reflexivity.
Defined.


(** X24. The first email of the list that yields a code decides, and
    its subject comes before its body: when the emails before it yield
    nothing and its subject holds a code, that code is returned, whatever
    its body and the emails after it are. *)
Theorem fetch_first_code_wins
    (quote : string → string)
    (extract_verification_code : Json.json → option (option string))
    {datetime : Type} (before_since : datetime → Json.json → bool)
    (c : GPTMail.client) (since_time : option datetime) (w w1 : GPTMail.world)
    (before after : list Json.json) (members : list (string * Json.json))
    (s : string) :
  GPTMail.json_truthy (GPTMail.email c) = true →
  GPTMail._get_emails quote c (GPTMail._log c GPTMail.Info GPTMail.MsgFetching w)
    = (Some (Json.JArr (before ++ Json.JObj members :: after)), w1) →
  (∀ x w0, x ∈ before →
     (GPTMail.scan_item extract_verification_code before_since c since_time x w0).1
     = Some None) →
  match since_time with
  | Some t => before_since t (Json.JObj members)
  | None => false
  end = false →
  extract_verification_code (GPTMail.item_subject members) = Some (Some s) →
  s ≠ EmptyString →
  (GPTMail.fetch_verification_code quote extract_verification_code before_since
     c since_time w).1 = Some s.
Proof.
  intros Hmail Hget Hbefore Hsince Hsubject Hs.
  unfold GPTMail.fetch_verification_code. rewrite Hmail, Hget. cbn [negb].
  assert (GPTMail.json_truthy (Json.JArr (before ++ Json.JObj members :: after)) = true)
    as -> by (by destruct before).
  cbn [negb GPTMail.py_iter].
  pose proof (GPTMail.scan_items_first extract_verification_code before_since c
                since_time before members after s Hbefore Hsince Hsubject Hs 0%nat
                (GPTMail._log c GPTMail.Info GPTMail.MsgReceived w1)) as Hscan.
  destruct (GPTMail.scan_items _ _ c since_time 0 _ _) as [r w2].
  simpl in Hscan. by subst r.
Qed.

(** An inbox with a greeting, a mail with a code in its subject and
    another in its body, and an entry that is no mail. *)
Definition sample_inbox : list Json.json :=
  [Json.JObj [("subject", Json.JStr "Welcome")];
   Json.JObj [("subject", Json.JStr "Code 123456"); ("content", Json.JStr "654321")];
   Json.JStr "garbage"].

Definition sample_extract (text : Json.json) : option (option string) :=
  match text with
  | Json.JStr "Code 123456" => Some (Some "123456")
  | Json.JStr "654321" => Some (Some "654321")
  | _ => Some None
  end.

Definition inbox_world : GPTMail.world :=
  GPTMail.World
    (λ _ _, GPTMail.Replies 200
              (Some (Json.JObj [("success", Json.JBool true);
                                ("data", Json.JObj [("emails", Json.JArr sample_inbox)])])))
    [] 0 [].

Definition registered_client : GPTMail.client :=
  GPTMail.set_credentials sample_client (Json.JStr "b2@mail.example.com") Json.JNull.

Lemma fetch_first_code_wins_witness :
  (GPTMail.fetch_verification_code (λ s, s) sample_extract (λ (_ : unit) _, false)
     registered_client None inbox_world).1 = Some "123456".
Proof.
  apply (fetch_first_code_wins (λ s, s) sample_extract (λ (_ : unit) _, false)
           registered_client None inbox_world
           (GPTMail._get_emails (λ s, s) registered_client
              (GPTMail._log registered_client GPTMail.Info GPTMail.MsgFetching
                 inbox_world)).2
           [Json.JObj [("subject", Json.JStr "Welcome")]]
           [Json.JStr "garbage"]
           [("subject", Json.JStr "Code 123456"); ("content", Json.JStr "654321")]).
  - reflexivity.
  - vm_compute. reflexivity.
  - intros x w0 Hx. apply list_elem_of_singleton in Hx as ->. reflexivity.
  - reflexivity.
  - reflexivity.
  - discriminate.
Defined.

(** X25. [poll_for_code] with an interval of zero raises
    [ZeroDivisionError].  With a positive interval it returns, after
    [timeout // interval] requests at most and without ever sleeping
    after its last attempt: the time slept is at most [timeout -
    interval]; and when it gives up it has slept exactly [interval]
    between each two of its [timeout // interval] attempts.  With
    [timeout < interval] it gives up at once, without a request. *)
Theorem poll_for_code_budget
    (quote : string → string)
    (extract_verification_code : Json.json → option (option string))
    {datetime : Type} (before_since : datetime → Json.json → bool)
    (c : GPTMail.client) (timeout interval : Z)
    (since_time : option datetime) (w : GPTMail.world) :
  (interval = 0 →
   GPTMail.poll_for_code quote extract_verification_code before_since
     c timeout interval since_time w = (GPTMail.Raises GPTMail.ZeroDivisionError, w)) ∧
  (0 < interval →
   let '(r, w') :=
     GPTMail.poll_for_code quote extract_verification_code before_since
       c timeout interval since_time w in
   ∃ code,
     r = GPTMail.Returns code ∧
     (code = None ∨ GPTMail.code_truthy code = true) ∧
     (length (GPTMail.sent w') ≤
      length (GPTMail.sent w) + Z.to_nat (timeout / interval))%nat ∧
     GPTMail.slept w ≤ GPTMail.slept w' ≤ GPTMail.slept w + Z.max 0 (timeout - interval) ∧
     (code = None →
      GPTMail.slept w' = GPTMail.slept w + interval * Z.max 0 (timeout / interval - 1))).
Proof.
  split.
  { intros ->. reflexivity. }
  intros Hpos. unfold GPTMail.poll_for_code.
  assert ((interval =? 0) = false) as -> by (apply Z.eqb_neq; lia). cbv zeta.
  destruct (GPTMail.poll_attempts _ _ _ c since_time timeout interval _ _ 1 w)
    as [r w'] eqn:E.
  apply GPTMail.poll_attempts_post in E
    as (code & sleeps & -> & Hc & _ & Hsent & _ & Hb & Hs & Hexact); [|lia|lia].
  exists code. split_and!; try done.
  - rewrite Hs. nia.
  - rewrite Hs.
    pose proof (Z.mul_div_le timeout interval Hpos) as Hdiv.
    destruct (Z.le_gt_cases (timeout / interval) 0) as [Hm|Hm].
    + assert (sleeps = 0) as -> by lia. lia.
    + assert (sleeps * interval ≤ (timeout / interval - 1) * interval) by nia. lia.
  - intros Hnone. rewrite Hs, (Hexact Hnone). lia.
Qed.

(** A service that never has a mail: four attempts in twenty seconds,
    five seconds apart, fifteen seconds slept. *)
Example poll_for_code_example :
  (λ r, (r.1, length (GPTMail.sent r.2), GPTMail.slept r.2))
    (GPTMail.poll_for_code (λ s, s) sample_extract (λ (_ : unit) _, false)
       registered_client 20 5 None
       (GPTMail.World (λ _ _, GPTMail.Replies 200
                                (Some (Json.JObj [("success", Json.JBool false)])))
          [] 0 []))
  = (GPTMail.Returns None, 4%nat, 15).
Proof. vm_compute. reflexivity. Qed.

(** X26. The base URL a client keeps has no trailing slash (only the
    trailing slashes of the one given, or of the default when none is
    given, are removed), so the URLs it requests have exactly one slash
    before [api]; and the domain filter it keeps is trimmed. *)
Theorem init_normalises
    (base_url proxy : string) (verify_ssl : bool) (api_key domain : string)
    (log_callback : bool) :
  let c := GPTMail.__init__ base_url proxy verify_ssl api_key domain log_callback in
  (∀ s, GPTMail.base_url c ≠ (s ++ "/")%string) ∧
  (∃ k, (if String.eqb base_url EmptyString then "https://mail.chatgpt.org.uk"
         else base_url)
        = (GPTMail.base_url c ++ string_of_list_ascii (repeat "/"%char k))%string) ∧
  strip (GPTMail.domain_filter c) = GPTMail.domain_filter c.
Proof.
  cbn [GPTMail.__init__ GPTMail.base_url GPTMail.domain_filter]. split_and!.
  - intros s. apply GPTMail.rstrip_char_no_trailing.
  - apply GPTMail.rstrip_char_prefix.
  - apply strip_strip.
Qed.

(** ** The locks *)

(** X27. The lock of [_ensure_db_loop] is held by one thread at most,
    and only by a thread that is between its acquisition and its release
    (no exit path leaves it held); and no state is a deadlock: while a
    thread has not finished, some thread can move. *)
Theorem worker_lock_discipline (s : WorkerLoop.state) :
  WorkerLoop.reachable s →
  (∀ t1 t2, WorkerLoop.holds_lock (WorkerLoop.pcs s t1) = true →
            WorkerLoop.holds_lock (WorkerLoop.pcs s t2) = true → t1 = t2) ∧
  (∀ t, WorkerLoop.lock s = Some t →
        WorkerLoop.holds_lock (WorkerLoop.pcs s t) = true ∧
        WorkerLoop.finished (WorkerLoop.pcs s t) = false) ∧
  (∀ t, WorkerLoop.finished (WorkerLoop.pcs s t) = false →
        ∃ t', is_Some (WorkerLoop.step t' s)).
Proof.
  intros Hr. pose proof (WorkerLoop.worker_reachable_invariant s Hr) as Hinv.
  pose proof (WorkerLoop.inv_lock s Hinv) as Hlock. split_and!.
  - intros t1 t2 H1%Hlock H2%Hlock. congruence.
  - intros t Ht%Hlock. split; [done|]. by destruct (WorkerLoop.pcs s t).
  - intros t. by apply WorkerLoop.worker_progress.
Qed.

(** Two threads, the second waiting for the lock the first one holds. *)
Definition waiting_threads : WorkerLoop.state :=
  default WorkerLoop.initial
    (WorkerLoop.run [0; 1; 0; 1; 0]%nat WorkerLoop.initial).

Lemma worker_lock_discipline_witness :
  WorkerLoop.lock waiting_threads = Some 0%nat ∧
  WorkerLoop.step 1%nat waiting_threads = None ∧
  ∃ t, is_Some (WorkerLoop.step t waiting_threads).
Proof.
  destruct (worker_lock_discipline waiting_threads) as (_ & _ & Hprogress).
  { apply (WorkerLoop.worker_run_reachable [0; 1; 0; 1; 0]%nat WorkerLoop.initial).
    - apply WorkerLoop.reachable_initial.
    - vm_compute. reflexivity. }
  split_and!.
  - vm_compute. reflexivity.
  - vm_compute. reflexivity.
  - apply (Hprogress 1%nat). vm_compute. reflexivity.
Defined.

(** X28. The lock of [_get_pool] is held by one coroutine at most, and
    only by a coroutine that awaits inside the [async with] (a coroutine
    that returned or failed has released it); and no state is a
    deadlock. *)
Theorem pool_lock_discipline (s : PoolInit.state) :
  PoolInit.reachable s →
  (∀ c1 c2, PoolInit.holds_lock (PoolInit.pcs s c1) = true →
            PoolInit.holds_lock (PoolInit.pcs s c2) = true → c1 = c2) ∧
  (∀ c, PoolInit.lock_holder s = Some c →
        PoolInit.holds_lock (PoolInit.pcs s c) = true ∧
        PoolInit.finished (PoolInit.pcs s c) = false) ∧
  (∀ c, PoolInit.finished (PoolInit.pcs s c) = false →
        ∃ c', is_Some (PoolInit.step c' true s)).
Proof.
  intros Hr. pose proof (PoolInit.pool_reachable_invariant s Hr) as Hinv.
  pose proof (PoolInit.inv_lock s Hinv) as Hlock. split_and!.
  - intros c1 c2 H1%Hlock H2%Hlock. congruence.
  - intros c Hc%Hlock. split; [done|]. by destruct (PoolInit.pcs s c).
  - intros c. by apply PoolInit.pool_progress.
Qed.

(** The creation failed in the first coroutine: the lock is free again
    and the second, which was waiting, can go on. *)
Definition after_failed_creation : PoolInit.state :=
  default (PoolInit.initial true true)
    (PoolInit.run [(0, true); (1, true); (0, false)]%nat (PoolInit.initial true true)).

Lemma pool_lock_discipline_witness :
  PoolInit.lock_holder after_failed_creation = None ∧
  ∃ c, is_Some (PoolInit.step c true after_failed_creation).
Proof.
  destruct (pool_lock_discipline after_failed_creation) as (_ & _ & Hprogress).
  { apply (PoolInit.pool_run_reachable [(0, true); (1, true); (0, false)]%nat
             (PoolInit.initial true true)).
    - apply PoolInit.reachable_initial.
    - vm_compute. reflexivity. }
  split.
  - vm_compute. reflexivity.
  - apply (Hprogress 1%nat). vm_compute. reflexivity.
Defined.
